(** * HashMap with open addressing and quadratic probing (hash_map_oa.py)

    A shallow embedding of the [HashMap] class of [hash_map_oa.py] and the
    verification of its specification.

    Conventions of the embedding:
    - Python integers are [Z]; [%] is [Z.modulo] (the sign of the result
      follows the divisor, as in Python) and raises [ZeroDivisionError] on a
      zero divisor;
    - the float returned by [table_load] is the exact rational
      [size / capacity] in [Q]; the comparison with [0.5] is the comparison
      of rationals (a correctly rounded quotient of two integers below 2^53
      compares with 0.5 as the exact quotient does);
    - every method returns an [outcome]: a value, a raised exception, or
      [OutOfFuel] when a [while] loop was cut by the fuel of the model;
    - the object state [self] is passed explicitly as a [HashMap] record. *)

From Stdlib Require Import ZArith QArith Znumtheory Lia String List Bool.
From stdpp Require Import base list.
Import ListNotations.
Local Open Scope string_scope.
Local Open Scope Z_scope.

(** ** Outcomes: values, exceptions and fuel *)

Inductive exn : Type :=
| DynamicArrayException
| StopIteration
| ZeroDivisionError
| AttributeError.

Inductive outcome (A : Type) : Type :=
| Ret (a : A)
| Raise (e : exn)
| OutOfFuel.
Arguments Ret {A} a.
Arguments Raise {A} e.
Arguments OutOfFuel {A}.

Definition bind {A B : Type} (x : outcome A) (f : A -> outcome B) : outcome B :=
  match x with
  | Ret a => f a
  | Raise e => Raise e
  | OutOfFuel => OutOfFuel
  end.

Declare Scope outcome_scope.
Delimit Scope outcome_scope with outcome.
Notation "'let*' x ':=' e 'in' k" := (bind e (fun x => k))
  (at level 10, x name, e at level 100, k at level 200) : outcome_scope.
Local Open Scope outcome_scope.

(** [a % b] of Python. *)
Definition pymod (a b : Z) : outcome Z :=
  if b =? 0 then Raise ZeroDivisionError else Ret (a mod b).

(** [range(n)] of Python, for a [for] loop. *)
Definition range (n : Z) : list Z := map Z.of_nat (seq 0 (Z.to_nat n)).

(** A [for] loop over a list of indices, threading the state. *)
Fixpoint for_loop {S : Type} (idxs : list Z) (body : Z -> S -> outcome S)
  (s : S) : outcome S :=
  match idxs with
  | [] => Ret s
  | idx :: rest => let* s' := body idx s in for_loop rest body s'
  end.

(** ** The collaborators of hm_include *)

(** Python's [object] as far as the table can tell values apart: [None]
    or any other value. *)
Inductive object (V : Type) : Type :=
| PyNone
| PyObj (v : V).
Arguments PyNone {V}.
Arguments PyObj {V} v.

(** Modelled from the spec: [HashEntry] of hm_include, which is not among
    the sources. An entry holds a string key, a value and the tombstone
    flag; a new entry is not a tombstone. *)
Record HashEntry (V : Type) : Type := mkHashEntry {
  key : string;
  value : object V;
  is_tombstone : bool
}.
Arguments mkHashEntry {V} _ _ _.
Arguments key {V} _.
Arguments value {V} _.
Arguments is_tombstone {V} _.

Definition new_HashEntry {V : Type} (k : string) (v : object V) : HashEntry V :=
  mkHashEntry k v false.

(** Modelled from the spec: [DynamicArray] of hm_include, which is not among
    the sources. A sequence with [append], [length] and 0-based indexed
    [get] and [set] that fail with an out-of-range error on an invalid
    index. *)
Abbreviation DynamicArray := list (only parsing).

Definition da_length {A : Type} (da : DynamicArray A) : Z := Z.of_nat (length da).

Definition da_append {A : Type} (da : DynamicArray A) (x : A) : DynamicArray A :=
  (da ++ [x])%list.

Definition da_get {A : Type} (da : DynamicArray A) (idx : Z) : outcome A :=
  if (idx <? 0) || (da_length da <=? idx) then Raise DynamicArrayException
  else match da !! Z.to_nat idx with
       | Some x => Ret x
       | None => Raise DynamicArrayException
       end.

Definition da_set {A : Type} (da : DynamicArray A) (idx : Z) (x : A)
  : outcome (DynamicArray A) :=
  if (idx <? 0) || (da_length da <=? idx) then Raise DynamicArrayException
  else Ret (<[Z.to_nat idx := x]> da).

(** Modelled from the spec: a hash capability of hm_include, which is not
    among the sources: any deterministic function from keys to non-negative
    integers. This one adds up the character codes of the key. *)
Fixpoint hash_function_1 (k : string) : Z :=
  match k with
  | EmptyString => 0
  | String c rest => Z.of_nat (Ascii.nat_of_ascii c) + hash_function_1 rest
  end.

(** ** The table *)

(** A bucket is [None] (Empty) or an entry (Occupied, or Tombstoned when its
    flag is set). [_index] is the cursor of the iteration protocol, absent
    until [__iter__] sets it. *)
Record HashMap (V : Type) : Type := mkHashMap {
  _buckets : DynamicArray (option (HashEntry V));
  _capacity : Z;
  _hash_function : string -> Z;
  _size : Z;
  _index : option Z
}.
Arguments mkHashMap {V} _ _ _ _ _.
Arguments _buckets {V} _.
Arguments _capacity {V} _.
Arguments _hash_function {V} _.
Arguments _size {V} _.
Arguments _index {V} _.

Definition set_buckets {V} (m : HashMap V) bs : HashMap V :=
  mkHashMap bs (_capacity m) (_hash_function m) (_size m) (_index m).
Definition set_capacity {V} (m : HashMap V) c : HashMap V :=
  mkHashMap (_buckets m) c (_hash_function m) (_size m) (_index m).
Definition set_size {V} (m : HashMap V) s : HashMap V :=
  mkHashMap (_buckets m) (_capacity m) (_hash_function m) s (_index m).
Definition set_index {V} (m : HashMap V) i : HashMap V :=
  mkHashMap (_buckets m) (_capacity m) (_hash_function m) (_size m) i.

(** *** Prime capacities *)

(** The loop of [_is_prime]: [while factor ** 2 <= capacity]. *)
Fixpoint _is_prime_loop (fuel : nat) (capacity factor : Z) : outcome bool :=
  match fuel with
  | O => OutOfFuel
  | S fuel' =>
      if factor ^ 2 <=? capacity then
        if capacity mod factor =? 0 then Ret false
        else _is_prime_loop fuel' capacity (factor + 2)
      else Ret true
  end.

(** [_is_prime]. The loop runs with the fuel [capacity + 1], which it never
    uses up (see [_is_prime_total]). *)
Definition _is_prime (capacity : Z) : outcome bool :=
  if (capacity =? 2) || (capacity =? 3) then Ret true
  else if (capacity =? 1) || (capacity mod 2 =? 0) then Ret false
  else _is_prime_loop (S (Z.to_nat capacity)) capacity 3.

(** The loop of [_next_prime]: [while not self._is_prime(capacity)]. *)
Fixpoint _next_prime_loop (fuel : nat) (capacity : Z) : outcome Z :=
  match fuel with
  | O => OutOfFuel
  | S fuel' =>
      let* p := _is_prime capacity in
      if negb p then _next_prime_loop fuel' (capacity + 2)
      else Ret capacity
  end.

Definition _next_prime (fuel : nat) (capacity : Z) : outcome Z :=
  let capacity := if capacity mod 2 =? 0 then capacity + 1 else capacity in
  _next_prime_loop fuel capacity.

(** *** Construction and simple queries *)

(** [HashMap(capacity, function)]. *)
Definition __init__ {V : Type} (fuel : nat) (capacity : Z) (function : string -> Z)
  : outcome (HashMap V) :=
  let* capacity := _next_prime fuel capacity in
  let buckets := fold_left (fun b _ => da_append b None) (range capacity) [] in
  Ret (mkHashMap buckets capacity function 0 None).

Definition get_size {V} (m : HashMap V) : Z := _size m.
Definition get_capacity {V} (m : HashMap V) : Z := _capacity m.

(** [table_load]: the quotient [size / capacity]. *)
Definition table_load {V} (m : HashMap V) : outcome Q :=
  if _capacity m =? 0 then Raise ZeroDivisionError
  else Ret (inject_Z (_size m) / inject_Z (_capacity m))%Q.

(** [b is None or b.is_tombstone is True] *)
Definition is_free {V} (b : option (HashEntry V)) : bool :=
  match b with
  | None => true
  | Some e => is_tombstone e
  end.

(** [b is not None and b.is_tombstone is False] *)
Definition is_live {V} (b : option (HashEntry V)) : bool := negb (is_free b).

(** [clear]: the buckets of a fresh table of the current capacity. *)
Definition clear {V} (fuel : nat) (m : HashMap V) : outcome (HashMap V) :=
  let* temp := __init__ (V:=V) fuel (_capacity m) (_hash_function m) in
  Ret (set_size (set_buckets m (_buckets temp)) 0).

(** *** put and resize_table *)

(** The [while True] loop of [put]. *)
Fixpoint put_loop {V} (fuel : nat) (k : string) (v : object V)
  (hash_val count start_index : Z) (m : HashMap V) : outcome (HashMap V) :=
  match fuel with
  | O => OutOfFuel
  | S fuel' =>
      let* b := da_get (_buckets m) start_index in
      match b with
      | None =>
          let* bs := da_set (_buckets m) start_index (Some (new_HashEntry k v)) in
          Ret (set_size (set_buckets m bs) (_size m + 1))
      | Some e =>
          if is_tombstone e then
            let* bs := da_set (_buckets m) start_index (Some (new_HashEntry k v)) in
            Ret (set_size (set_buckets m bs) (_size m + 1))
          else if String.eqb (key e) k then
            let* bs := da_set (_buckets m) start_index
                         (Some (mkHashEntry (key e) v (is_tombstone e))) in
            Ret (set_buckets m bs)
          else
            let count := count + 1 in
            let* start_index := pymod (hash_val + count ^ 2) (_capacity m) in
            put_loop fuel' k v hash_val count start_index m
      end
  end.

(** The part of [put] after the load-factor check. *)
Definition put_probe {V} (fuel : nat) (k : string) (v : object V) (m : HashMap V)
  : outcome (HashMap V) :=
  let hash_val := _hash_function m k in
  let count := 0 in
  let* start_index := pymod (hash_val + count ^ 2) (_capacity m) in
  put_loop fuel k v hash_val count start_index m.

(** The body of [resize_table], with the method [put] it calls back as a
    parameter. *)
Definition resize_table_with {V}
  (put_rec : string -> object V -> HashMap V -> outcome (HashMap V))
  (fuel : nat) (new_capacity : Z) (m : HashMap V) : outcome (HashMap V) :=
  if new_capacity <? _size m then Ret m
  else
    let* p := _is_prime new_capacity in
    let* new_capacity :=
      (if negb p then _next_prime fuel new_capacity else Ret new_capacity) in
    let buckets_temp := _buckets m in
    let capacity_temp := _capacity m in
    let* m := clear fuel m in
    let new_buckets :=
      fold_left (fun b _ => da_append b None) (range new_capacity) [] in
    let m := set_buckets m new_buckets in
    let m := set_size m 0 in
    let m := set_capacity m new_capacity in
    for_loop (range capacity_temp)
      (fun idx m =>
         let* b := da_get buckets_temp idx in
         match b with
         | Some bucket =>
             if is_tombstone bucket then Ret m
             else put_rec (key bucket) (value bucket) m
         | None => Ret m
         end) m.

(** [put]; the fuel bounds the depth of the calls between [put] and
    [resize_table], and each loop. *)
Fixpoint put {V} (fuel : nat) (k : string) (v : object V) (m : HashMap V)
  {struct fuel} : outcome (HashMap V) :=
  match fuel with
  | O => OutOfFuel
  | S fuel' =>
      let* load := table_load m in
      let* m :=
        (if Qle_bool (1 # 2) load
         then resize_table_with (put fuel') fuel' (_capacity m * 2) m
         else Ret m) in
      put_probe fuel' k v m
  end.

Definition resize_table {V} (fuel : nat) (new_capacity : Z) (m : HashMap V)
  : outcome (HashMap V) :=
  resize_table_with (put fuel) fuel new_capacity m.

(** *** get, contains_key, remove *)

(** The loop of [get]: [while count <= self._capacity]. Falling out of the
    loop returns [None]. *)
Fixpoint get_loop {V} (fuel : nat) (k : string) (hash_val count start_index : Z)
  (m : HashMap V) : outcome (object V) :=
  match fuel with
  | O => OutOfFuel
  | S fuel' =>
      if count <=? _capacity m then
        let* b := da_get (_buckets m) start_index in
        match b with
        | Some e =>
            if String.eqb (key e) k && negb (is_tombstone e) then Ret (value e)
            else
              let count := count + 1 in
              let* start_index := pymod (hash_val + count ^ 2) (_capacity m) in
              get_loop fuel' k hash_val count start_index m
        | None =>
            let count := count + 1 in
            let* start_index := pymod (hash_val + count ^ 2) (_capacity m) in
            get_loop fuel' k hash_val count start_index m
        end
      else Ret PyNone
  end.

(** [get]. The loop runs with the fuel [capacity + 3], which it never uses
    up (see [get_total]). *)
Definition get {V} (k : string) (m : HashMap V) : outcome (object V) :=
  let hash_val := _hash_function m k in
  let count := 0 in
  let* start_index := pymod (hash_val + count ^ 2) (_capacity m) in
  get_loop (Z.to_nat (_capacity m) + 3) k hash_val count start_index m.

Definition contains_key {V} (k : string) (m : HashMap V) : outcome bool :=
  let* contains := get k m in
  match contains with
  | PyNone => Ret false
  | PyObj _ => Ret true
  end.

(** The loop of [remove]: [while count <= self._capacity]. *)
Fixpoint remove_loop {V} (fuel : nat) (k : string) (hash_val count start_index : Z)
  (m : HashMap V) : outcome (HashMap V) :=
  match fuel with
  | O => OutOfFuel
  | S fuel' =>
      if count <=? _capacity m then
        let* b := da_get (_buckets m) start_index in
        match b with
        | Some e =>
            if String.eqb (key e) k && negb (is_tombstone e) then
              let* bs := da_set (_buckets m) start_index
                           (Some (mkHashEntry (key e) (value e) true)) in
              Ret (set_size (set_buckets m bs) (_size m - 1))
            else
              let count := count + 1 in
              let* start_index := pymod (hash_val + count ^ 2) (_capacity m) in
              remove_loop fuel' k hash_val count start_index m
        | None =>
            let count := count + 1 in
            let* start_index := pymod (hash_val + count ^ 2) (_capacity m) in
            remove_loop fuel' k hash_val count start_index m
        end
      else Ret m
  end.

Definition remove {V} (k : string) (m : HashMap V) : outcome (HashMap V) :=
  let hash_val := _hash_function m k in
  let count := 0 in
  let* start_index := pymod (hash_val + count ^ 2) (_capacity m) in
  remove_loop (Z.to_nat (_capacity m) + 3) k hash_val count start_index m.

(** *** empty_buckets and get_keys_and_values *)

(** [empty_buckets]: the loop counts the slots below [capacity] that are
    Empty or Tombstoned. *)
Definition empty_buckets {V} (m : HashMap V) : outcome Z :=
  let count := 0 in
  for_loop (range (_capacity m))
    (fun idx count =>
       let* b := da_get (_buckets m) idx in
       if is_free b then Ret (count + 1) else Ret count) count.

(** [get_keys_and_values]: the loop appends the pair of every Occupied slot
    below [capacity]. *)
Definition get_keys_and_values {V} (m : HashMap V)
  : outcome (DynamicArray (string * object V)) :=
  let hash_objects := [] in
  for_loop (range (_capacity m))
    (fun idx hash_objects =>
       let* b := da_get (_buckets m) idx in
       match b with
       | Some bucket =>
           if is_tombstone bucket then Ret hash_objects
           else Ret (da_append hash_objects (key bucket, value bucket))
       | None => Ret hash_objects
       end) hash_objects.

(** *** The iteration protocol *)

Definition __iter__ {V} (m : HashMap V) : HashMap V := set_index m (Some 0).

(** [__next__]: the entry under the cursor and the table with the cursor
    advanced, or [StopIteration]. *)
Definition __next__ {V} (m : HashMap V) : outcome (HashEntry V * HashMap V) :=
  match _index m with
  | None => Raise AttributeError
  | Some i =>
      let* b := da_get (_buckets m) i in
      match b with
      | Some e =>
          if negb (is_tombstone e) then Ret (e, set_index m (Some (i + 1)))
          else Raise StopIteration
      | None => Raise StopIteration
      end
  end.

(** ** Notions of the specification *)

(** [le_out o o']: [o'] is [o], unless [o] ran out of fuel. *)
Definition le_out {A : Type} (o o' : outcome A) : Prop :=
  o = OutOfFuel \/ o = o'.

(** [ev f r]: with enough fuel, [f] returns [r]. *)
Definition ev {A : Type} (f : nat -> outcome A) (r : A) : Prop :=
  exists N : nat, forall n : nat, (N <= n)%nat -> f n = Ret r.

(** The probe sequence of a key: [(hash_val + count ** 2) % capacity]. *)
Definition probe (hash_val count capacity : Z) : Z :=
  (hash_val + count ^ 2) mod capacity.

(** The number of Occupied slots of a slot array. *)
Fixpoint count_live {V} (bs : list (option (HashEntry V))) : Z :=
  match bs with
  | [] => 0
  | b :: rest => (if is_live b then 1 else 0) + count_live rest
  end.

(** The bucket is Occupied by the key [k]. *)
Definition holds {V} (k : string) (b : option (HashEntry V)) : bool :=
  match b with
  | Some e => String.eqb (key e) k && negb (is_tombstone e)
  | None => false
  end.

(** The key [k] is live in the table with the value [v]. *)
Definition live_in {V} (m : HashMap V) (k : string) (v : object V) : Prop :=
  exists i e, _buckets m !! i = Some (Some e) /\
              is_tombstone e = false /\ key e = k /\ value e = v.

(** No key is live in two slots. *)
Definition unique_keys {V} (m : HashMap V) : Prop :=
  forall i j e1 e2,
    _buckets m !! i = Some (Some e1) -> _buckets m !! j = Some (Some e2) ->
    is_tombstone e1 = false -> is_tombstone e2 = false ->
    key e1 = key e2 -> i = j.

(** The invariant of the table: the capacity is a prime, the slot array has
    at least [capacity] slots and only Empty ones beyond them ([clear] on a
    table of capacity 2 leaves three), [size] counts the Occupied slots, the
    load factor was below 0.5 before the last entry was placed, and every
    Occupied slot lies on the probe sequence of its key. *)
Record wf {V} (m : HashMap V) : Prop := mk_wf {
  wf_prime : Z.prime (_capacity m);
  wf_length : _capacity m <= da_length (_buckets m);
  wf_tail : forall i b, _buckets m !! i = Some b ->
                        _capacity m <= Z.of_nat i -> b = None;
  wf_size : _size m = count_live (_buckets m);
  wf_load : 2 * (_size m - 1) < _capacity m;
  wf_probe : forall i e, _buckets m !! i = Some (Some e) ->
                         is_tombstone e = false ->
                         exists j, 0 <= j <= _capacity m /\
                           Z.of_nat i = probe (_hash_function m (key e)) j (_capacity m)
}.

(** The tables a program can reach: built by the constructor with a
    non-negative requested capacity, then used through the public
    operations, each of which returned. *)
Inductive reachable {V} : HashMap V -> Prop :=
| reach_init n c h m :
    0 <= c -> __init__ n c h = Ret m -> reachable m
| reach_put n k v m m' :
    reachable m -> put n k v m = Ret m' -> reachable m'
| reach_remove k m m' :
    reachable m -> remove k m = Ret m' -> reachable m'
| reach_clear n m m' :
    reachable m -> clear n m = Ret m' -> reachable m'
| reach_resize n c m m' :
    reachable m -> resize_table n c m = Ret m' -> reachable m'
| reach_iter m :
    reachable m -> reachable (__iter__ m)
| reach_next m e m' :
    reachable m -> __next__ m = Ret (e, m') -> reachable m'.

(** A [for] statement over the table, after [__iter__]: [__next__] is called
    until it raises [StopIteration]; the entries it yielded are collected.
    Any other exception propagates. *)
Fixpoint next_loop {V} (fuel : nat) (m : HashMap V) : outcome (list (HashEntry V)) :=
  match fuel with
  | O => OutOfFuel
  | S fuel' =>
      match __next__ m with
      | Ret (e, m') => let* rest := next_loop fuel' m' in Ret (e :: rest)
      | Raise StopIteration => Ret []
      | Raise e => Raise e
      | OutOfFuel => OutOfFuel
      end
  end.

Definition iterate {V} (fuel : nat) (m : HashMap V) : outcome (list (HashEntry V)) :=
  next_loop fuel (__iter__ m).

(** The loop of [get] again, also recording the slot indices it examines,
    in order (see [get_trace_get]). *)
Fixpoint get_loop_trace {V} (fuel : nat) (k : string)
  (hash_val count start_index : Z) (m : HashMap V) : outcome (object V * list Z) :=
  match fuel with
  | O => OutOfFuel
  | S fuel' =>
      if count <=? _capacity m then
        let* b := da_get (_buckets m) start_index in
        match b with
        | Some e =>
            if String.eqb (key e) k && negb (is_tombstone e) then
              Ret (value e, [start_index])
            else
              let count := count + 1 in
              let* next_index := pymod (hash_val + count ^ 2) (_capacity m) in
              let* r := get_loop_trace fuel' k hash_val count next_index m in
              Ret (fst r, start_index :: snd r)
        | None =>
            let count := count + 1 in
            let* next_index := pymod (hash_val + count ^ 2) (_capacity m) in
            let* r := get_loop_trace fuel' k hash_val count next_index m in
            Ret (fst r, start_index :: snd r)
        end
      else Ret (PyNone, [])
  end.

Definition get_trace {V} (k : string) (m : HashMap V) : outcome (object V * list Z) :=
  let hash_val := _hash_function m k in
  let count := 0 in
  let* start_index := pymod (hash_val + count ^ 2) (_capacity m) in
  get_loop_trace (Z.to_nat (_capacity m) + 3) k hash_val count start_index m.

(** The loop of [remove] again, also recording the slot indices it
    examines, in order (see [remove_trace_remove]). *)
Fixpoint remove_loop_trace {V} (fuel : nat) (k : string)
  (hash_val count start_index : Z) (m : HashMap V) : outcome (HashMap V * list Z) :=
  match fuel with
  | O => OutOfFuel
  | S fuel' =>
      if count <=? _capacity m then
        let* b := da_get (_buckets m) start_index in
        match b with
        | Some e =>
            if String.eqb (key e) k && negb (is_tombstone e) then
              let* bs := da_set (_buckets m) start_index
                           (Some (mkHashEntry (key e) (value e) true)) in
              Ret (set_size (set_buckets m bs) (_size m - 1), [start_index])
            else
              let count := count + 1 in
              let* next_index := pymod (hash_val + count ^ 2) (_capacity m) in
              let* r := remove_loop_trace fuel' k hash_val count next_index m in
              Ret (fst r, start_index :: snd r)
        | None =>
            let count := count + 1 in
            let* next_index := pymod (hash_val + count ^ 2) (_capacity m) in
            let* r := remove_loop_trace fuel' k hash_val count next_index m in
            Ret (fst r, start_index :: snd r)
        end
      else Ret (m, [])
  end.

Definition remove_trace {V} (k : string) (m : HashMap V) : outcome (HashMap V * list Z) :=
  let hash_val := _hash_function m k in
  let count := 0 in
  let* start_index := pymod (hash_val + count ^ 2) (_capacity m) in
  remove_loop_trace (Z.to_nat (_capacity m) + 3) k hash_val count start_index m.

(** The slot index of the [j]-th probe of the key [k]. *)
Definition slot {V} (m : HashMap V) (k : string) (j : Z) : nat :=
  Z.to_nat (probe (_hash_function m k) j (_capacity m)).

(** Where the loop of [put] stops: at a slot that is Empty or Tombstoned, or
    Occupied by the key. *)
Definition put_stops {V} (k : string) (b : option (HashEntry V)) : bool :=
  is_free b || holds k b.

(** The table after [put] has stopped at the slot [idx], which held [b]. *)
Definition put_at {V} (m : HashMap V) (k : string) (v : object V) (idx : nat)
  (b : option (HashEntry V)) : HashMap V :=
  set_size (set_buckets m (<[idx := Some (new_HashEntry k v)]> (_buckets m)))
           (_size m + (if is_free b then 1 else 0)).

(** The Occupied entries of a slot array, in slot order. *)
Fixpoint live_entries {V} (bs : list (option (HashEntry V))) : list (HashEntry V) :=
  match bs with
  | [] => []
  | Some e :: rest =>
      if is_tombstone e then live_entries rest else e :: live_entries rest
  | None :: rest => live_entries rest
  end.

(** The second loop of [resize_table], as a recursion on the old slots
    (see [for_loop_reinsert]). *)
Fixpoint reinsert {V}
  (put_rec : string -> object V -> HashMap V -> outcome (HashMap V))
  (old : list (option (HashEntry V))) (m : HashMap V) : outcome (HashMap V) :=
  match old with
  | [] => Ret m
  | b :: rest =>
      let* m' := match b with
                 | Some bucket =>
                     if is_tombstone bucket then Ret m
                     else put_rec (key bucket) (value bucket) m
                 | None => Ret m
                 end in
      reinsert put_rec rest m'
  end.

(** The fresh table [resize_table] re-inserts into. *)
Definition blank {V} (m : HashMap V) (c : Z) : HashMap V :=
  mkHashMap (replicate (Z.to_nat c) None) c (_hash_function m) 0 (_index m).

(** Two tables of the same hash function and cursor. *)
Definition frame {V} (m m' : HashMap V) : Prop :=
  _hash_function m' = _hash_function m /\ _index m' = _index m.

(** The live content of [m'] is that of [m] and the pair [(k, v)]. *)
Definition grows {V} (m : HashMap V) (k : string) (v : object V) (m' : HashMap V)
  : Prop :=
  unique_keys m -> (forall v0, ~ live_in m k v0) ->
  unique_keys m' /\
  forall k' v', live_in m' k' v' <-> live_in m k' v' \/ (k' = k /\ v' = v).

(** The live content of [m'] is that of [m]. *)
Definition same_content {V} (m m' : HashMap V) : Prop :=
  unique_keys m ->
  unique_keys m' /\ forall k v, live_in m' k v <-> live_in m k v.

(** The live content of [m] is the list of entries [l]. *)
Definition content_is {V} (l : list (HashEntry V)) (m : HashMap V) : Prop :=
  unique_keys m /\
  forall k v, live_in m k v <-> exists e, e ∈ l /\ key e = k /\ value e = v.

(** The table after [remove] has found the key in the slot [idx], which
    held the entry [e]. *)
Definition remove_at {V} (m : HashMap V) (idx : nat) (e : HashEntry V) : HashMap V :=
  set_size
    (set_buckets m (<[idx := Some (mkHashEntry (key e) (value e) true)]> (_buckets m)))
    (_size m - 1).

(** ** Sample tables

    [HashMap(3, hash_function_1)] and the tables a few calls lead to. The
    keys "a" and "d" both hash to the slot 1 of three. *)

Definition ex_new : HashMap Z :=
  mkHashMap [None; None; None] 3 hash_function_1 0 None.

(** after [put("a", 1)] *)
Definition ex_a : HashMap Z :=
  mkHashMap [None; Some (mkHashEntry "a" (PyObj 1) false); None]
            3 hash_function_1 1 None.

(** after [put("a", 1); put("b", 2)] *)
Definition ex_ab : HashMap Z :=
  mkHashMap [None; Some (mkHashEntry "a" (PyObj 1) false);
             Some (mkHashEntry "b" (PyObj 2) false)]
            3 hash_function_1 2 None.

(** after [put("a", 1); put("d", 2)] *)
Definition ex_ad : HashMap Z :=
  mkHashMap [None; Some (mkHashEntry "a" (PyObj 1) false);
             Some (mkHashEntry "d" (PyObj 2) false)]
            3 hash_function_1 2 None.

(** after [put("a", 1); put("d", 2); remove("a")] *)
Definition ex_d : HashMap Z :=
  mkHashMap [None; Some (mkHashEntry "a" (PyObj 1) true);
             Some (mkHashEntry "d" (PyObj 2) false)]
            3 hash_function_1 1 None.

(** after [put("a", 1); put("d", 2); remove("a"); put("d", 3)] *)
Definition ex_dd : HashMap Z :=
  mkHashMap [None; Some (mkHashEntry "d" (PyObj 3) false);
             Some (mkHashEntry "d" (PyObj 2) false)]
            3 hash_function_1 2 None.

(** after [resize_table(3)] on the last *)
Definition ex_dd_resized : HashMap Z :=
  mkHashMap [None; Some (mkHashEntry "d" (PyObj 2) false); None]
            3 hash_function_1 1 None.

(** A table with a gap in slot 1 and an Occupied slot behind it. *)
Definition ex_gap : HashMap Z :=
  mkHashMap [Some (mkHashEntry "c" (PyObj 1) false); None;
             Some (mkHashEntry "b" (PyObj 2) false)]
            3 hash_function_1 2 None.

(** The first [n] probes of a key, as slot indices. *)
Definition probes {V} (m : HashMap V) (k : string) (n : nat) : list Z :=
  map (fun i => probe (_hash_function m k) (Z.of_nat i) (_capacity m)) (seq 0 n).

(** The key [k] is absent: no slot is Occupied by it. *)
Definition absent {V} (m : HashMap V) (k : string) : Prop :=
  forall i b, _buckets m !! i = Some b -> holds k b = false.

(** What [get] reads in a bucket for the key [k]: the value, when the
    bucket is Occupied by the key. *)
Definition lookup_val {V} (k : string) (b : option (HashEntry V)) : option (object V) :=
  match b with
  | Some e => if String.eqb (key e) k && negb (is_tombstone e) then Some (value e)
              else None
  | None => None
  end.

(** No slot of the table is Tombstoned. *)
Definition no_tombstones {V} (m : HashMap V) : Prop :=
  forall i e, _buckets m !! i = Some (Some e) -> is_tombstone e = false.

(** Every Occupied slot lies on the probe sequence of its key, and every
    earlier slot of this sequence holds an entry or a tombstone. *)
Definition chain {V} (m : HashMap V) : Prop :=
  forall i e, _buckets m !! i = Some (Some e) -> is_tombstone e = false ->
    exists j, 0 <= j <= _capacity m /\
      Z.of_nat i = probe (_hash_function m (key e)) j (_capacity m) /\
      forall j', 0 <= j' < j ->
        exists e', _buckets m !! slot m (key e) j' = Some (Some e').

(** A table without tombstones in which no key is live twice. *)
Definition clean {V} (m : HashMap V) : Prop :=
  no_tombstones m /\ chain m /\ unique_keys m.

(** The tables a program reaches without calling [remove]. *)
Inductive built {V} : HashMap V -> Prop :=
| built_init n c h m :
    0 <= c -> __init__ n c h = Ret m -> built m
| built_put n k v m m' :
    built m -> put n k v m = Ret m' -> built m'
| built_clear n m m' :
    built m -> clear n m = Ret m' -> built m'
| built_resize n c m m' :
    built m -> resize_table n c m = Ret m' -> built m'
| built_iter m :
    built m -> built (__iter__ m)
| built_next m e m' :
    built m -> __next__ m = Ret (e, m') -> built m'.

(** after [put("a", 1); put("b", 2); put("c", 3)]: the third [put] has
    resized the table to the capacity 7. *)
Definition ex_abc : HashMap Z :=
  mkHashMap [Some (mkHashEntry "b" (PyObj 2) false);
             Some (mkHashEntry "c" (PyObj 3) false); None; None; None; None;
             Some (mkHashEntry "a" (PyObj 1) false)]
            7 hash_function_1 3 None.

(** The tables of an iteration during which the table is changed:
    [HashMap(3, hash_function_1)], [put("c", 1)], [__iter__], [__next__],
    [put("a", 2)], [__next__], [remove("c")], [put("b", 3)], [__next__].
    The key "c" hashes to the slot 0, "a" to the slot 1 and "b" to the
    slot 2. *)

(** after [put("c", 1)] *)
Definition ex_c : HashMap Z :=
  mkHashMap [Some (mkHashEntry "c" (PyObj 1) false); None; None]
            3 hash_function_1 1 None.

(** after [__iter__] and the first [__next__], which yields "c" *)
Definition ex_c_cur1 : HashMap Z :=
  mkHashMap [Some (mkHashEntry "c" (PyObj 1) false); None; None]
            3 hash_function_1 1 (Some 1).

(** after [put("a", 2)] *)
Definition ex_ca_cur1 : HashMap Z :=
  mkHashMap [Some (mkHashEntry "c" (PyObj 1) false);
             Some (mkHashEntry "a" (PyObj 2) false); None]
            3 hash_function_1 2 (Some 1).

(** after the second [__next__], which yields "a" *)
Definition ex_ca_cur2 : HashMap Z :=
  mkHashMap [Some (mkHashEntry "c" (PyObj 1) false);
             Some (mkHashEntry "a" (PyObj 2) false); None]
            3 hash_function_1 2 (Some 2).

(** after [remove("c")] *)
Definition ex_xa_cur2 : HashMap Z :=
  mkHashMap [Some (mkHashEntry "c" (PyObj 1) true);
             Some (mkHashEntry "a" (PyObj 2) false); None]
            3 hash_function_1 1 (Some 2).

(** after [put("b", 3)] *)
Definition ex_xab_cur2 : HashMap Z :=
  mkHashMap [Some (mkHashEntry "c" (PyObj 1) true);
             Some (mkHashEntry "a" (PyObj 2) false);
             Some (mkHashEntry "b" (PyObj 3) false)]
            3 hash_function_1 2 (Some 2).

(** after the third [__next__], which yields "b": the cursor is 3, the
    length of the slot array *)
Definition ex_xab_cur3 : HashMap Z :=
  mkHashMap [Some (mkHashEntry "c" (PyObj 1) true);
             Some (mkHashEntry "a" (PyObj 2) false);
             Some (mkHashEntry "b" (PyObj 3) false)]
            3 hash_function_1 2 (Some 3).
(** * Verification *)

(** ** Fuel: more fuel never changes a result *)

Lemma le_out_refl {A} (o : outcome A) : le_out o o.
Proof. now right. Qed.

Lemma le_out_bind {A B} (o o' : outcome A) (f f' : A -> outcome B) :
  le_out o o' -> (forall a, le_out (f a) (f' a)) ->
  le_out (bind o f) (bind o' f').
Proof.
  intros [-> | ->] Hf; [now left|].
  destruct o' as [a| |]; simpl; [apply Hf|now right|now left].
Qed.

Lemma le_out_Ret {A} (o o' : outcome A) (a : A) :
  le_out o o' -> o = Ret a -> o' = Ret a.
Proof. intros [-> | ->]; [discriminate|auto]. Qed.

Lemma for_loop_le {S} (idxs : list Z) (body body' : Z -> S -> outcome S) :
  (forall i s, le_out (body i s) (body' i s)) ->
  forall s, le_out (for_loop idxs body s) (for_loop idxs body' s).
Proof.
  intros Hb. induction idxs as [|i r IH]; intros s; simpl.
  - apply le_out_refl.
  - apply le_out_bind; auto.
Qed.

Lemma _next_prime_loop_mono (n n' : nat) (c : Z) :
  (n <= n')%nat -> le_out (_next_prime_loop n c) (_next_prime_loop n' c).
Proof.
  revert n' c. induction n as [|n IH]; intros n' c Hle; [now left|].
  destruct n' as [|n']; [lia|]. simpl.
  apply le_out_bind; [apply le_out_refl|].
  intros p. destruct (negb p); [apply IH; lia|apply le_out_refl].
Qed.

Lemma _next_prime_mono (n n' : nat) (c : Z) :
  (n <= n')%nat -> le_out (_next_prime n c) (_next_prime n' c).
Proof. intros. unfold _next_prime. now apply _next_prime_loop_mono. Qed.

Lemma __init___mono {V} (n n' : nat) (c : Z) (h : string -> Z) :
  (n <= n')%nat -> le_out (__init__ (V:=V) n c h) (__init__ n' c h).
Proof.
  intros. unfold __init__.
  apply le_out_bind; [now apply _next_prime_mono|intros; apply le_out_refl].
Qed.

Lemma clear_mono {V} (n n' : nat) (m : HashMap V) :
  (n <= n')%nat -> le_out (clear n m) (clear n' m).
Proof.
  intros. unfold clear.
  apply le_out_bind; [now apply __init___mono|intros; apply le_out_refl].
Qed.

Lemma put_loop_mono {V} (n n' : nat) k (v : object V) h c i m :
  (n <= n')%nat -> le_out (put_loop n k v h c i m) (put_loop n' k v h c i m).
Proof.
  revert n' c i. induction n as [|n IH]; intros n' c i Hle; [now left|].
  destruct n' as [|n']; [lia|]. simpl.
  apply le_out_bind; [apply le_out_refl|].
  intros [e|]; [|apply le_out_refl].
  destruct (is_tombstone e); [apply le_out_refl|].
  destruct (String.eqb (key e) k); [apply le_out_refl|].
  apply le_out_bind; [apply le_out_refl|].
  intros j. apply IH. lia.
Qed.

Lemma put_probe_mono {V} (n n' : nat) k (v : object V) m :
  (n <= n')%nat -> le_out (put_probe n k v m) (put_probe n' k v m).
Proof.
  intros. unfold put_probe.
  apply le_out_bind; [apply le_out_refl|].
  intros. now apply put_loop_mono.
Qed.

Lemma resize_table_with_mono {V}
  (P P' : string -> object V -> HashMap V -> outcome (HashMap V))
  (n n' : nat) (c : Z) (m : HashMap V) :
  (forall k v t, le_out (P k v t) (P' k v t)) -> (n <= n')%nat ->
  le_out (resize_table_with P n c m) (resize_table_with P' n' c m).
Proof.
  intros HP Hle. unfold resize_table_with.
  destruct (c <? _size m); [apply le_out_refl|].
  apply le_out_bind; [apply le_out_refl|]. intros p.
  apply le_out_bind.
  { destruct (negb p); [now apply _next_prime_mono|apply le_out_refl]. }
  intros c'.
  apply le_out_bind; [now apply clear_mono|]. intros t.
  apply for_loop_le. intros i s.
  apply le_out_bind; [apply le_out_refl|].
  intros [e|]; [|apply le_out_refl].
  destruct (is_tombstone e); [apply le_out_refl|apply HP].
Qed.

Lemma put_mono {V} (n n' : nat) k (v : object V) m :
  (n <= n')%nat -> le_out (put n k v m) (put n' k v m).
Proof.
  revert n' k v m. induction n as [|n IH]; intros n' k v m Hle; [now left|].
  destruct n' as [|n']; [lia|]. simpl.
  apply le_out_bind; [apply le_out_refl|]. intros load.
  apply le_out_bind.
  - destruct (Qle_bool (1 # 2) load); [|apply le_out_refl].
    apply resize_table_with_mono; [|lia].
    intros. apply IH. lia.
  - intros t. apply put_probe_mono. lia.
Qed.

Lemma resize_table_mono {V} (n n' : nat) c (m : HashMap V) :
  (n <= n')%nat -> le_out (resize_table n c m) (resize_table n' c m).
Proof.
  intros. unfold resize_table.
  apply resize_table_with_mono; [|assumption].
  intros. now apply put_mono.
Qed.

(** A result obtained with some fuel is the result obtained with enough
    fuel. *)
Lemma ev_unique {A} (f : nat -> outcome A) (r r' : A) (n : nat) :
  (forall a b, (a <= b)%nat -> le_out (f a) (f b)) ->
  ev f r -> f n = Ret r' -> r' = r.
Proof.
  intros Hm [N HN] Hn.
  pose proof (Hm n (Nat.max n N) (Nat.le_max_l _ _)) as Hle.
  apply (le_out_Ret _ _ r') in Hle; [|assumption].
  rewrite HN in Hle by apply Nat.le_max_r. congruence.
Qed.

Lemma ev_ret {A} (r : A) : ev (fun _ => Ret r) r.
Proof. exists 0%nat. reflexivity. Qed.

Lemma ev_bind {A B} (f : nat -> outcome A) (g : nat -> A -> outcome B) a b :
  ev f a -> ev (fun n => g n a) b -> ev (fun n => bind (f n) (g n)) b.
Proof.
  intros [N1 H1] [N2 H2]. exists (Nat.max N1 N2). intros n Hn.
  rewrite H1 by lia. simpl. apply H2. lia.
Qed.

Lemma ev_S {A} (f : nat -> outcome A) (g : nat -> outcome A) r :
  (forall n, g (S n) = f n) -> ev f r -> ev g r.
Proof.
  intros Hg [N HN]. exists (S N). intros [|n] Hn; [lia|].
  rewrite Hg. apply HN. lia.
Qed.

(** ** Prime capacities *)

(** Below a bound, either nothing proper divides [n] or something does. *)
Lemma divisor_search (n : Z) (m : nat) :
  (forall d, 1 < d < 2 + Z.of_nat m -> ~ (d | n)) \/
  (exists d, 1 < d < 2 + Z.of_nat m /\ (d | n)).
Proof.
  induction m as [|m [IH | IH]].
  - left. intros d Hd. lia.
  - destruct (Z.BoolSpec_divide (2 + Z.of_nat m) n) as [Hd | Hd].
    + right. exists (2 + Z.of_nat m). split; [lia|assumption].
    + left. intros d Hr.
      destruct (Z.eq_dec d (2 + Z.of_nat m)) as [-> | Hne]; [assumption|].
      apply IH. lia.
  - right. destruct IH as (d & Hr & Hd). exists d. split; [lia|assumption].
Qed.

Lemma prime_or_divisor (n : Z) :
  2 <= n -> Z.prime n \/ exists d, 1 < d < n /\ (d | n).
Proof.
  intros Hn.
  destruct (divisor_search n (Z.to_nat (n - 2))) as [H | H];
    rewrite Z2Nat.id in H by lia;
    replace (2 + (n - 2)) with n in H by lia.
  - left. split; [lia|assumption].
  - now right.
Qed.

(** Every number from 2 on has a prime divisor. *)
Lemma prime_divisor (n : Z) : 2 <= n -> exists p, Z.prime p /\ (p | n).
Proof.
  assert (forall (k : nat) n, 2 <= n -> (Z.to_nat n <= k)%nat ->
            exists p, Z.prime p /\ (p | n)) as H.
  { induction k as [|k IH]; intros n' Hn Hk; [lia|].
    destruct (prime_or_divisor n' Hn) as [Hp | (d & Hr & Hd)].
    - exists n'. split; [assumption|apply Z.divide_refl].
    - destruct (IH d) as (p & Hp & Hpd); [lia|lia|].
      exists p. split; [assumption|]. now apply Z.divide_trans with d. }
  intros Hn. now apply (H (Z.to_nat n)).
Qed.

Lemma divide_fact (k d : nat) :
  (1 <= d <= k)%nat -> (Z.of_nat d | Z.of_nat (fact k)).
Proof.
  induction k as [|k IH]; intros Hd; [lia|].
  change (fact (S k)) with (S k * fact k)%nat. rewrite Nat2Z.inj_mul.
  destruct (Nat.eq_dec d (S k)) as [-> | Hne].
  - apply Z.divide_mul_l, Z.divide_refl.
  - apply Z.divide_mul_r, IH. lia.
Qed.

(** Euclid: there is a prime above every number. *)
Lemma prime_above (n : Z) : exists p, n < p /\ Z.prime p.
Proof.
  set (k := Z.to_nat n).
  destruct (prime_divisor (Z.of_nat (fact k) + 1)) as (p & Hp & Hd).
  { pose proof (lt_O_fact k). lia. }
  exists p. split; [|assumption].
  destruct (Z.lt_ge_cases n p) as [|Hle]; [assumption|exfalso].
  pose proof (Z.prime_ge_2 p Hp) as H2.
  assert (Z.of_nat (Z.to_nat p) | Z.of_nat (fact k)) as Hf.
  { apply divide_fact. subst k. lia. }
  rewrite Z2Nat.id in Hf by lia.
  assert (p | 1) as H1.
  { replace 1 with ((Z.of_nat (fact k) + 1) - Z.of_nat (fact k)) by lia.
    now apply Z.divide_sub_r. }
  apply Z.divide_1_r_nonneg in H1; lia.
Qed.

(** *** [_is_prime] *)

Lemma _is_prime_loop_total (n : nat) (c f : Z) :
  3 <= f -> c - f < Z.of_nat n ->
  exists b, _is_prime_loop (S n) c f = Ret b.
Proof.
  revert f. induction n as [|n IH]; intros f Hf Hn.
  - simpl. destruct (Z.leb_spec (f ^ 2) c) as [Hle|]; [nia|]. now exists true.
  - cbn [_is_prime_loop].
    destruct (f ^ 2 <=? c); [|now exists true].
    destruct (c mod f =? 0); [now exists false|].
    apply IH; lia.
Qed.

Lemma _is_prime_total (c : Z) : exists b, _is_prime c = Ret b.
Proof.
  unfold _is_prime.
  destruct ((c =? 2) || (c =? 3)); [now exists true|].
  destruct ((c =? 1) || (c mod 2 =? 0)); [now exists false|].
  apply _is_prime_loop_total; lia.
Qed.

(** What the loop has checked when it answers. *)
Lemma _is_prime_loop_true (n : nat) (c f : Z) :
  3 <= f -> _is_prime_loop n c f = Ret true ->
  forall j, 0 <= j -> (f + 2 * j) ^ 2 <= c -> ~ (f + 2 * j | c).
Proof.
  revert f. induction n as [|n IH]; intros f Hf H j Hj Hsq; [discriminate|].
  simpl in H.
  destruct (Z.leb_spec (f ^ 2) c) as [Hle | Hgt]; [|nia].
  destruct (Z.eqb_spec (c mod f) 0) as [|Hmod]; [discriminate|].
  destruct (Z.eq_dec j 0) as [-> | Hj0].
  - rewrite Z.add_0_r. intros Hd. apply Hmod. now apply Z.mod0_divide.
  - replace (f + 2 * j) with ((f + 2) + 2 * (j - 1)) in * by lia.
    apply (IH (f + 2)); [lia|assumption|lia|assumption].
Qed.

Lemma _is_prime_loop_false (n : nat) (c f : Z) :
  3 <= f -> _is_prime_loop n c f = Ret false ->
  exists g, 3 <= g /\ g ^ 2 <= c /\ (g | c).
Proof.
  revert f. induction n as [|n IH]; intros f Hf H; [discriminate|].
  simpl in H.
  destruct (Z.leb_spec (f ^ 2) c) as [Hle | Hgt]; [|discriminate].
  destruct (Z.eqb_spec (c mod f) 0) as [Hmod|Hmod].
  - exists f. repeat split; [assumption..|].
    apply Z.mod_divide; [lia|assumption].
  - apply (IH (f + 2)); [lia|assumption].
Qed.

(** On the non-negative integers [_is_prime] decides primality. *)
Lemma _is_prime_sound (c : Z) : 0 <= c -> _is_prime c = Ret true -> Z.prime c.
Proof.
  intros Hc. unfold _is_prime.
  destruct (Z.eqb_spec c 2) as [-> | H2]; [intros; apply Z.prime_2|].
  destruct (Z.eqb_spec c 3) as [-> | H3]; [intros; apply Z.prime_3|].
  destruct (Z.eqb_spec c 1) as [-> | H1]; [discriminate|].
  destruct (Z.eqb_spec (c mod 2) 0) as [He | Ho]; [discriminate|].
  cbn [orb]. intros Hl.
  assert (c <> 0) by (intros ->; now apply Ho).
  split; [lia|]. intros d Hr (q & Hq).
  (* the smaller of the two cofactors is an odd factor below the root *)
  assert (forall a b, c = a * b -> 1 < a -> a <= b -> False) as Hsmall.
  { intros a b Hab Ha Hle.
    destruct (Z.eq_dec (a mod 2) 0) as [Hev | Hod].
    - apply Ho. apply Z.mod0_divide. rewrite Hab.
      apply Z.divide_mul_l. apply Z.mod_divide; lia.
    - pose proof (Z.mod_pos_bound a 2 ltac:(lia)) as Hb.
      pose proof (Z.div_mod a 2 ltac:(lia)) as Hdm.
      assert (a = 3 + 2 * (a / 2 - 1)) as Ha3 by lia.
      apply (_is_prime_loop_true _ _ _ (Z.le_refl 3) Hl (a / 2 - 1)).
      + lia.
      + rewrite <- Ha3. nia.
      + rewrite <- Ha3. exists b. lia. }
  assert (1 < q) by nia.
  destruct (Z.le_gt_cases d q).
  - apply (Hsmall d q); [lia|lia|assumption].
  - apply (Hsmall q d); [lia|lia|lia].
Qed.

Lemma _is_prime_complete (c : Z) : Z.prime c -> _is_prime c = Ret true.
Proof.
  intros [H1 Hp]. unfold _is_prime.
  destruct (Z.eqb_spec c 2) as [-> | H2]; [reflexivity|].
  destruct (Z.eqb_spec c 3) as [-> | H3]; [reflexivity|].
  destruct (Z.eqb_spec c 1) as [-> | H1']; [lia|].
  destruct (Z.eqb_spec (c mod 2) 0) as [He | Ho].
  { exfalso. apply (Hp 2); [lia|]. apply Z.mod_divide; [lia|assumption]. }
  cbn [orb].
  destruct (_is_prime_loop_total (Z.to_nat c) c 3) as [[|] Hb]; [lia|lia|assumption|].
  exfalso. apply _is_prime_loop_false in Hb; [|lia].
  destruct Hb as (g & Hg & Hsq & Hd). apply (Hp g); [nia|assumption].
Qed.

(** Below zero every odd number passes for a prime. *)
Lemma _is_prime_negative (c : Z) :
  c < 0 -> _is_prime c = Ret (negb (c mod 2 =? 0)).
Proof.
  intros Hc. unfold _is_prime.
  destruct (Z.eqb_spec c 2); [lia|]. destruct (Z.eqb_spec c 3); [lia|].
  destruct (Z.eqb_spec c 1); [lia|]. cbn [orb].
  destruct (c mod 2 =? 0); [reflexivity|].
  replace (Z.to_nat c) with 0%nat by lia. cbn [_is_prime_loop negb].
  destruct (Z.leb_spec (3 ^ 2) c) as [Hle|]; [|reflexivity].
  change (3 ^ 2) with 9 in Hle. lia.
Qed.

(** *** [_next_prime] *)

Lemma prime_odd (p : Z) : Z.prime p -> 2 < p -> p mod 2 = 1.
Proof.
  intros [_ Hp] H2.
  pose proof (Z.mod_pos_bound p 2 ltac:(lia)) as Hb.
  destruct (Z.eq_dec (p mod 2) 0) as [He|]; [|lia].
  exfalso. apply (Hp 2); [lia|]. apply Z.mod_divide; lia.
Qed.

Lemma odd_plus_2 (c : Z) : c mod 2 = 1 -> (c + 2) mod 2 = 1.
Proof.
  intros H. replace (c + 2) with (c + 1 * 2) by lia.
  now rewrite Z.mod_add by lia.
Qed.

(** The loop stops at the first number of its stride that [_is_prime]
    accepts; [d] bounds the number of steps to one that is accepted. *)
Lemma _next_prime_loop_ev (d : nat) (c : Z) :
  _is_prime (c + 2 * Z.of_nat d) = Ret true ->
  exists r, ev (fun n => _next_prime_loop n c) r /\
            c <= r <= c + 2 * Z.of_nat d /\ _is_prime r = Ret true /\
            (r - c) mod 2 = 0.
Proof.
  revert c. induction d as [|d IH]; intros c Hp.
  - rewrite Z.add_0_r in Hp. exists c. split; [|split; [lia|split; [assumption|]]].
    + exists 1%nat. intros [|n] Hn; [lia|]. simpl. now rewrite Hp.
    + now rewrite Z.sub_diag.
  - destruct (_is_prime_total c) as [[|] Hb].
    + exists c. split; [|split; [lia|split; [assumption|]]].
      * exists 1%nat. intros [|n] Hn; [lia|]. simpl. now rewrite Hb.
      * now rewrite Z.sub_diag.
    + destruct (IH (c + 2)) as (r & [N HN] & Hr & Hpr & Hpar).
      { rewrite <- Hp. f_equal. lia. }
      exists r. split; [|split; [lia|split; [assumption|]]].
      * exists (S N). intros [|n] Hn; [lia|]. simpl. rewrite Hb. simpl.
        apply HN. lia.
      * replace (r - c) with (r - (c + 2) + 1 * 2) by lia.
        now rewrite Z.mod_add by lia.
Qed.

(** [_next_prime] returns: with enough fuel it finds an odd number that
    [_is_prime] accepts. *)
Lemma _next_prime_ev (c : Z) :
  exists r, ev (fun n => _next_prime n c) r /\ c <= r /\ r mod 2 = 1 /\
            _is_prime r = Ret true /\
            (c mod 2 = 1 -> _is_prime c = Ret true -> r = c).
Proof.
  unfold _next_prime.
  set (c0 := if c mod 2 =? 0 then c + 1 else c).
  assert (c0 mod 2 = 1 /\ c <= c0 /\ (c mod 2 = 1 -> c0 = c)) as (Hodd & Hle & Hsame).
  { subst c0. pose proof (Z.mod_pos_bound c 2 ltac:(lia)) as Hb.
    destruct (Z.eqb_spec (c mod 2) 0) as [He|Hne].
    - split; [|lia].
      replace (c + 1) with (1 + c) by lia.
      rewrite Z.add_mod, He by lia. reflexivity.
    - split; [lia|]. split; [lia|reflexivity]. }
  destruct (prime_above (Z.max c0 2)) as (p & Hgt & Hp).
  pose proof (prime_odd p Hp ltac:(lia)) as Hpodd.
  pose proof (Z.div_mod c0 2 ltac:(lia)) as Hd0.
  pose proof (Z.div_mod p 2 ltac:(lia)) as Hdp.
  destruct (_next_prime_loop_ev (Z.to_nat (p / 2 - c0 / 2)) c0) as (r & Hev & Hr & Hpr & Hpar).
  { replace (c0 + 2 * Z.of_nat (Z.to_nat (p / 2 - c0 / 2))) with p by lia.
    now apply _is_prime_complete. }
  exists r. split; [assumption|]. split; [lia|]. split; [|split; [assumption|]].
  - replace r with (c0 + (r - c0)) by lia.
    rewrite Z.add_mod, Hpar, Hodd by lia. reflexivity.
  - intros Hc Hpc. rewrite (Hsame Hc) in *.
    destruct Hev as [N HN]. specialize (HN (S N) ltac:(lia)).
    simpl in HN. rewrite Hpc in HN. simpl in HN. congruence.
Qed.

(** For a non-negative request the result is a prime. *)
Lemma _next_prime_prime (c : Z) :
  0 <= c ->
  exists r, ev (fun n => _next_prime n c) r /\ c <= r /\ r mod 2 = 1 /\
            Z.prime r /\ (c mod 2 = 1 -> Z.prime c -> r = c).
Proof.
  intros Hc. destruct (_next_prime_ev c) as (r & Hev & Hle & Hodd & Hp & Hsame).
  exists r. split; [assumption|]. split; [assumption|]. split; [assumption|].
  split.
  - apply _is_prime_sound; [lia|assumption].
  - intros Ho Hpc. apply Hsame; [assumption|]. now apply _is_prime_complete.
Qed.

(** ** The backing array *)

Lemma da_get_Ret {A} (bs : DynamicArray A) (i : Z) (x : A) :
  0 <= i -> bs !! Z.to_nat i = Some x -> da_get bs i = Ret x.
Proof.
  intros Hi Hl. unfold da_get, da_length.
  pose proof (lookup_lt_Some _ _ _ Hl) as Hlt.
  destruct (Z.ltb_spec i 0); [lia|].
  destruct (Z.leb_spec (Z.of_nat (length bs)) i); [lia|].
  cbn [orb]. now rewrite Hl.
Qed.

Lemma da_get_inv {A} (bs : DynamicArray A) (i : Z) (x : A) :
  da_get bs i = Ret x ->
  0 <= i < da_length bs /\ bs !! Z.to_nat i = Some x.
Proof.
  unfold da_get, da_length.
  destruct (Z.ltb_spec i 0); [discriminate|].
  destruct (Z.leb_spec (Z.of_nat (length bs)) i); [discriminate|].
  cbn [orb]. destruct (bs !! Z.to_nat i) eqn:E; [|discriminate].
  intros [= ->]. split; [lia|reflexivity].
Qed.

Lemma da_set_Ret {A} (bs : DynamicArray A) (i : Z) (x : A) :
  0 <= i < da_length bs -> da_set bs i x = Ret (<[Z.to_nat i := x]> bs).
Proof.
  intros Hi. unfold da_set.
  destruct (Z.ltb_spec i 0); [lia|].
  destruct (Z.leb_spec (da_length bs) i); [lia|]. reflexivity.
Qed.

Lemma length_range (c : Z) : length (range c) = Z.to_nat c.
Proof. unfold range. now rewrite length_map, length_seq. Qed.

(** The [append] loop of the constructor builds [capacity] empty slots. *)
Lemma append_loop {A} (x : A) (l : list Z) (acc : DynamicArray A) :
  fold_left (fun b _ => da_append b x) l acc = (acc ++ replicate (length l) x)%list.
Proof.
  revert acc. induction l as [|i l IH]; intros acc; simpl.
  - now rewrite app_nil_r.
  - rewrite IH. unfold da_append. rewrite <- app_assoc. reflexivity.
Qed.

Lemma append_loop_range {A} (x : A) (c : Z) :
  fold_left (fun b _ => da_append b x) (range c) [] = replicate (Z.to_nat c) x.
Proof. now rewrite append_loop, length_range. Qed.

(** ** Counting the Occupied slots *)

Lemma count_live_bounds {V} (bs : list (option (HashEntry V))) :
  0 <= count_live bs <= Z.of_nat (length bs).
Proof.
  induction bs as [|b bs IH]; simpl; [lia|].
  destruct (is_live b); lia.
Qed.

Lemma count_live_replicate {V} (n : nat) :
  count_live (replicate n (@None (HashEntry V))) = 0.
Proof. induction n as [|n IH]; simpl; [reflexivity|]. now rewrite IH. Qed.

Lemma count_live_insert {V} (bs : list (option (HashEntry V))) (i : nat) old new :
  bs !! i = Some old ->
  count_live (<[i := new]> bs) =
  count_live bs - (if is_live old then 1 else 0) + (if is_live new then 1 else 0).
Proof.
  revert i. induction bs as [|b bs IH]; intros [|i] H; simpl in *; try discriminate.
  - injection H as ->. lia.
  - rewrite (IH i H). lia.
Qed.

(** Pigeonhole: distinct Occupied slots are counted by [count_live]. *)
Lemma count_live_NoDup {V} (bs : list (option (HashEntry V))) (idxs : list nat) :
  NoDup idxs ->
  (forall i, i ∈ idxs -> exists b, bs !! i = Some b /\ is_live b = true) ->
  Z.of_nat (length idxs) <= count_live bs.
Proof.
  intros Hnd. revert bs. induction Hnd as [|i idxs Hni Hnd IH]; intros bs Hl.
  - simpl. apply count_live_bounds.
  - destruct (Hl i) as (b & Hb & Hlive); [left|].
    specialize (IH (<[i := None]> bs)).
    rewrite (count_live_insert bs i b None Hb), Hlive in IH. simpl in IH.
    cbn [length]. 
    enough (Z.of_nat (length idxs) <= count_live bs - 1 + 0) by lia.
    apply IH. intros j Hj.
    destruct (Hl j) as (b' & Hb' & Hlive'); [now right|].
    exists b'. split; [|assumption].
    rewrite list_lookup_insert_ne; [assumption|]. intros ->. contradiction.
Qed.

(** A slot array with fewer Occupied slots than slots has a first slot that
    is not Occupied. *)
Lemma first_free {V} (bs : list (option (HashEntry V))) :
  count_live bs < Z.of_nat (length bs) ->
  exists j b, bs !! j = Some b /\ is_free b = true /\
              forall i, (i < j)%nat -> exists e, bs !! i = Some (Some e) /\
                                                  is_tombstone e = false.
Proof.
  induction bs as [|b bs IH]; simpl; [lia|]. intros H.
  destruct (is_free b) eqn:Hf.
  - exists 0%nat, b. split; [reflexivity|]. split; [assumption|]. intros; lia.
  - unfold is_live in H. rewrite Hf in H. simpl in H.
    destruct IH as (j & b' & Hb' & Hf' & Hpre); [lia|].
    exists (S j), b'. split; [assumption|]. split; [assumption|].
    intros [|i] Hi.
    + destruct b as [e|]; [|discriminate]. exists e. split; [reflexivity|exact Hf].
    + apply Hpre. lia.
Qed.

(** ** The probe sequence *)

Lemma probe_range (h j c : Z) : 0 < c -> 0 <= probe h j c < c.
Proof. intros. unfold probe. now apply Z.mod_pos_bound. Qed.

(** Quadratic probing over a prime capacity: the first half of the probes
    visits distinct slots. *)
Lemma probe_inj (h i j p : Z) :
  Z.prime p -> 0 <= i < j -> 2 * j <= p -> probe h i p <> probe h j p.
Proof.
  intros Hp Hij Hj Heq. unfold probe in Heq.
  pose proof (Z.prime_ge_2 p Hp) as H2.
  assert (p | (j - i) * (j + i)) as Hd.
  { apply Z.mod_divide; [lia|].
    replace ((j - i) * (j + i)) with ((h + j ^ 2) - (h + i ^ 2)) by ring.
    rewrite Zminus_mod, Heq, Z.sub_diag. apply Z.mod_0_l. lia. }
  apply Z.divide_prime_mul in Hd; [|assumption].
  destruct Hd as [Hd | Hd]; apply Z.divide_pos_le in Hd; lia.
Qed.

Lemma probe_period (h j c : Z) : c <> 0 -> probe h (j + c) c = probe h j c.
Proof.
  intros Hc. unfold probe.
  replace (h + (j + c) ^ 2) with (h + j ^ 2 + (2 * j + c) * c) by ring.
  now apply Z.mod_add.
Qed.

(** ** The loop of [put] *)

Lemma put_stops_Some {V} (k : string) (e : HashEntry V) :
  put_stops k (Some e) = is_tombstone e || String.eqb (key e) k.
Proof.
  unfold put_stops, holds, is_free.
  destruct (is_tombstone e), (String.eqb (key e) k); reflexivity.
Qed.

Section PutLoop.
Context {V : Type}.
Variables (m : HashMap V) (k : string) (v : object V).
Hypothesis Hcap : 0 < _capacity m.
Hypothesis Hlen : _capacity m <= da_length (_buckets m).

Lemma slot_lookup (j : Z) : exists b, _buckets m !! slot m k j = Some b.
Proof.
  apply lookup_lt_is_Some_2. unfold slot, da_length in *.
  pose proof (probe_range (_hash_function m k) j _ Hcap). lia.
Qed.

Lemma slot_probe (j : Z) :
  Z.of_nat (slot m k j) = probe (_hash_function m k) j (_capacity m).
Proof.
  unfold slot. pose proof (probe_range (_hash_function m k) j _ Hcap). lia.
Qed.

Lemma pymod_probe (j : Z) :
  pymod (_hash_function m k + j ^ 2) (_capacity m) =
  Ret (probe (_hash_function m k) j (_capacity m)).
Proof.
  unfold pymod, probe. destruct (Z.eqb_spec (_capacity m) 0); [lia|reflexivity].
Qed.

Lemma da_get_slot (j : Z) (b : option (HashEntry V)) :
  _buckets m !! slot m k j = Some b ->
  da_get (_buckets m) (probe (_hash_function m k) j (_capacity m)) = Ret b.
Proof.
  intros H. apply da_get_Ret; [|exact H].
  apply (probe_range _ j _ Hcap).
Qed.

Lemma da_set_slot (j : Z) (x : option (HashEntry V)) :
  da_set (_buckets m) (probe (_hash_function m k) j (_capacity m)) x =
  Ret (<[slot m k j := x]> (_buckets m)).
Proof.
  apply da_set_Ret. pose proof (probe_range (_hash_function m k) j _ Hcap). lia.
Qed.

(** One turn of the loop at a slot where it stops. *)
Lemma put_loop_stop (n : nat) (j : Z) (b : option (HashEntry V)) :
  _buckets m !! slot m k j = Some b -> put_stops k b = true ->
  put_loop (S n) k v (_hash_function m k) j
    (probe (_hash_function m k) j (_capacity m)) m
  = Ret (put_at m k v (slot m k j) b).
Proof.
  intros Hb Hs. cbn [put_loop]. rewrite (da_get_slot j b Hb). cbn [bind].
  unfold put_at. destruct b as [e|]; [|now rewrite da_set_slot].
  rewrite put_stops_Some in Hs. cbn [is_free].
  destruct (is_tombstone e) eqn:Ht; cbn in Hs |- *.
  - rewrite da_set_slot. reflexivity.
  - rewrite Hs. rewrite da_set_slot. cbn.
    apply String.eqb_eq in Hs. rewrite Hs, Z.add_0_r.
    unfold set_size, set_buckets, new_HashEntry. cbn. reflexivity.
Qed.

(** One turn of the loop at a slot it passes. *)
Lemma put_loop_pass (n : nat) (j : Z) (b : option (HashEntry V)) :
  _buckets m !! slot m k j = Some b -> put_stops k b = false ->
  put_loop (S n) k v (_hash_function m k) j
    (probe (_hash_function m k) j (_capacity m)) m
  = put_loop n k v (_hash_function m k) (j + 1)
      (probe (_hash_function m k) (j + 1) (_capacity m)) m.
Proof.
  intros Hb Hs. cbn [put_loop]. rewrite (da_get_slot j b Hb). cbn [bind].
  destruct b as [e|]; [|discriminate].
  rewrite put_stops_Some in Hs.
  destruct (is_tombstone e); cbn in Hs; [discriminate|].
  rewrite Hs. cbn zeta. rewrite pymod_probe. reflexivity.
Qed.

(** The loop stops at the first probe whose slot is free or holds the key,
    when there is one within [d] probes. *)
Lemma put_loop_first (d : nat) (count : Z) :
  (exists J b, count <= J <= count + Z.of_nat d /\
               _buckets m !! slot m k J = Some b /\ put_stops k b = true) ->
  exists j b,
    count <= j <= count + Z.of_nat d /\
    _buckets m !! slot m k j = Some b /\ put_stops k b = true /\
    (forall i, count <= i < j ->
       exists b', _buckets m !! slot m k i = Some b' /\ put_stops k b' = false) /\
    forall n, (d < n)%nat ->
      put_loop n k v (_hash_function m k) count
        (probe (_hash_function m k) count (_capacity m)) m
      = Ret (put_at m k v (slot m k j) b).
Proof.
  revert count. induction d as [|d IH]; intros count (J & b & HJ & Hb & Hs).
  - assert (J = count) as -> by lia.
    exists count, b. split; [lia|]. split; [assumption|]. split; [assumption|].
    split; [intros; lia|].
    intros [|n] Hn; [lia|]. now apply put_loop_stop.
  - destruct (slot_lookup count) as [b0 Hb0].
    destruct (put_stops k b0) eqn:Hs0.
    + exists count, b0. split; [lia|]. split; [assumption|]. split; [assumption|].
      split; [intros; lia|].
      intros [|n] Hn; [lia|]. now apply put_loop_stop.
    + destruct (IH (count + 1)) as (j & b1 & Hj & Hb1 & Hs1 & Hpre & Hrun).
      { exists J, b. split; [|split; assumption].
        assert (J <> count) by (intros ->; congruence). lia. }
      exists j, b1. split; [lia|]. split; [assumption|]. split; [assumption|].
      split.
      * intros i Hi. destruct (Z.eq_dec i count) as [-> | Hne].
        -- exists b0. split; assumption.
        -- apply Hpre. lia.
      * intros [|n] Hn; [lia|].
        rewrite (put_loop_pass n count b0 Hb0 Hs0). apply Hrun. lia.
Qed.

End PutLoop.

(** ** The loop of [get] *)

Section GetLoop.
Context {V : Type}.
Variables (m : HashMap V) (k : string).
Hypothesis Hcap : 0 < _capacity m.
Hypothesis Hlen : _capacity m <= da_length (_buckets m).

Lemma get_loop_hit (n : nat) (j : Z) (e : HashEntry V) :
  j <= _capacity m ->
  _buckets m !! slot m k j = Some (Some e) -> holds k (Some e) = true ->
  get_loop (S n) k (_hash_function m k) j
    (probe (_hash_function m k) j (_capacity m)) m = Ret (value e).
Proof.
  intros Hj Hb Hh. cbn [get_loop].
  destruct (Z.leb_spec j (_capacity m)); [|lia].
  rewrite (da_get_slot m k Hcap j _ Hb). cbn [bind].
  cbn in Hh. now rewrite Hh.
Qed.

Lemma get_loop_miss (n : nat) (j : Z) (b : option (HashEntry V)) :
  j <= _capacity m ->
  _buckets m !! slot m k j = Some b -> holds k b = false ->
  get_loop (S n) k (_hash_function m k) j
    (probe (_hash_function m k) j (_capacity m)) m
  = get_loop n k (_hash_function m k) (j + 1)
      (probe (_hash_function m k) (j + 1) (_capacity m)) m.
Proof.
  intros Hj Hb Hh. cbn [get_loop].
  destruct (Z.leb_spec j (_capacity m)); [|lia].
  rewrite (da_get_slot m k Hcap j _ Hb). cbn [bind].
  destruct b as [e|]; cbn in Hh; [rewrite Hh|];
    cbn zeta; rewrite (pymod_probe m k Hcap); reflexivity.
Qed.

Lemma get_loop_end (n : nat) (j i : Z) :
  _capacity m < j ->
  get_loop (S n) k (_hash_function m k) j i m = Ret PyNone.
Proof.
  intros Hj. cbn [get_loop].
  destruct (Z.leb_spec j (_capacity m)); [lia|reflexivity].
Qed.

(** [get] returns the value of the first probed slot that holds the key. *)
Lemma get_loop_first (d : nat) (count : Z) :
  (exists J e, count <= J <= count + Z.of_nat d /\ J <= _capacity m /\
               _buckets m !! slot m k J = Some (Some e) /\
               holds k (Some e) = true) ->
  exists j e,
    count <= j <= count + Z.of_nat d /\ j <= _capacity m /\
    _buckets m !! slot m k j = Some (Some e) /\ holds k (Some e) = true /\
    forall n, (d < n)%nat ->
      get_loop n k (_hash_function m k) count
        (probe (_hash_function m k) count (_capacity m)) m = Ret (value e).
Proof.
  revert count. induction d as [|d IH]; intros count (J & e & HJ & HJc & Hb & Hh).
  - assert (J = count) as -> by lia.
    exists count, e. split; [lia|]. split; [assumption|].
    split; [assumption|]. split; [assumption|].
    intros [|n] Hn; [lia|]. now apply get_loop_hit.
  - destruct (slot_lookup m k Hcap Hlen count) as [b0 Hb0].
    destruct (holds k b0) eqn:Hh0.
    + destruct b0 as [e0|]; [|discriminate].
      exists count, e0. split; [lia|]. split; [lia|].
      split; [assumption|]. split; [assumption|].
      intros [|n] Hn; [lia|]. apply get_loop_hit; [lia|assumption..].
    + destruct (IH (count + 1)) as (j & e1 & Hj & Hjc & Hb1 & Hh1 & Hrun).
      { exists J, e. split; [|split; [assumption|split; assumption]].
        assert (J <> count) by (intros ->; congruence). lia. }
      exists j, e1. split; [lia|]. split; [assumption|].
      split; [assumption|]. split; [assumption|].
      intros [|n] Hn; [lia|].
      rewrite (get_loop_miss n count b0); [|lia|assumption..]. apply Hrun. lia.
Qed.

(** [get] answers [None] when no probed slot holds the key. *)
Lemma get_loop_none (d : nat) (count : Z) :
  _capacity m + 1 <= count + Z.of_nat d ->
  (forall i, count <= i <= _capacity m ->
     exists b, _buckets m !! slot m k i = Some b /\ holds k b = false) ->
  forall n, (d < n)%nat ->
    get_loop n k (_hash_function m k) count
      (probe (_hash_function m k) count (_capacity m)) m = Ret PyNone.
Proof.
  revert count. induction d as [|d IH]; intros count Hd Hall [|n] Hn; try lia.
  - apply get_loop_end. lia.
  - destruct (Z.le_gt_cases count (_capacity m)) as [Hle | Hgt].
    + destruct (Hall count ltac:(lia)) as (b & Hb & Hh).
      rewrite (get_loop_miss n count b); [|assumption..].
      apply IH; [lia| |lia]. intros i Hi. apply Hall. lia.
    + apply get_loop_end. lia.
Qed.

Lemma get_unfold :
  get k m = get_loop (Z.to_nat (_capacity m) + 3) k (_hash_function m k) 0
              (probe (_hash_function m k) 0 (_capacity m)) m.
Proof. unfold get. cbn zeta. now rewrite (pymod_probe m k Hcap). Qed.

(** The two answers of [get]. *)
Lemma get_found (J : Z) (e : HashEntry V) :
  0 <= J <= _capacity m ->
  _buckets m !! slot m k J = Some (Some e) -> holds k (Some e) = true ->
  exists j e', 0 <= j <= J /\ _buckets m !! slot m k j = Some (Some e') /\
               holds k (Some e') = true /\ get k m = Ret (value e').
Proof.
  intros HJ Hb Hh.
  destruct (get_loop_first (Z.to_nat J) 0) as (j & e' & Hj & Hjc & Hb' & Hh' & Hrun).
  { exists J, e. split; [lia|]. split; [lia|]. split; assumption. }
  exists j, e'. split; [lia|]. split; [assumption|]. split; [assumption|].
  rewrite get_unfold. apply Hrun. lia.
Qed.

Lemma get_absent :
  (forall i, 0 <= i <= _capacity m ->
     exists b, _buckets m !! slot m k i = Some b /\ holds k b = false) ->
  get k m = Ret PyNone.
Proof.
  intros Hall. rewrite get_unfold.
  apply (get_loop_none (Z.to_nat (_capacity m) + 1) 0); [lia|assumption|lia].
Qed.

End GetLoop.

(** ** The load factor *)

(** The test [table_load() >= 0.5] of [put]. *)
Lemma table_load_check (s c : Z) :
  0 < c -> Qle_bool (1 # 2) (inject_Z s / inject_Z c) = (c <=? 2 * s).
Proof.
  intros Hc. destruct c as [|p|p]; try lia.
  unfold Qle_bool, Qdiv, Qmult, Qinv, inject_Z. cbn.
  apply eq_true_iff_eq. rewrite !Z.leb_le. lia.
Qed.

Lemma table_load_Ret {V} (m : HashMap V) :
  0 < _capacity m ->
  table_load m = Ret (inject_Z (_size m) / inject_Z (_capacity m))%Q.
Proof.
  intros Hc. unfold table_load.
  destruct (Z.eqb_spec (_capacity m) 0); [lia|reflexivity].
Qed.

(** Below half load [put] goes straight to the probe loop. *)
Lemma put_low_load {V} (n : nat) (k : string) (v : object V) (m : HashMap V) :
  0 < _capacity m -> 2 * _size m < _capacity m ->
  put (S n) k v m = put_probe n k v m.
Proof.
  intros Hc Hl. cbn [put]. rewrite table_load_Ret by assumption. cbn [bind].
  rewrite table_load_check by assumption.
  destruct (Z.leb_spec (_capacity m) (2 * _size m)); [lia|reflexivity].
Qed.

(** At half load or above [put] resizes first. *)
Lemma put_high_load {V} (n : nat) (k : string) (v : object V) (m : HashMap V) :
  0 < _capacity m -> _capacity m <= 2 * _size m ->
  put (S n) k v m =
  let* m' := resize_table_with (put n) n (_capacity m * 2) m in
  put_probe n k v m'.
Proof.
  intros Hc Hl. cbn [put]. rewrite table_load_Ret by assumption. cbn [bind].
  rewrite table_load_check by assumption.
  destruct (Z.leb_spec (_capacity m) (2 * _size m)); [reflexivity|lia].
Qed.

(** ** A free slot on every probe sequence *)

Section FreeProbe.
Context {V : Type}.
Variables (m : HashMap V) (k : string).
Hypothesis Hwf : wf m.

Lemma wf_capacity_ge_2 : 2 <= _capacity m.
Proof. apply Z.prime_ge_2, (wf_prime m Hwf). Qed.

Lemma free_search (n : nat) :
  (forall i, 0 <= i < Z.of_nat n ->
     exists b, _buckets m !! slot m k i = Some b /\ is_free b = false) \/
  (exists J b, 0 <= J < Z.of_nat n /\
     _buckets m !! slot m k J = Some b /\ is_free b = true).
Proof.
  pose proof wf_capacity_ge_2 as H2.
  induction n as [|n [IH | IH]].
  - left. intros; lia.
  - destruct (slot_lookup m k ltac:(lia) (wf_length m Hwf) (Z.of_nat n)) as [b Hb].
    destruct (is_free b) eqn:Hf.
    + right. exists (Z.of_nat n), b. split; [lia|]. split; assumption.
    + left. intros i Hi. destruct (Z.eq_dec i (Z.of_nat n)) as [-> | Hne].
      * exists b. split; assumption.
      * apply IH. lia.
  - right. destruct IH as (J & b & HJ & Hb & Hf). exists J, b.
    split; [lia|]. split; assumption.
Qed.

(** Below half load, one of the first [capacity / 2 + 1] probes of any key
    finds a slot that is Empty or Tombstoned. *)
Lemma free_probe :
  2 * _size m < _capacity m ->
  exists J b, 0 <= J /\ 2 * J <= _capacity m /\
    _buckets m !! slot m k J = Some b /\ is_free b = true.
Proof.
  intros Hload. pose proof wf_capacity_ge_2 as H2.
  set (n := Z.to_nat (_capacity m / 2 + 1)).
  pose proof (Z.div_mod (_capacity m) 2 ltac:(lia)) as Hdm.
  pose proof (Z.mod_pos_bound (_capacity m) 2 ltac:(lia)) as Hmb.
  destruct (free_search n) as [Hall | (J & b & HJ & Hb & Hf)].
  - exfalso.
    pose proof (count_live_NoDup (_buckets m)
                  ((fun i => slot m k (Z.of_nat i)) <$> seq 0 n)) as Hph.
    rewrite length_fmap, length_seq in Hph.
    rewrite <- (wf_size m Hwf) in Hph.
    enough (Z.of_nat n <= _size m) by lia.
    apply Hph.
    + apply NoDup_fmap_2_strong; [|apply NoDup_seq].
      intros x y Hx Hy Heq. apply elem_of_seq in Hx, Hy.
      apply (f_equal Z.of_nat) in Heq.
      rewrite !(slot_probe m k ltac:(lia)) in Heq.
      destruct (Nat.lt_trichotomy x y) as [Hlt | [-> | Hgt]]; [exfalso| reflexivity |exfalso].
      * apply (probe_inj (_hash_function m k) (Z.of_nat x) (Z.of_nat y) (_capacity m));
          [apply (wf_prime m Hwf)|lia|lia|assumption].
      * apply (probe_inj (_hash_function m k) (Z.of_nat y) (Z.of_nat x) (_capacity m));
          [apply (wf_prime m Hwf)|lia|lia|now symmetry].
    + intros i Hi. apply list_elem_of_fmap in Hi. destruct Hi as (x & -> & Hx).
      apply elem_of_seq in Hx.
      destruct (Hall (Z.of_nat x) ltac:(lia)) as (b & Hb & Hf).
      exists b. split; [assumption|]. unfold is_live. now rewrite Hf.
  - exists J, b. split; [lia|]. split; [lia|]. split; assumption.
Qed.

End FreeProbe.

(** ** [put] below half load *)

Section PutProbe.
Context {V : Type}.
Variables (m : HashMap V) (k : string) (v : object V).
Hypothesis Hwf : wf m.
Hypothesis Hload : 2 * _size m < _capacity m.

(** The probe loop of [put] returns: it stops at the first probe whose slot
    is free or holds the key, among the first [capacity / 2 + 1]. *)
Lemma put_probe_spec :
  exists j b,
    0 <= j /\ 2 * j <= _capacity m /\
    _buckets m !! slot m k j = Some b /\ put_stops k b = true /\
    (forall i, 0 <= i < j ->
       exists b', _buckets m !! slot m k i = Some b' /\ put_stops k b' = false) /\
    forall n, (Z.to_nat (_capacity m) < n)%nat ->
      put_probe n k v m = Ret (put_at m k v (slot m k j) b).
Proof.
  pose proof (wf_capacity_ge_2 m Hwf) as H2.
  destruct (free_probe m k Hwf Hload) as (J & b & HJ0 & HJ & Hb & Hf).
  destruct (put_loop_first m k v ltac:(lia) (wf_length m Hwf) (Z.to_nat J) 0)
    as (j & b' & Hj & Hb' & Hs & Hpre & Hrun).
  { exists J, b. split; [lia|]. split; [assumption|].
    unfold put_stops. now rewrite Hf. }
  exists j, b'. split; [lia|]. split; [lia|]. split; [assumption|].
  split; [assumption|]. split; [assumption|].
  intros n Hn. unfold put_probe. cbn zeta.
  rewrite (pymod_probe m k ltac:(lia)). cbn [bind]. apply Hrun. lia.
Qed.

(** The table it returns keeps the invariant. *)
Lemma put_at_wf (j : Z) (b : option (HashEntry V)) :
  0 <= j <= _capacity m ->
  _buckets m !! slot m k j = Some b ->
  wf (put_at m k v (slot m k j) b).
Proof.
  intros Hj Hb. pose proof (wf_capacity_ge_2 m Hwf) as H2.
  pose proof (probe_range (_hash_function m k) j (_capacity m) ltac:(lia)) as Hr.
  pose proof (slot_probe m k ltac:(lia) j) as Hsp.
  constructor; cbn.
  - apply (wf_prime m Hwf).
  - unfold da_length. rewrite length_insert. apply (wf_length m Hwf).
  - intros i b' Hl Hi. rewrite list_lookup_insert_ne in Hl by lia.
    now apply (wf_tail m Hwf i).
  - rewrite (count_live_insert _ _ b _ Hb), (wf_size m Hwf).
    unfold is_live. cbn. destruct (is_free b); cbn; lia.
  - destruct (is_free b); lia.
  - intros i e Hl Ht.
    destruct (Nat.eq_dec (slot m k j) i) as [<- | Hne].
    + rewrite list_lookup_insert_eq in Hl by (now apply lookup_lt_Some in Hb).
      injection Hl as <-. cbn. exists j. split; [lia|exact Hsp].
    + rewrite list_lookup_insert_ne in Hl by assumption.
      now apply (wf_probe m Hwf).
Qed.

(** [get] finds in it the value just put. *)
Lemma get_put_at (j : Z) (b : option (HashEntry V)) :
  0 <= j <= _capacity m ->
  _buckets m !! slot m k j = Some b -> put_stops k b = true ->
  (forall i, 0 <= i < j ->
     exists b', _buckets m !! slot m k i = Some b' /\ put_stops k b' = false) ->
  get k (put_at m k v (slot m k j) b) = Ret v.
Proof.
  intros Hj Hb Hs Hpre. pose proof (wf_capacity_ge_2 m Hwf) as H2.
  set (m' := put_at m k v (slot m k j) b).
  assert (forall i, slot m' k i = slot m k i) as Hslot by reflexivity.
  assert (_capacity m <= da_length (_buckets m')) as Hlen'.
  { unfold m', put_at, da_length. cbn. rewrite length_insert. apply (wf_length m Hwf). }
  destruct (get_found m' k ltac:(cbn; lia) Hlen' j (new_HashEntry k v))
    as (j' & e' & Hj' & Hb' & Hh' & Hget).
  - cbn. lia.
  - rewrite Hslot. unfold m', put_at. cbn.
    apply list_lookup_insert_eq. now apply lookup_lt_Some in Hb.
  - cbn. now rewrite String.eqb_refl.
  - rewrite Hget. f_equal.
    destruct (Z.eq_dec j' j) as [-> | Hne].
    + rewrite Hslot in Hb'. unfold m', put_at in Hb'. cbn in Hb'.
      rewrite list_lookup_insert_eq in Hb' by (now apply lookup_lt_Some in Hb).
      now injection Hb' as <-.
    + exfalso. destruct (Hpre j' ltac:(lia)) as (b0 & Hb0 & Hs0).
      rewrite Hslot in Hb'. unfold m', put_at in Hb'. cbn in Hb'.
      destruct (Nat.eq_dec (slot m k j) (slot m k j')) as [Heq | Hneq].
      * rewrite <- Heq in Hb0. congruence.
      * rewrite list_lookup_insert_ne in Hb' by assumption.
        assert (b0 = Some e') as -> by congruence.
        unfold put_stops in Hs0. rewrite Hh' in Hs0.
        now rewrite orb_true_r in Hs0.
Qed.

End PutProbe.

(** ** Construction and [clear] *)

Lemma blank_wf {V} (m : HashMap V) (c : Z) : Z.prime c -> wf (blank m c).
Proof.
  intros Hp. pose proof (Z.prime_ge_2 c Hp) as H2.
  constructor; cbn.
  - assumption.
  - unfold da_length. rewrite length_replicate. lia.
  - intros i b Hl _. apply lookup_replicate in Hl. tauto.
  - now rewrite count_live_replicate.
  - lia.
  - intros i e Hl _. apply lookup_replicate in Hl. destruct Hl; discriminate.
Qed.

(** The constructor returns, for a non-negative capacity, an empty table
    whose capacity is a prime not below the request. *)
Lemma __init___ev {V} (c : Z) (h : string -> Z) :
  0 <= c ->
  exists r, ev (fun n => __init__ (V:=V) n c h)
               (mkHashMap (replicate (Z.to_nat r) None) r h 0 None) /\
            c <= r /\ Z.prime r /\ (c mod 2 = 1 -> Z.prime c -> r = c).
Proof.
  intros Hc. destruct (_next_prime_prime c Hc) as (r & [N HN] & Hle & _ & Hp & Hsame).
  exists r. split; [|auto]. exists N. intros n Hn. unfold __init__.
  rewrite HN by assumption. cbn. now rewrite append_loop_range.
Qed.

Lemma __init___wf {V} (n : nat) (c : Z) (h : string -> Z) (m : HashMap V) :
  0 <= c -> __init__ n c h = Ret m ->
  wf m /\ c <= _capacity m /\ _size m = 0.
Proof.
  intros Hc Hm. destruct (__init___ev (V:=V) c h Hc) as (r & Hev & Hle & Hp & _).
  pose proof (ev_unique _ _ _ n (fun a b => __init___mono a b c h) Hev Hm) as ->.
  split; [|split; [assumption|reflexivity]].
  apply (blank_wf (mkHashMap [] 0 h 0 None) r Hp).
Qed.

(** [clear] returns an empty table of the same capacity. *)
Lemma clear_ev {V} (m : HashMap V) :
  wf m ->
  exists r, ev (fun n => clear n m)
               (set_size (set_buckets m (replicate (Z.to_nat r) None)) 0) /\
            _capacity m <= r.
Proof.
  intros Hwf. pose proof (wf_capacity_ge_2 m Hwf) as H2.
  destruct (__init___ev (V:=V) (_capacity m) (_hash_function m) ltac:(lia))
    as (r & [N HN] & Hle & _).
  exists r. split; [|assumption]. exists N. intros n Hn. unfold clear.
  rewrite HN by assumption. reflexivity.
Qed.

Lemma cleared_wf {V} (m : HashMap V) (r : Z) :
  wf m -> _capacity m <= r ->
  wf (set_size (set_buckets m (replicate (Z.to_nat r) None)) 0).
Proof.
  intros Hwf Hr. pose proof (wf_capacity_ge_2 m Hwf) as H2.
  constructor; cbn.
  - apply (wf_prime m Hwf).
  - unfold da_length. rewrite length_replicate. lia.
  - intros i b Hl _. apply lookup_replicate in Hl. tauto.
  - now rewrite count_live_replicate.
  - lia.
  - intros i e Hl _. apply lookup_replicate in Hl. destruct Hl; discriminate.
Qed.

(** ** The loops of [resize_table] *)

(** The capacity [resize_table] settles on: the request when [_is_prime]
    accepts it, else the next prime. *)
Lemma resize_capacity_ev (c : Z) :
  0 <= c ->
  exists r, ev (fun n => let* p := _is_prime c in
                         if negb p then _next_prime n c else Ret c) r /\
            c <= r /\ Z.prime r /\ (c mod 2 = 0 -> 2 < c -> c < r).
Proof.
  intros Hc. destruct (_is_prime_total c) as [[|] Hb].
  - exists c. split; [|split; [lia|split]].
    + exists 0%nat. intros n _. now rewrite Hb.
    + now apply _is_prime_sound.
    + intros He H2. apply _is_prime_sound in Hb; [|assumption].
      pose proof (prime_odd c Hb H2). lia.
  - destruct (_next_prime_prime c Hc) as (r & [N HN] & Hle & Hodd & Hp & _).
    exists r. split; [|split; [assumption|split; [assumption|]]].
    + exists N. intros n Hn. rewrite Hb. cbn. now apply HN.
    + intros He _. assert (r <> c) by (intros ->; lia). lia.
Qed.

(** The [for] loop over the old slots is the recursion [reinsert]. *)
Lemma for_loop_reinsert {V}
  (P : string -> object V -> HashMap V -> outcome (HashMap V))
  (old : list (option (HashEntry V))) (n a : nat) (t : HashMap V) :
  (a + n <= length old)%nat ->
  for_loop (map Z.of_nat (seq a n))
    (fun idx m =>
       let* b := da_get old idx in
       match b with
       | Some bucket =>
           if is_tombstone bucket then Ret m
           else P (key bucket) (value bucket) m
       | None => Ret m
       end) t
  = reinsert P (take n (drop a old)) t.
Proof.
  revert a t. induction n as [|n IH]; intros a t Hlen; [reflexivity|].
  destruct (lookup_lt_is_Some_2 old a ltac:(lia)) as [b Hb].
  rewrite (drop_S _ _ _ Hb). cbn [seq map for_loop take reinsert].
  rewrite (da_get_Ret old (Z.of_nat a) b); [|lia|now rewrite Nat2Z.id].
  cbn [bind]. destruct (match b with Some _ => _ | None => _ end); cbn [bind];
    try reflexivity.
  apply IH. lia.
Qed.

(** [resize_table] with a capacity not below the size: with enough fuel it
    re-inserts the old slots into a blank table of a prime capacity. *)
Lemma resize_table_with_start {V} (m : HashMap V) (c : Z) :
  wf m -> _size m <= c ->
  exists r N, c <= r /\ Z.prime r /\ (c mod 2 = 0 -> 2 < c -> c < r) /\
    forall n P, (N <= n)%nat ->
      resize_table_with P n c m =
      reinsert P (take (Z.to_nat (_capacity m)) (_buckets m)) (blank m r).
Proof.
  intros Hwf Hc. pose proof (wf_capacity_ge_2 m Hwf) as H2.
  pose proof (count_live_bounds (_buckets m)) as Hcl.
  rewrite <- (wf_size m Hwf) in Hcl.
  destruct (resize_capacity_ev c ltac:(lia)) as (r & [N1 HN1] & Hle & Hp & Hev).
  destruct (clear_ev m Hwf) as (r0 & [N2 HN2] & Hr0).
  exists r, (Nat.max N1 N2). split; [assumption|]. split; [assumption|].
  split; [assumption|]. intros n P Hn. unfold resize_table_with.
  destruct (Z.ltb_spec c (_size m)); [lia|].
  destruct (_is_prime c) as [p| |]; cbn [bind] in *;
    try (specialize (HN1 n ltac:(lia)); discriminate).
  rewrite HN1 by lia. cbn [bind]. rewrite HN2 by lia. cbn [bind].
  rewrite append_loop_range. unfold range.
  rewrite for_loop_reinsert.
  - rewrite drop_0. reflexivity.
  - pose proof (wf_length m Hwf). unfold da_length in *. lia.
Qed.

(** ** The Occupied entries *)

Lemma live_entries_app {V} (a b : list (option (HashEntry V))) :
  live_entries (a ++ b) = (live_entries a ++ live_entries b)%list.
Proof.
  induction a as [|[e|] a IH]; cbn; [reflexivity| |assumption].
  destruct (is_tombstone e); cbn; [assumption|now rewrite IH].
Qed.

Lemma length_live_entries {V} (bs : list (option (HashEntry V))) :
  Z.of_nat (length (live_entries bs)) = count_live bs.
Proof.
  induction bs as [|[e|] bs IH]; cbn; [reflexivity| |assumption].
  unfold is_live. cbn. destruct (is_tombstone e); cbn [negb length]; lia.
Qed.

Lemma elem_of_live_entries {V} (bs : list (option (HashEntry V))) (e : HashEntry V) :
  e ∈ live_entries bs <->
  exists i, bs !! i = Some (Some e) /\ is_tombstone e = false.
Proof.
  induction bs as [|b bs IH]; cbn.
  - split; [intros H; inversion H|intros (i & H & _); discriminate].
  - assert ((exists i, (b :: bs) !! i = Some (Some e) /\ is_tombstone e = false) <->
            (b = Some e /\ is_tombstone e = false) \/
            (exists i, bs !! i = Some (Some e) /\ is_tombstone e = false)) as ->.
    { split.
      - intros ([|i] & H & Ht); cbn in H.
        + left. split; congruence.
        + right. now exists i.
      - intros [[-> Ht] | (i & H & Ht)]; [now exists 0%nat|now exists (S i)]. }
    rewrite <- IH. destruct b as [e0|].
    + destruct (is_tombstone e0) eqn:Ht0.
      * split; [now right|]. intros [[[= ->] Ht]|]; [congruence|assumption].
      * rewrite elem_of_cons. split.
        -- intros [-> | H]; [now left|now right].
        -- intros [[[= ->] _] | H]; [now left|now right].
    + split; [now right|]. intros [[? _]|]; [discriminate|assumption].
Qed.

Lemma live_entries_all_None {V} (bs : list (option (HashEntry V))) :
  (forall i b, bs !! i = Some b -> b = None) -> live_entries bs = [].
Proof.
  induction bs as [|b bs IH]; intros H; [reflexivity|].
  rewrite (H 0%nat b eq_refl). cbn. apply IH. intros i. apply (H (S i)).
Qed.

(** In a table that keeps the invariant the first [capacity] slots hold all
    the Occupied entries. *)
Lemma live_entries_take {V} (m : HashMap V) :
  wf m ->
  live_entries (take (Z.to_nat (_capacity m)) (_buckets m)) = live_entries (_buckets m).
Proof.
  intros Hwf.
  rewrite <- (take_drop (Z.to_nat (_capacity m)) (_buckets m)) at 2.
  rewrite live_entries_app, (live_entries_all_None (drop _ _)), app_nil_r; [reflexivity|].
  intros i b Hl. rewrite lookup_drop in Hl.
  apply (wf_tail m Hwf _ _ Hl). pose proof (wf_capacity_ge_2 m Hwf). lia.
Qed.

Lemma live_in_entries {V} (m : HashMap V) (k : string) (v : object V) :
  live_in m k v <->
  exists e, e ∈ live_entries (_buckets m) /\ key e = k /\ value e = v.
Proof.
  unfold live_in. split.
  - intros (i & e & Hl & Ht & Hk & Hv). exists e.
    split; [|split; assumption]. apply elem_of_live_entries. now exists i.
  - intros (e & He & Hk & Hv). apply elem_of_live_entries in He.
    destruct He as (i & Hl & Ht). now exists i, e.
Qed.

(** Induction over the re-insertion loop: an invariant [J] of the entries
    re-inserted so far and the table, kept by each call of [put]. *)
Lemma reinsert_ev {V}
  (Pn : nat -> string -> object V -> HashMap V -> outcome (HashMap V))
  (J : list (HashEntry V) -> HashMap V -> Prop)
  (old : list (option (HashEntry V))) :
  (forall pre e rest t,
     live_entries old = (pre ++ e :: rest)%list -> J pre t ->
     exists t', ev (fun n => Pn n (key e) (value e) t) t' /\ J (pre ++ [e])%list t') ->
  forall t, J [] t ->
  exists t', ev (fun n => reinsert (Pn n) old t) t' /\ J (live_entries old) t'.
Proof.
  intros Hstep.
  enough (forall l2 l1 t, old = (l1 ++ l2)%list -> J (live_entries l1) t ->
            exists t', ev (fun n => reinsert (Pn n) l2 t) t' /\
                       J (live_entries old) t') as H.
  { intros t Ht. now apply (H old [] t). }
  induction l2 as [|b l2 IH]; intros l1 t Hold HJ.
  - exists t. split; [apply ev_ret|]. rewrite Hold, app_nil_r. assumption.
  - assert (old = ((l1 ++ [b]) ++ l2)%list) as Hold'
        by (now rewrite <- app_assoc).
    assert (forall n, reinsert (Pn n) (b :: l2) t =
              let* t' := match b with
                         | Some e => if is_tombstone e then Ret t
                                     else Pn n (key e) (value e) t
                         | None => Ret t
                         end in reinsert (Pn n) l2 t') as Hunf by reflexivity.
    destruct b as [e|].
    + destruct (is_tombstone e) eqn:Ht.
      * destruct (IH (l1 ++ [Some e])%list t Hold') as (t' & [N HN] & HJ').
        { rewrite live_entries_app. cbn. rewrite Ht, app_nil_r. assumption. }
        exists t'. split; [|assumption].
        exists N. intros n Hn. rewrite Hunf. cbn [bind]. now apply HN.
      * destruct (Hstep (live_entries l1) e (live_entries l2) t) as (t1 & Hev1 & HJ1).
        { rewrite Hold, live_entries_app. cbn. now rewrite Ht. }
        { assumption. }
        destruct (IH (l1 ++ [Some e])%list t1 Hold') as (t' & Hev' & HJ').
        { rewrite live_entries_app. cbn. now rewrite Ht. }
        exists t'. split; [|assumption].
        destruct Hev1 as [N1 HN1], Hev' as [N2 HN2].
        exists (Nat.max N1 N2). intros n Hn. rewrite Hunf.
        rewrite HN1 by lia. cbn [bind]. apply HN2. lia.
    + destruct (IH (l1 ++ [None])%list t Hold') as (t' & [N HN] & HJ').
      { rewrite live_entries_app. cbn. rewrite app_nil_r. assumption. }
      exists t'. split; [|assumption].
      exists N. intros n Hn. rewrite Hunf. cbn [bind]. now apply HN.
Qed.

(** ** The content after [put] *)

Lemma holds_live_in {V} (m : HashMap V) (k : string) (i : nat) (e : HashEntry V) :
  _buckets m !! i = Some (Some e) -> holds k (Some e) = true ->
  live_in m k (value e).
Proof.
  intros Hl Hh. cbn in Hh. apply andb_true_iff in Hh. destruct Hh as [Hk Ht].
  apply String.eqb_eq in Hk. apply negb_true_iff in Ht. now exists i, e.
Qed.

(** Putting a key that is not live adds its pair to the content. *)
Lemma put_at_grows {V} (m : HashMap V) (k : string) (v : object V) (idx : nat)
  (b : option (HashEntry V)) :
  _buckets m !! idx = Some b -> put_stops k b = true ->
  grows m k v (put_at m k v idx b).
Proof.
  intros Hb Hs Hu Hfresh.
  pose proof (lookup_lt_Some _ _ _ Hb) as Hlt.
  assert (is_free b = true) as Hf.
  { unfold put_stops in Hs. apply orb_true_iff in Hs. destruct Hs as [|Hh]; [assumption|].
    destruct b as [e|]; [|reflexivity].
    exfalso. apply (Hfresh (value e)). now apply (holds_live_in m k idx e). }
  assert (forall i e, <[idx := Some (new_HashEntry k v)]> (_buckets m) !! i = Some (Some e) ->
            is_tombstone e = false ->
            (i = idx /\ e = new_HashEntry k v) \/
            (i <> idx /\ _buckets m !! i = Some (Some e))) as Hcases.
  { intros i e Hl Ht. destruct (Nat.eq_dec idx i) as [<- | Hne].
    - rewrite list_lookup_insert_eq in Hl by assumption. left. split; congruence.
    - rewrite list_lookup_insert_ne in Hl by assumption. right. split; [congruence|assumption]. }
  split.
  - intros i i' e1 e2 H1 H2 Ht1 Ht2 Hk. cbn in H1, H2.
    destruct (Hcases i e1 H1 Ht1) as [[-> ->] | [Hn1 Ho1]];
      destruct (Hcases i' e2 H2 Ht2) as [[-> ->] | [Hn2 Ho2]].
    + reflexivity.
    + exfalso. apply (Hfresh (value e2)). exists i', e2. cbn in Hk. auto.
    + exfalso. apply (Hfresh (value e1)). exists i, e1. cbn in Hk. auto.
    + apply (Hu i i' e1 e2); assumption.
  - intros k' v'. split.
    + intros (i & e & Hl & Ht & Hk & Hv). cbn in Hl.
      destruct (Hcases i e Hl Ht) as [[-> ->] | [Hn Ho]].
      * right. cbn in Hk, Hv. auto.
      * left. now exists i, e.
    + intros [(i & e & Hl & Ht & Hk & Hv) | [-> ->]].
      * exists i, e. split; [|auto]. cbn.
        rewrite list_lookup_insert_ne; [assumption|].
        intros ->. rewrite Hb in Hl. injection Hl as ->.
        cbn in Hf. congruence.
      * exists idx, (new_HashEntry k v). split; [|auto]. cbn.
        now apply list_lookup_insert_eq.
Qed.

(** The probe loop of [put] on a table below half load. *)
Lemma put_probe_ok {V} (m : HashMap V) (k : string) (v : object V) :
  wf m -> 2 * _size m < _capacity m ->
  exists m',
    (forall n, (Z.to_nat (_capacity m) < n)%nat -> put_probe n k v m = Ret m') /\
    wf m' /\ frame m m' /\ _capacity m' = _capacity m /\
    _size m <= _size m' <= _size m + 1 /\
    get k m' = Ret v /\ grows m k v m' /\
    (exists i, _buckets m' !! i = Some (Some (new_HashEntry k v))).
Proof.
  intros Hwf Hload.
  destruct (put_probe_spec m k v Hwf Hload) as (j & b & Hj0 & Hj & Hb & Hs & Hpre & Hrun).
  pose proof (wf_capacity_ge_2 m Hwf) as H2.
  exists (put_at m k v (slot m k j) b).
  split; [assumption|]. split; [apply put_at_wf; [assumption|assumption|lia|assumption]|].
  split; [now split|]. split; [reflexivity|]. split; [cbn; destruct (is_free b); lia|].
  split; [apply get_put_at; [assumption|lia|assumption..]|].
  split; [now apply put_at_grows|].
  exists (slot m k j). cbn. apply list_lookup_insert_eq. now apply lookup_lt_Some in Hb.
Qed.

(** ** The content through the re-insertion loop *)

Lemma content_is_blank {V} (m : HashMap V) (r : Z) : content_is [] (blank m r).
Proof.
  split.
  - intros i j e1 e2 H1. cbn in H1. apply lookup_replicate in H1.
    destruct H1; discriminate.
  - intros k v. split.
    + intros (i & e & Hl & _). cbn in Hl. apply lookup_replicate in Hl.
      destruct Hl; discriminate.
    + intros (e & He & _). inversion He.
Qed.

Lemma content_step {V} (pre rest : list (HashEntry V)) (e : HashEntry V)
  (t t' : HashMap V) :
  NoDup (key <$> (pre ++ e :: rest)%list) ->
  content_is pre t -> grows t (key e) (value e) t' ->
  content_is (pre ++ [e])%list t'.
Proof.
  intros Hnd [Hu Hc] Hg.
  destruct Hg as [Hu' Hc']; [assumption| |].
  - intros v0 Hl. apply Hc in Hl. destruct Hl as (e' & He' & Hk & _).
    rewrite fmap_app, fmap_cons in Hnd. apply NoDup_app in Hnd.
    destruct Hnd as (_ & Hdis & _). apply (Hdis (key e)).
    + rewrite <- Hk. now apply list_elem_of_fmap_2.
    + left.
  - split; [assumption|]. intros k v. rewrite Hc', Hc. split.
    + intros [(e' & He' & Hk & Hv) | [-> ->]].
      * exists e'. split; [|auto]. apply elem_of_app. now left.
      * exists e. split; [|auto]. apply elem_of_app. right. left.
    + intros (e' & He' & Hk & Hv). apply elem_of_app in He'.
      destruct He' as [He' | He'].
      * left. now exists e'.
      * apply list_elem_of_singleton in He'. subst e'. right. auto.
Qed.

Lemma unique_keys_NoDup {V} (bs : list (option (HashEntry V))) :
  (forall i j e1 e2,
     bs !! i = Some (Some e1) -> bs !! j = Some (Some e2) ->
     is_tombstone e1 = false -> is_tombstone e2 = false ->
     key e1 = key e2 -> i = j) ->
  NoDup (key <$> live_entries bs).
Proof.
  induction bs as [|b bs IH]; intros Hu; [constructor|].
  assert (NoDup (key <$> live_entries bs)) as Hnd.
  { apply IH. intros i j e1 e2 H1 H2 Ht1 Ht2 Hk.
    assert (S i = S j) by (apply (Hu (S i) (S j) e1 e2); assumption). lia. }
  destruct b as [e|]; cbn; [|assumption].
  destruct (is_tombstone e) eqn:Ht; [assumption|].
  rewrite fmap_cons. constructor; [|assumption].
  intros Hin. apply list_elem_of_fmap in Hin. destruct Hin as (e' & Hk & He').
  apply elem_of_live_entries in He'. destruct He' as (i & Hl & Ht').
  assert (0%nat = S i) by (apply (Hu 0%nat (S i) e e'); auto). lia.
Qed.

(** The content is the list of the Occupied entries. *)
Lemma content_is_same {V} (m m' : HashMap V) :
  (unique_keys m -> content_is (live_entries (_buckets m)) m') ->
  same_content m m'.
Proof.
  intros H Hu. destruct (H Hu) as [Hu' Hc]. split; [assumption|].
  intros k v. rewrite Hc. symmetry. apply live_in_entries.
Qed.

(** ** [resize_table] and [put] return *)

(** The resize that [put] starts: doubling the capacity re-inserts every
    entry without a further resize, and leaves the load below 0.5. *)
Lemma resize_double_ok {V} (m : HashMap V) :
  wf m ->
  exists m',
    ev (fun n => resize_table_with (put n) n (_capacity m * 2) m) m' /\
    wf m' /\ frame m m' /\ 2 * _size m' < _capacity m' /\
    2 * _capacity m < _capacity m' /\ same_content m m'.
Proof.
  intros Hwf. pose proof (wf_capacity_ge_2 m Hwf) as H2.
  pose proof (count_live_bounds (take (Z.to_nat (_capacity m)) (_buckets m))) as Hcl.
  rewrite <- length_live_entries, live_entries_take, length_live_entries in Hcl
    by assumption.
  rewrite <- (wf_size m Hwf), length_take in Hcl.
  destruct (resize_table_with_start m (_capacity m * 2) Hwf ltac:(lia))
    as (r & N & Hle & Hp & Hev & Hstart).
  specialize (Hev ltac:(rewrite Z.mod_mul; lia) ltac:(lia)).
  set (old := take (Z.to_nat (_capacity m)) (_buckets m)) in *.
  assert (Z.of_nat (length (live_entries old)) = _size m) as Hlive.
  { subst old. rewrite live_entries_take by assumption.
    rewrite length_live_entries. symmetry. apply (wf_size m Hwf). }
  destruct (reinsert_ev put
    (fun pre t => wf t /\ frame m t /\ _capacity t = r /\
                  _size t <= Z.of_nat (length pre) /\
                  (unique_keys m -> content_is pre t)) old) with (t := blank m r)
    as (m' & Hev' & HJ).
  - intros pre e rest t Hsplit (Hwt & Hfr & Hct & Hst & Hcont).
    assert (Z.of_nat (length pre) < _size m) as Hpre.
    { rewrite <- Hlive, Hsplit, length_app. cbn [length]. lia. }
    destruct (put_probe_ok t (key e) (value e) Hwt ltac:(lia))
      as (t' & Hrun & Hwt' & [Hh Hi] & Hct' & Hst' & _ & Hg & _).
    exists t'. split.
    + exists (S (S (Z.to_nat (_capacity t)))). intros [|n] Hn; [lia|].
      rewrite put_low_load by lia. apply Hrun. lia.
    + split; [assumption|]. split.
      { destruct Hfr as [Hfh Hfi]. split; congruence. }
      split; [congruence|]. split; [rewrite length_app; cbn [length]; lia|].
      intros Hu. apply (content_step pre rest e t t'); [|auto|assumption].
      rewrite <- Hsplit. subst old. rewrite live_entries_take by assumption.
      apply unique_keys_NoDup, Hu.
  - split; [now apply blank_wf|]. split; [now split|]. split; [reflexivity|].
    split; [cbn; lia|]. intros _. apply content_is_blank.
  - destruct HJ as (Hwm' & Hfr & Hcm' & Hsm' & Hcont).
    exists m'. split; [|split; [assumption|split; [assumption|]]].
    + destruct Hev' as [N' HN']. exists (Nat.max N N'). intros n Hn.
      rewrite Hstart by lia. apply HN'. lia.
    + split; [lia|]. split; [lia|].
      apply content_is_same. subst old.
      rewrite live_entries_take in Hcont by assumption. assumption.
Qed.

(** [put] returns on every table that keeps the invariant. *)
Lemma put_ok {V} (m : HashMap V) (k : string) (v : object V) :
  wf m ->
  exists m',
    ev (fun n => put n k v m) m' /\
    wf m' /\ frame m m' /\ _capacity m <= _capacity m' /\
    get k m' = Ret v /\ grows m k v m' /\
    (exists i, _buckets m' !! i = Some (Some (new_HashEntry k v))).
Proof.
  intros Hwf. pose proof (wf_capacity_ge_2 m Hwf) as H2.
  destruct (Z.lt_ge_cases (2 * _size m) (_capacity m)) as [Hlow | Hhigh].
  - destruct (put_probe_ok m k v Hwf Hlow)
      as (m' & Hrun & Hwf' & Hfr & Hc & _ & Hget & Hg & Hslot).
    exists m'. split; [|split; [assumption|split; [assumption|]]].
    + exists (S (S (Z.to_nat (_capacity m)))). intros [|n] Hn; [lia|].
      rewrite put_low_load by lia. apply Hrun. lia.
    + split; [lia|]. split; [assumption|]. split; assumption.
  - destruct (resize_double_ok m Hwf)
      as (m1 & [N1 HN1] & Hwf1 & [Hh1 Hi1] & Hl1 & Hc1 & Hsame).
    destruct (put_probe_ok m1 k v Hwf1 Hl1)
      as (m' & Hrun & Hwf' & [Hh' Hi'] & Hc & _ & Hget & Hg & Hslot).
    exists m'. split; [|split; [assumption|split; [split; congruence|]]].
    + exists (S (Nat.max N1 (S (Z.to_nat (_capacity m1))))).
      intros [|n] Hn; [lia|].
      rewrite put_high_load by lia. cbn zeta. rewrite HN1 by lia. cbn [bind].
      apply Hrun. lia.
    + split; [lia|]. split; [assumption|]. split; [|assumption].
      intros Hu Hfresh. destruct (Hsame Hu) as [Hu1 Hc1'].
      destruct Hg as [Hu' Hc']; [assumption| |].
      * intros v0 Hl. apply (Hfresh v0). now apply Hc1'.
      * split; [assumption|]. intros k' v'. rewrite Hc', Hc1'. reflexivity.
Qed.

(** [resize_table] returns on every table that keeps the invariant, for
    every capacity not below the size. *)
Lemma resize_table_ok {V} (m : HashMap V) (c : Z) :
  wf m -> _size m <= c ->
  exists m',
    ev (fun n => resize_table n c m) m' /\
    wf m' /\ frame m m' /\ c <= _capacity m' /\ same_content m m'.
Proof.
  intros Hwf Hc.
  destruct (resize_table_with_start m c Hwf Hc) as (r & N & Hle & Hp & _ & Hstart).
  set (old := take (Z.to_nat (_capacity m)) (_buckets m)) in *.
  destruct (reinsert_ev put
    (fun pre t => wf t /\ frame m t /\ r <= _capacity t /\
                  (unique_keys m -> content_is pre t)) old) with (t := blank m r)
    as (m' & Hev' & HJ).
  - intros pre e rest t Hsplit (Hwt & [Hfh Hfi] & Hct & Hcont).
    destruct (put_ok t (key e) (value e) Hwt)
      as (t' & Hev & Hwt' & [Hh Hi] & Hct' & _ & Hg & _).
    exists t'. split; [assumption|]. split; [assumption|].
    split; [split; congruence|]. split; [lia|].
    intros Hu. apply (content_step pre rest e t t'); [|auto|assumption].
    rewrite <- Hsplit. subst old. rewrite live_entries_take by assumption.
    apply unique_keys_NoDup, Hu.
  - split; [now apply blank_wf|]. split; [now split|]. split; [cbn; lia|].
    intros _. apply content_is_blank.
  - destruct HJ as (Hwm' & Hfr & Hcm' & Hcont).
    exists m'. split; [|split; [assumption|split; [assumption|]]].
    + destruct Hev' as [N' HN']. exists (Nat.max N N'). intros n Hn.
      unfold resize_table. rewrite Hstart by lia. apply HN'. lia.
    + split; [lia|]. apply content_is_same. subst old.
      rewrite live_entries_take in Hcont by assumption. assumption.
Qed.

(** ** The loop of [remove] *)

Lemma bounded_search (P : Z -> bool) (n : nat) :
  (forall i, 0 <= i < Z.of_nat n -> P i = false) \/
  (exists J, 0 <= J < Z.of_nat n /\ P J = true).
Proof.
  induction n as [|n [IH | (J & HJ & HP)]].
  - left. intros; lia.
  - destruct (P (Z.of_nat n)) eqn:HPn.
    + right. exists (Z.of_nat n). split; [lia|assumption].
    + left. intros i Hi. destruct (Z.eq_dec i (Z.of_nat n)) as [-> | Hne];
        [assumption|apply IH; lia].
  - right. exists J. split; [lia|assumption].
Qed.

Section RemoveLoop.
Context {V : Type}.
Variables (m : HashMap V) (k : string).
Hypothesis Hcap : 0 < _capacity m.
Hypothesis Hlen : _capacity m <= da_length (_buckets m).

Lemma remove_loop_hit (n : nat) (j : Z) (e : HashEntry V) :
  j <= _capacity m ->
  _buckets m !! slot m k j = Some (Some e) -> holds k (Some e) = true ->
  remove_loop (S n) k (_hash_function m k) j
    (probe (_hash_function m k) j (_capacity m)) m
  = Ret (remove_at m (slot m k j) e).
Proof.
  intros Hj Hb Hh. cbn [remove_loop].
  destruct (Z.leb_spec j (_capacity m)); [|lia].
  rewrite (da_get_slot m k Hcap j _ Hb). cbn [bind].
  cbn in Hh. rewrite Hh. now rewrite (da_set_slot m k Hcap).
Qed.

Lemma remove_loop_miss (n : nat) (j : Z) (b : option (HashEntry V)) :
  j <= _capacity m ->
  _buckets m !! slot m k j = Some b -> holds k b = false ->
  remove_loop (S n) k (_hash_function m k) j
    (probe (_hash_function m k) j (_capacity m)) m
  = remove_loop n k (_hash_function m k) (j + 1)
      (probe (_hash_function m k) (j + 1) (_capacity m)) m.
Proof.
  intros Hj Hb Hh. cbn [remove_loop].
  destruct (Z.leb_spec j (_capacity m)); [|lia].
  rewrite (da_get_slot m k Hcap j _ Hb). cbn [bind].
  destruct b as [e|]; cbn in Hh; [rewrite Hh|];
    cbn zeta; rewrite (pymod_probe m k Hcap); reflexivity.
Qed.

Lemma remove_loop_end (n : nat) (j i : Z) :
  _capacity m < j ->
  remove_loop (S n) k (_hash_function m k) j i m = Ret m.
Proof.
  intros Hj. cbn [remove_loop].
  destruct (Z.leb_spec j (_capacity m)); [lia|reflexivity].
Qed.

Lemma remove_loop_first (d : nat) (count : Z) :
  (exists J e, count <= J <= count + Z.of_nat d /\ J <= _capacity m /\
               _buckets m !! slot m k J = Some (Some e) /\
               holds k (Some e) = true) ->
  exists j e,
    count <= j <= count + Z.of_nat d /\ j <= _capacity m /\
    _buckets m !! slot m k j = Some (Some e) /\ holds k (Some e) = true /\
    forall n, (d < n)%nat ->
      remove_loop n k (_hash_function m k) count
        (probe (_hash_function m k) count (_capacity m)) m
      = Ret (remove_at m (slot m k j) e).
Proof.
  revert count. induction d as [|d IH]; intros count (J & e & HJ & HJc & Hb & Hh).
  - assert (J = count) as -> by lia.
    exists count, e. split; [lia|]. split; [assumption|].
    split; [assumption|]. split; [assumption|].
    intros [|n] Hn; [lia|]. now apply remove_loop_hit.
  - destruct (slot_lookup m k Hcap Hlen count) as [b0 Hb0].
    destruct (holds k b0) eqn:Hh0.
    + destruct b0 as [e0|]; [|discriminate].
      exists count, e0. split; [lia|]. split; [lia|].
      split; [assumption|]. split; [assumption|].
      intros [|n] Hn; [lia|]. apply remove_loop_hit; [lia|assumption..].
    + destruct (IH (count + 1)) as (j & e1 & Hj & Hjc & Hb1 & Hh1 & Hrun).
      { exists J, e. split; [|split; [assumption|split; assumption]].
        assert (J <> count) by (intros ->; congruence). lia. }
      exists j, e1. split; [lia|]. split; [assumption|].
      split; [assumption|]. split; [assumption|].
      intros [|n] Hn; [lia|].
      rewrite (remove_loop_miss n count b0); [|lia|assumption..]. apply Hrun. lia.
Qed.

Lemma remove_loop_none (d : nat) (count : Z) :
  _capacity m + 1 <= count + Z.of_nat d ->
  (forall i, count <= i <= _capacity m ->
     exists b, _buckets m !! slot m k i = Some b /\ holds k b = false) ->
  forall n, (d < n)%nat ->
    remove_loop n k (_hash_function m k) count
      (probe (_hash_function m k) count (_capacity m)) m = Ret m.
Proof.
  revert count. induction d as [|d IH]; intros count Hd Hall [|n] Hn; try lia.
  - apply remove_loop_end. lia.
  - destruct (Z.le_gt_cases count (_capacity m)) as [Hle | Hgt].
    + destruct (Hall count ltac:(lia)) as (b & Hb & Hh).
      rewrite (remove_loop_miss n count b); [|assumption..].
      apply IH; [lia| |lia]. intros i Hi. apply Hall. lia.
    + apply remove_loop_end. lia.
Qed.

Lemma remove_unfold :
  remove k m = remove_loop (Z.to_nat (_capacity m) + 3) k (_hash_function m k) 0
                 (probe (_hash_function m k) 0 (_capacity m)) m.
Proof. unfold remove. cbn zeta. now rewrite (pymod_probe m k Hcap). Qed.

(** [remove] either leaves the table as it is, when no probed slot holds
    the key, or turns the first one that does into a tombstone. *)
Lemma remove_cases :
  ((forall i, 0 <= i <= _capacity m ->
      exists b, _buckets m !! slot m k i = Some b /\ holds k b = false) /\
   remove k m = Ret m) \/
  (exists j e, 0 <= j <= _capacity m /\
     _buckets m !! slot m k j = Some (Some e) /\ holds k (Some e) = true /\
     remove k m = Ret (remove_at m (slot m k j) e)).
Proof.
  destruct (bounded_search
              (fun i => match _buckets m !! slot m k i with
                        | Some b => holds k b | None => false end)
              (Z.to_nat (_capacity m + 1))) as [Hnone | (J & HJ & HP)].
  - left. assert (forall i, 0 <= i <= _capacity m ->
      exists b, _buckets m !! slot m k i = Some b /\ holds k b = false) as Hall.
    { intros i Hi. destruct (slot_lookup m k Hcap Hlen i) as [b Hb].
      exists b. split; [assumption|]. specialize (Hnone i ltac:(lia)).
      now rewrite Hb in Hnone. }
    split; [assumption|]. rewrite remove_unfold.
    apply (remove_loop_none (Z.to_nat (_capacity m) + 1) 0); [lia|assumption|lia].
  - right. destruct (_buckets m !! slot m k J) as [[e|]|] eqn:Hb; try discriminate.
    destruct (remove_loop_first (Z.to_nat J) 0) as (j & e' & Hj & Hjc & Hb' & Hh' & Hrun).
    { exists J, e. split; [lia|]. split; [lia|]. split; assumption. }
    exists j, e'. split; [lia|]. split; [assumption|]. split; [assumption|].
    rewrite remove_unfold. apply Hrun. lia.
Qed.

End RemoveLoop.

Lemma remove_at_wf {V} (m : HashMap V) (k : string) (j : Z) (e : HashEntry V) :
  wf m -> _buckets m !! slot m k j = Some (Some e) -> holds k (Some e) = true ->
  wf (remove_at m (slot m k j) e).
Proof.
  intros Hwf Hb Hh. pose proof (wf_capacity_ge_2 m Hwf) as H2.
  pose proof (probe_range (_hash_function m k) j (_capacity m) ltac:(lia)) as Hr.
  pose proof (slot_probe m k ltac:(lia) j) as Hsp.
  cbn in Hh. apply andb_true_iff in Hh. destruct Hh as [_ Ht].
  apply negb_true_iff in Ht.
  pose proof (count_live_bounds (_buckets m)) as Hcl.
  constructor; cbn.
  - apply (wf_prime m Hwf).
  - unfold da_length. rewrite length_insert. apply (wf_length m Hwf).
  - intros i b' Hl Hi. rewrite list_lookup_insert_ne in Hl by lia.
    now apply (wf_tail m Hwf i).
  - rewrite (count_live_insert _ _ _ _ Hb), (wf_size m Hwf).
    unfold is_live. cbn. rewrite Ht. cbn. lia.
  - pose proof (wf_load m Hwf). lia.
  - intros i e' Hl Ht'.
    destruct (Nat.eq_dec (slot m k j) i) as [<- | Hne].
    + rewrite list_lookup_insert_eq in Hl by (now apply lookup_lt_Some in Hb).
      injection Hl as <-. discriminate.
    + rewrite list_lookup_insert_ne in Hl by assumption.
      now apply (wf_probe m Hwf).
Qed.

(** [remove] returns and keeps the invariant. *)
Lemma remove_ok {V} (m : HashMap V) (k : string) :
  wf m -> exists m', remove k m = Ret m' /\ wf m' /\ frame m m' /\
                     _size m' <= _size m /\ _capacity m' = _capacity m.
Proof.
  intros Hwf. pose proof (wf_capacity_ge_2 m Hwf) as H2.
  destruct (remove_cases m k ltac:(lia) (wf_length m Hwf))
    as [[_ Hr] | (j & e & Hj & Hb & Hh & Hr)].
  - exists m. split; [assumption|]. split; [assumption|]. split; [now split|]. lia.
  - exists (remove_at m (slot m k j) e). split; [assumption|].
    split; [now apply remove_at_wf|]. split; [now split|]. cbn. lia.
Qed.

(** ** [get] and [remove] never run out of fuel *)

Lemma da_get_cases {A} (bs : list A) (i : Z) :
  (exists x, da_get bs i = Ret x) \/ da_get bs i = Raise DynamicArrayException.
Proof.
  unfold da_get. destruct ((i <? 0) || (da_length bs <=? i)); [now right|].
  destruct (bs !! Z.to_nat i) as [x|]; [left; now exists x|now right].
Qed.

Lemma da_set_cases {A} (bs : list A) (i : Z) (x : A) :
  (exists bs', da_set bs i x = Ret bs') \/ da_set bs i x = Raise DynamicArrayException.
Proof.
  unfold da_set. destruct ((i <? 0) || (da_length bs <=? i)); [now right|].
  left. now eexists.
Qed.

Lemma get_loop_total {V} (n : nat) (k : string) (h c i : Z) (m : HashMap V) :
  (Z.to_nat (_capacity m + 1 - c) < n)%nat -> get_loop n k h c i m <> OutOfFuel.
Proof.
  revert c i. induction n as [|n IH]; intros c i Hn; [lia|].
  cbn [get_loop]. destruct (Z.leb_spec c (_capacity m)); [|discriminate].
  destruct (da_get_cases (_buckets m) i) as [[b ->] | ->]; cbn [bind];
    [|discriminate].
  assert ((let* start_index := pymod (h + (c + 1) ^ 2) (_capacity m) in
           get_loop n k h (c + 1) start_index m) <> OutOfFuel) as Hnext.
  { unfold pymod. destruct (_capacity m =? 0); cbn [bind]; [discriminate|].
    apply IH. lia. }
  destruct b as [e|]; [|exact Hnext].
  destruct (String.eqb (key e) k && negb (is_tombstone e)); [discriminate|exact Hnext].
Qed.

Lemma get_total {V} (k : string) (m : HashMap V) : get k m <> OutOfFuel.
Proof.
  unfold get, pymod. cbn zeta. destruct (_capacity m =? 0); cbn [bind]; [discriminate|].
  apply get_loop_total. lia.
Qed.

Lemma remove_loop_total {V} (n : nat) (k : string) (h c i : Z) (m : HashMap V) :
  (Z.to_nat (_capacity m + 1 - c) < n)%nat -> remove_loop n k h c i m <> OutOfFuel.
Proof.
  revert c i. induction n as [|n IH]; intros c i Hn; [lia|].
  cbn [remove_loop]. destruct (Z.leb_spec c (_capacity m)); [|discriminate].
  destruct (da_get_cases (_buckets m) i) as [[b ->] | ->]; cbn [bind];
    [|discriminate].
  assert ((let* start_index := pymod (h + (c + 1) ^ 2) (_capacity m) in
           remove_loop n k h (c + 1) start_index m) <> OutOfFuel) as Hnext.
  { unfold pymod. destruct (_capacity m =? 0); cbn [bind]; [discriminate|].
    apply IH. lia. }
  destruct b as [e|]; [|exact Hnext].
  destruct (String.eqb (key e) k && negb (is_tombstone e)); [|exact Hnext].
  destruct (da_set_cases (_buckets m) i (Some (mkHashEntry (key e) (value e) true)))
    as [[bs' ->] | ->]; discriminate.
Qed.

Lemma remove_total {V} (k : string) (m : HashMap V) : remove k m <> OutOfFuel.
Proof.
  unfold remove, pymod. cbn zeta. destruct (_capacity m =? 0); cbn [bind]; [discriminate|].
  apply remove_loop_total. lia.
Qed.

(** ** Every reachable table keeps the invariant *)

Lemma wf_set_index {V} (m : HashMap V) (i : option Z) : wf m -> wf (set_index m i).
Proof. intros [H1 H2 H3 H4 H5 H6]. constructor; assumption. Qed.

(** What a returning [put] returns: the table [put_ok] describes. *)
Lemma put_Ret {V} (n : nat) (m m' : HashMap V) (k : string) (v : object V) :
  wf m -> put n k v m = Ret m' ->
  ev (fun n => put n k v m) m' /\
  wf m' /\ frame m m' /\ _capacity m <= _capacity m' /\
  get k m' = Ret v /\ grows m k v m' /\
  (exists i, _buckets m' !! i = Some (Some (new_HashEntry k v))).
Proof.
  intros Hwf Hr. destruct (put_ok m k v Hwf) as (m1 & Hev & H).
  now rewrite (ev_unique _ _ _ n (fun a b => put_mono a b k v m) Hev Hr).
Qed.

(** What a returning [resize_table] returns. *)
Lemma resize_table_Ret {V} (n : nat) (m m' : HashMap V) (c : Z) :
  wf m -> resize_table n c m = Ret m' ->
  (c < _size m /\ m' = m) \/
  (_size m <= c /\ ev (fun n => resize_table n c m) m' /\
   wf m' /\ frame m m' /\ c <= _capacity m' /\ same_content m m').
Proof.
  intros Hwf Hr. destruct (Z.lt_ge_cases c (_size m)) as [Hlt | Hge].
  - left. split; [assumption|].
    unfold resize_table, resize_table_with in Hr.
    destruct (Z.ltb_spec c (_size m)); [congruence|lia].
  - right. split; [assumption|].
    destruct (resize_table_ok m c Hwf Hge) as (m1 & Hev & H).
    now rewrite (ev_unique _ _ _ n (fun a b => resize_table_mono a b c m) Hev Hr).
Qed.

Lemma clear_Ret {V} (n : nat) (m m' : HashMap V) :
  wf m -> clear n m = Ret m' ->
  wf m' /\ frame m m' /\ _size m' = 0 /\ _capacity m' = _capacity m.
Proof.
  intros Hwf Hr. destruct (clear_ev m Hwf) as (r & Hev & Hle).
  rewrite (ev_unique _ _ _ n (fun a b => clear_mono a b m) Hev Hr).
  split; [now apply cleared_wf|]. split; [now split|]. split; reflexivity.
Qed.

Lemma __next___Ret {V} (m m' : HashMap V) (e : HashEntry V) :
  __next__ m = Ret (e, m') ->
  exists i, _index m = Some i /\ m' = set_index m (Some (i + 1)) /\
            0 <= i /\ _buckets m !! Z.to_nat i = Some (Some e) /\
            is_tombstone e = false.
Proof.
  unfold __next__. destruct (_index m) as [i|]; [|discriminate].
  destruct (da_get (_buckets m) i) as [b| |] eqn:Hg; cbn [bind]; try discriminate.
  apply da_get_inv in Hg. destruct Hg as [Hi Hl].
  destruct b as [e'|]; [|discriminate].
  destruct (is_tombstone e') eqn:Ht; cbn [negb]; [discriminate|].
  intros [= <- <-]. exists i. repeat split; try assumption; lia.
Qed.

Lemma reachable_wf {V} (m : HashMap V) : reachable m -> wf m.
Proof.
  induction 1 as [n c h m Hc Hi | n k v m m' _ IH Hp | k m m' _ IH Hr
                 | n m m' _ IH Hc | n c m m' _ IH Hr | m _ IH | m e m' _ IH Hn].
  - now apply (__init___wf n c h).
  - now apply (put_Ret n m m' k v).
  - destruct (remove_ok m k IH) as (m1 & Hr1 & Hwf1 & _). congruence.
  - now apply (clear_Ret n m m').
  - destruct (resize_table_Ret n m m' c IH Hr) as [[_ ->] | (_ & _ & Hwf & _)];
      assumption.
  - now apply wf_set_index.
  - apply __next___Ret in Hn. destruct Hn as (i & _ & -> & _).
    now apply wf_set_index.
Qed.

(** ** The sample tables are reachable *)

Lemma reachable_ex_new : reachable ex_new.
Proof. apply (reach_init 1 3 hash_function_1); [lia|reflexivity]. Defined.

Lemma reachable_ex_a : reachable ex_a.
Proof.
  apply (reach_put 3 "a" (PyObj 1) ex_new); [apply reachable_ex_new|reflexivity].
Defined.

Lemma reachable_ex_ab : reachable ex_ab.
Proof.
  apply (reach_put 3 "b" (PyObj 2) ex_a); [apply reachable_ex_a|reflexivity].
Defined.

Lemma reachable_ex_ad : reachable ex_ad.
Proof.
  apply (reach_put 3 "d" (PyObj 2) ex_a); [apply reachable_ex_a|reflexivity].
Defined.

Lemma reachable_ex_d : reachable ex_d.
Proof.
  apply (reach_remove "a" ex_ad); [apply reachable_ex_ad|reflexivity].
Defined.

Lemma reachable_ex_dd : reachable ex_dd.
Proof.
  apply (reach_put 3 "d" (PyObj 3) ex_d); [apply reachable_ex_d|reflexivity].
Defined.

Lemma reachable_ex_abc : reachable ex_abc.
Proof.
  apply (reach_put 10 "c" (PyObj 3) ex_ab); [apply reachable_ex_ab|reflexivity].
Defined.

Lemma reachable_ex_xab_cur3 : reachable ex_xab_cur3.
Proof.
  apply (reach_next ex_xab_cur2 (mkHashEntry "b" (PyObj 3) false)); [|reflexivity].
  apply (reach_put 3 "b" (PyObj 3) ex_xa_cur2); [|reflexivity].
  apply (reach_remove "c" ex_ca_cur2); [|reflexivity].
  apply (reach_next ex_ca_cur1 (mkHashEntry "a" (PyObj 2) false)); [|reflexivity].
  apply (reach_put 3 "a" (PyObj 2) ex_c_cur1); [|reflexivity].
  apply (reach_next (__iter__ ex_c) (mkHashEntry "c" (PyObj 1) false)); [|reflexivity].
  apply reach_iter.
  apply (reach_put 3 "c" (PyObj 1) ex_new); [apply reachable_ex_new|reflexivity].
Defined.

(** * The claims *)

(** ** C1: the load factor after [put] *)

Lemma table_load_bound (s c : Z) :
  0 < c ->
  (inject_Z s / inject_Z c < (1 # 2) + 1 / inject_Z c)%Q <-> 2 * (s - 1) < c.
Proof.
  intros Hc. destruct c as [|p|p]; try lia.
  unfold Qlt, Qplus, Qdiv, Qmult, Qinv, inject_Z. cbn.
  rewrite ?Pos.mul_1_l, ?Pos2Z.inj_mul. split; intros; nia.
Qed.

(** C1 as stated fails: [HashMap(3, hash_function_1)], [put("a", 1)], then
    [put("b", 2)] returns with the load factor 2/3, which is above 0.5. *)
Lemma C1_counterexample :
  reachable ex_a /\ put 3 "b" (PyObj 2) ex_a = Ret ex_ab /\
  table_load ex_ab = Ret (2 # 3)%Q /\ ~ (2 # 3 <= 1 # 2)%Q.
Proof.
  split; [apply reachable_ex_a|]. split; [reflexivity|]. split; [reflexivity|].
  unfold Qle. cbn. lia.
Qed.

(** C1, amended: for every reachable table, immediately after [put] returns
    the load factor is below [0.5 + 1 / capacity], that is
    [2 * (size - 1) < capacity]: the load factor was below 0.5 when the
    entry was placed, and the entry itself is not counted by the check. *)
Theorem C1_load_after_put {V} (m m' : HashMap V) (n : nat) (k : string)
  (v : object V) :
  reachable m -> put n k v m = Ret m' ->
  exists q, table_load m' = Ret q /\
            (q < (1 # 2) + 1 / inject_Z (get_capacity m'))%Q /\
            2 * (get_size m' - 1) < get_capacity m'.
Proof.
  intros Hr Hp. apply reachable_wf in Hr.
  destruct (put_Ret n m m' k v Hr Hp) as (_ & Hwf & _).
  pose proof (wf_capacity_ge_2 m' Hwf) as H2.
  pose proof (wf_load m' Hwf) as Hl.
  exists (inject_Z (_size m') / inject_Z (_capacity m'))%Q.
  split; [apply table_load_Ret; lia|]. split; [|exact Hl].
  apply table_load_bound; [unfold get_capacity; lia|exact Hl].
Qed.

Lemma C1_load_after_put_witness :
  exists q, table_load ex_ab = Ret q /\
            (q < (1 # 2) + 1 / inject_Z (get_capacity ex_ab))%Q /\
            2 * (get_size ex_ab - 1) < get_capacity ex_ab.
Proof.
  apply (C1_load_after_put ex_a ex_ab 3 "b" (PyObj 2));
    [apply reachable_ex_a|reflexivity].
Defined.

(** ** C2: [put] then [get] *)

(** C2: for every reachable table, every key and every value, [put(k, v)]
    returns, and [get(k)] on the table it leaves returns [v]. *)
Theorem C2_put_get {V} (m : HashMap V) (k : string) (v : object V) :
  reachable m ->
  (exists m', ev (fun n => put n k v m) m') /\
  forall n m', put n k v m = Ret m' -> get k m' = Ret v.
Proof.
  intros Hr. apply reachable_wf in Hr. split.
  - destruct (put_ok m k v Hr) as (m' & Hev & _). now exists m'.
  - intros n m' Hp. now destruct (put_Ret n m m' k v Hr Hp) as (_ & _ & _ & _ & Hg & _).
Qed.

Lemma C2_put_get_witness :
  (exists m', ev (fun n => put n "d" (PyObj 3) ex_d) m') /\
  forall n m', put n "d" (PyObj 3) ex_d = Ret m' -> get "d" m' = Ret (PyObj 3).
Proof. apply (C2_put_get ex_d "d" (PyObj 3)). apply reachable_ex_d. Defined.

(** ** C3: [put] of a key that is already live *)

(** C3 fails on the code: in the reachable table left by [put("a", 1)],
    [put("d", 2)], [remove("a")] the key "d" is live in slot 2 behind the
    tombstone of "a" in slot 1; [put("d", 3)] places a second entry for "d"
    in the tombstoned slot and [get_size()] grows from 1 to 2. The old
    entry stays live: after [remove("d")] the key is still found. *)
Theorem C3_put_live_key_behind_tombstone :
  reachable ex_d /\ live_in ex_d "d" (PyObj 2) /\ get_size ex_d = 1 /\
  put 3 "d" (PyObj 3) ex_d = Ret ex_dd /\
  get_size ex_dd = 2 /\
  _buckets ex_dd = [None; Some (mkHashEntry "d" (PyObj 3) false);
                    Some (mkHashEntry "d" (PyObj 2) false)] /\
  (let* m := remove "d" ex_dd in contains_key "d" m) = Ret true.
Proof.
  split; [apply reachable_ex_d|]. split; [|repeat split].
  exists 2%nat, (mkHashEntry "d" (PyObj 2) false). repeat split.
Qed.

(** ** C4: [resize_table] and the content *)

(** C4 fails on the code, through the defect of C3: in the reachable table
    with two live entries for "d" (the later one, of value 3, in the slot
    probed first), [get("d")] returns 3; [resize_table(3)], with 3 not below
    the size 2, re-inserts the two entries in slot order, so the older value
    overwrites the later one, and [get("d")] returns 2. *)
Theorem C4_resize_changes_get :
  reachable ex_dd /\ get_size ex_dd <= 3 /\ live_in ex_dd "d" (PyObj 3) /\
  get "d" ex_dd = Ret (PyObj 3) /\
  resize_table 3 3 ex_dd = Ret ex_dd_resized /\
  get "d" ex_dd_resized = Ret (PyObj 2).
Proof.
  split; [apply reachable_ex_dd|]. split; [cbn; lia|]. split; [|repeat split].
  exists 1%nat, (mkHashEntry "d" (PyObj 3) false). repeat split.
Qed.

(** ** C5: the capacity is a prime *)

(** Every reachable table, that is every table built with a non-negative
    requested capacity, has a prime capacity. *)
Lemma reachable_capacity_prime {V} (m : HashMap V) :
  reachable m -> Z.prime (get_capacity m).
Proof. intros Hr. apply (wf_prime m), reachable_wf, Hr. Qed.

Lemma wf_size_le_capacity {V} (m : HashMap V) :
  wf m -> 0 <= _size m <= _capacity m.
Proof.
  intros Hwf. pose proof (wf_capacity_ge_2 m Hwf) as H2.
  pose proof (count_live_bounds (take (Z.to_nat (_capacity m)) (_buckets m))) as Hcl.
  rewrite <- length_live_entries, live_entries_take, length_live_entries in Hcl
    by assumption.
  rewrite <- (wf_size m Hwf), length_take in Hcl. lia.
Qed.

(** The constructor, for a non-negative request, and [resize_table] leave a
    capacity that is not below the request. *)
Lemma __init___capacity {V} (n : nat) (c : Z) (h : string -> Z) (m : HashMap V) :
  0 <= c -> __init__ n c h = Ret m -> Z.prime (get_capacity m) /\ c <= get_capacity m.
Proof.
  intros Hc Hi. destruct (__init___wf n c h m Hc Hi) as (Hwf & Hle & _).
  split; [apply (wf_prime m Hwf)|assumption].
Qed.

Lemma resize_table_capacity {V} (n : nat) (c : Z) (m m' : HashMap V) :
  reachable m -> resize_table n c m = Ret m' ->
  Z.prime (get_capacity m') /\ c <= get_capacity m'.
Proof.
  intros Hr Hres. apply reachable_wf in Hr.
  destruct (resize_table_Ret n m m' c Hr Hres) as [[Hlt ->] | (_ & _ & Hwf & _ & Hle & _)].
  - split; [apply (wf_prime m Hr)|].
    pose proof (wf_size_le_capacity m Hr). unfold get_capacity. lia.
  - split; [apply (wf_prime m' Hwf)|assumption].
Qed.

(** C5 fails on the code for a negative requested capacity: [_is_prime]
    accepts every negative odd number (it only rules out 1 and the even
    numbers, and its loop does not run), so [HashMap(-5, hash_function_1)]
    is built with the capacity -5, which is not a prime. *)
Theorem C5_negative_capacity :
  _is_prime (-5) = Ret true /\
  __init__ (V:=Z) 1 (-5) hash_function_1
    = Ret (mkHashMap [] (-5) hash_function_1 0 None) /\
  get_capacity (mkHashMap (V:=Z) [] (-5) hash_function_1 0 None) = -5 /\
  ~ Z.prime (-5).
Proof.
  split; [reflexivity|]. split; [reflexivity|]. split; [reflexivity|].
  intros [H _]. lia.
Qed.

(** ** C8: [resize_table] below the size *)

(** C8: for every table and every new capacity below the size,
    [resize_table] returns without an error and leaves the table, that is
    the slot array, the size and the capacity, as it was. *)
Theorem C8_resize_below_size {V} (m : HashMap V) (n : nat) (new_capacity : Z) :
  new_capacity < get_size m -> resize_table n new_capacity m = Ret m.
Proof.
  intros Hlt. unfold resize_table, resize_table_with, get_size in *.
  destruct (Z.ltb_spec new_capacity (_size m)); [reflexivity|lia].
Qed.

Lemma C8_resize_below_size_witness :
  1 < get_size ex_ab /\ resize_table 0 1 ex_ab = Ret ex_ab.
Proof.
  split; [cbn; lia|]. apply (C8_resize_below_size ex_ab 0 1). cbn. lia.
Defined.

(** ** The iteration protocol *)

Lemma __next___yield {V} (m : HashMap V) (i : nat) (e : HashEntry V) :
  _buckets m !! i = Some (Some e) -> is_tombstone e = false ->
  __next__ (set_index m (Some (Z.of_nat i)))
  = Ret (e, set_index m (Some (Z.of_nat (S i)))).
Proof.
  intros Hl Ht. unfold __next__. cbn [_index set_index _buckets].
  rewrite (da_get_Ret _ _ (Some e)); [|lia|now rewrite Nat2Z.id].
  cbn [bind]. rewrite Ht. cbn [negb].
  replace (Z.of_nat i + 1) with (Z.of_nat (S i)) by lia. reflexivity.
Qed.

Lemma __next___stop {V} (m : HashMap V) (i : nat) (b : option (HashEntry V)) :
  _buckets m !! i = Some b -> is_free b = true ->
  __next__ (set_index m (Some (Z.of_nat i))) = Raise StopIteration.
Proof.
  intros Hl Hf. unfold __next__. cbn [_index set_index _buckets].
  rewrite (da_get_Ret _ _ b); [|lia|now rewrite Nat2Z.id].
  cbn [bind]. destruct b as [e|]; [|reflexivity].
  cbn in Hf. now rewrite Hf.
Qed.

(** From the cursor [i] the iteration yields the slots up to the first one
    that is not Occupied, and stops there. *)
Lemma next_loop_prefix {V} (m : HashMap V) (j : nat) (b : option (HashEntry V)) :
  (forall i, (i < j)%nat ->
     exists e, _buckets m !! i = Some (Some e) /\ is_tombstone e = false) ->
  _buckets m !! j = Some b -> is_free b = true ->
  forall d i, (i + d = j)%nat ->
  exists l, Some <$> l = take d (drop i (_buckets m)) /\
            forall n, (d < n)%nat ->
              next_loop n (set_index m (Some (Z.of_nat i))) = Ret l.
Proof.
  intros Hpre Hb Hf. induction d as [|d IH]; intros i Hi.
  - exists []. split; [reflexivity|]. intros [|n] Hn; [lia|].
    cbn [next_loop]. replace i with j by lia.
    now rewrite (__next___stop m j b).
  - destruct (Hpre i ltac:(lia)) as (e & He & Ht).
    destruct (IH (S i) ltac:(lia)) as (l & Hl & Hrun).
    exists (e :: l). split.
    + rewrite (drop_S _ _ _ He). cbn. now rewrite Hl.
    + intros [|n] Hn; [lia|]. cbn [next_loop].
      rewrite (__next___yield m i e He Ht).
      rewrite Hrun by lia. reflexivity.
Qed.

Lemma iterate_prefix {V} (m : HashMap V) (j : nat) (b : option (HashEntry V)) :
  (forall i, (i < j)%nat ->
     exists e, _buckets m !! i = Some (Some e) /\ is_tombstone e = false) ->
  _buckets m !! j = Some b -> is_free b = true ->
  exists l, Some <$> l = take j (_buckets m) /\ length l = j /\
            forall n, (j < n)%nat -> iterate n m = Ret l.
Proof.
  intros Hpre Hb Hf.
  destruct (next_loop_prefix m j b Hpre Hb Hf j 0%nat eq_refl) as (l & Hl & Hrun).
  rewrite drop_0 in Hl. exists l. split; [assumption|]. split; [|exact Hrun].
  apply (f_equal length) in Hl. rewrite length_fmap, length_take in Hl.
  apply lookup_lt_Some in Hb. lia.
Qed.

(** ** C7: the iteration stops at the first gap *)

(** C7: in every table whose slots 0 to [j - 1] are Occupied and whose slot
    [j] is Empty or Tombstoned, the iteration yields the entries of the slots
    0 to [j - 1], in this order, and stops: however many entries lie behind
    the slot [j], none is yielded, and [__next__] at the cursor [j] raises
    [StopIteration]. *)
Theorem C7_iteration_stops_at_gap {V} (m : HashMap V) (j : nat)
  (b : option (HashEntry V)) :
  (forall i, (i < j)%nat ->
     exists e, _buckets m !! i = Some (Some e) /\ is_tombstone e = false) ->
  _buckets m !! j = Some b -> is_free b = true ->
  exists l, Some <$> l = take j (_buckets m) /\
            (forall n, (j < n)%nat -> iterate n m = Ret l) /\
            __next__ (set_index m (Some (Z.of_nat j))) = Raise StopIteration.
Proof.
  intros Hpre Hb Hf.
  destruct (iterate_prefix m j b Hpre Hb Hf) as (l & Hl & _ & Hrun).
  exists l. split; [assumption|]. split; [assumption|].
  now apply (__next___stop m j b).
Qed.

(** ** C10: the iteration and the end of the slot array *)

(** C10 as stated fails: when the table is changed between two calls of
    [__next__], the cursor can pass the end of the slot array.  After
    [HashMap(3, hash_function_1)], [put("c", 1)], [__iter__], [__next__],
    [put("a", 2)], [__next__], [remove("c")], [put("b", 3)] and [__next__]
    the three calls of [__next__] have yielded "c", "a" and "b", the cursor
    is 3, and the table is reachable with fewer Occupied slots than slots;
    the next call of [__next__] raises the out-of-range error of the array,
    not [StopIteration]. *)
Lemma C10_counterexample :
  put 3 "c" (PyObj 1) ex_new = Ret ex_c /\
  __next__ (__iter__ ex_c) = Ret (mkHashEntry "c" (PyObj 1) false, ex_c_cur1) /\
  put 3 "a" (PyObj 2) ex_c_cur1 = Ret ex_ca_cur1 /\
  __next__ ex_ca_cur1 = Ret (mkHashEntry "a" (PyObj 2) false, ex_ca_cur2) /\
  remove "c" ex_ca_cur2 = Ret ex_xa_cur2 /\
  put 3 "b" (PyObj 3) ex_xa_cur2 = Ret ex_xab_cur2 /\
  __next__ ex_xab_cur2 = Ret (mkHashEntry "b" (PyObj 3) false, ex_xab_cur3) /\
  reachable ex_xab_cur3 /\
  count_live (_buckets ex_xab_cur3) < da_length (_buckets ex_xab_cur3) /\
  __next__ ex_xab_cur3 = Raise DynamicArrayException.
Proof.
  repeat (split; [reflexivity|]).
  split; [apply reachable_ex_xab_cur3|]. split; reflexivity.
Qed.

(** C10, amended: in every reachable table, that is one built with a
    non-negative requested capacity and used through the public operations,
    fewer slots are Occupied than the array has; so an iteration started by
    [__iter__] during which the table is not changed yields fewer entries
    than there are slots and ends by [StopIteration]: [__next__] finds a
    slot that is not Occupied before the cursor leaves the array, and the
    out-of-range error of the array is not raised. *)
Theorem C10_iteration_in_range {V} (m : HashMap V) :
  reachable m ->
  count_live (_buckets m) < da_length (_buckets m) /\
  exists l, da_length l < da_length (_buckets m) /\
            (forall n, (length l < n)%nat -> iterate n m = Ret l) /\
            __next__ (set_index m (Some (da_length l))) = Raise StopIteration.
Proof.
  intros Hr. apply reachable_wf in Hr.
  pose proof (wf_capacity_ge_2 m Hr) as H2.
  assert (count_live (_buckets m) < da_length (_buckets m)) as Hlt.
  { rewrite <- (wf_size m Hr). pose proof (wf_load m Hr). pose proof (wf_length m Hr). lia. }
  split; [assumption|].
  destruct (first_free (_buckets m) Hlt) as (j & b & Hb & Hf & Hpre).
  destruct (iterate_prefix m j b Hpre Hb Hf) as (l & Hl & Hlen & Hrun).
  exists l. unfold da_length. rewrite Hlen. split; [|split; [assumption|]].
  - apply lookup_lt_Some in Hb. lia.
  - now apply (__next___stop m j b).
Qed.

Lemma C7_iteration_stops_at_gap_witness :
  exists l, Some <$> l = take 1 (_buckets ex_gap) /\
            (forall n, (1 < n)%nat -> iterate n ex_gap = Ret l) /\
            __next__ (set_index ex_gap (Some (Z.of_nat 1))) = Raise StopIteration.
Proof.
  apply (C7_iteration_stops_at_gap ex_gap 1 None); [|reflexivity|reflexivity].
  intros [|i] Hi; [|lia].
  exists (mkHashEntry "c" (PyObj 1) false). split; reflexivity.
Defined.

Lemma C10_iteration_in_range_witness :
  count_live (_buckets ex_abc) < da_length (_buckets ex_abc) /\
  exists l, da_length l < da_length (_buckets ex_abc) /\
            (forall n, (length l < n)%nat -> iterate n ex_abc = Ret l) /\
            __next__ (set_index ex_abc (Some (da_length l))) = Raise StopIteration.
Proof. apply (C10_iteration_in_range ex_abc). apply reachable_ex_abc. Defined.

(** ** C9: the value [None] *)

Lemma get_of_absent {V} (m : HashMap V) (k : string) :
  0 < _capacity m -> _capacity m <= da_length (_buckets m) ->
  absent m k -> get k m = Ret PyNone.
Proof.
  intros Hcap Hlen Habs. apply get_absent; [assumption..|].
  intros i _. destruct (slot_lookup m k Hcap Hlen i) as [b Hb].
  exists b. split; [assumption|]. now apply (Habs _ _ Hb).
Qed.

Lemma count_live_pos {V} (bs : list (option (HashEntry V))) (i : nat) b :
  bs !! i = Some b -> is_live b = true -> 1 <= count_live bs.
Proof.
  intros Hb Hl. apply (count_live_NoDup bs [i]).
  - apply NoDup_singleton.
  - intros j Hj. apply list_elem_of_singleton in Hj. subst j. now exists b.
Qed.

(** C9: for every reachable table and every key [k], [put(k, None)] returns
    and leaves [k] in an Occupied slot, counted by [get_size()]; yet
    [get(k)] returns [None] and [contains_key(k)] returns [False], the
    answers every absent key gets. *)
Theorem C9_none_value_reads_absent {V} (m : HashMap V) (k : string) :
  reachable m ->
  exists m',
    ev (fun n => put n k PyNone m) m' /\
    (exists i, _buckets m' !! i = Some (Some (mkHashEntry k PyNone false))) /\
    get_size m' = count_live (_buckets m') /\ 1 <= get_size m' /\
    get k m' = Ret PyNone /\ contains_key k m' = Ret false /\
    forall k', absent m' k' ->
               get k' m' = Ret PyNone /\ contains_key k' m' = Ret false.
Proof.
  intros Hr. apply reachable_wf in Hr.
  destruct (put_ok m k PyNone Hr) as (m' & Hev & Hwf & _ & _ & Hget & _ & (i & Hi)).
  pose proof (wf_capacity_ge_2 m' Hwf) as H2.
  exists m'. split; [assumption|]. split; [now exists i|].
  split; [apply (wf_size m' Hwf)|]. split.
  { unfold get_size. rewrite (wf_size m' Hwf). now apply (count_live_pos _ i _ Hi). }
  split; [assumption|]. split; [unfold contains_key; now rewrite Hget|].
  intros k' Habs.
  assert (get k' m' = Ret PyNone) as Hg
      by (apply get_of_absent; [lia|apply (wf_length m' Hwf)|assumption]).
  split; [assumption|]. unfold contains_key. now rewrite Hg.
Qed.

Lemma C9_none_value_reads_absent_witness :
  exists m',
    ev (fun n => put n "b" PyNone ex_a) m' /\
    (exists i, _buckets m' !! i = Some (Some (mkHashEntry "b" PyNone false))) /\
    get_size m' = count_live (_buckets m') /\ 1 <= get_size m' /\
    get "b" m' = Ret PyNone /\ contains_key "b" m' = Ret false /\
    forall k', absent m' k' ->
               get k' m' = Ret PyNone /\ contains_key k' m' = Ret false.
Proof. apply (C9_none_value_reads_absent ex_a "b"). apply reachable_ex_a. Defined.

(** ** C6: the number of probes of [get] and [remove] *)

(** The recording loops compute what [get] and [remove] compute. *)
Lemma get_loop_trace_get {V} (n : nat) (k : string) (h c i : Z) (m : HashMap V) :
  (let* r := get_loop_trace n k h c i m in Ret (fst r)) = get_loop n k h c i m.
Proof.
  revert c i. induction n as [|n IH]; intros c i; [reflexivity|].
  cbn [get_loop get_loop_trace].
  destruct (c <=? _capacity m); [|reflexivity].
  destruct (da_get (_buckets m) i) as [b| |]; cbn [bind]; try reflexivity.
  assert ((let* r := (let* next_index := pymod (h + (c + 1) ^ 2) (_capacity m) in
                      let* r := get_loop_trace n k h (c + 1) next_index m in
                      Ret (fst r, i :: snd r)) in Ret (fst r))
          = (let* start_index := pymod (h + (c + 1) ^ 2) (_capacity m) in
             get_loop n k h (c + 1) start_index m)) as Hnext.
  { destruct (pymod (h + (c + 1) ^ 2) (_capacity m)) as [j| |]; cbn [bind];
      try reflexivity.
    rewrite <- IH.
    destruct (get_loop_trace n k h (c + 1) j m); reflexivity. }
  destruct b as [e|]; [|exact Hnext].
  destruct (String.eqb (key e) k && negb (is_tombstone e)); [reflexivity|exact Hnext].
Qed.

Lemma get_trace_get {V} (k : string) (m : HashMap V) :
  (let* r := get_trace k m in Ret (fst r)) = get k m.
Proof.
  unfold get_trace, get. cbn zeta.
  destruct (pymod _ _); cbn [bind]; try reflexivity.
  apply get_loop_trace_get.
Qed.

Lemma remove_loop_trace_remove {V} (n : nat) (k : string) (h c i : Z) (m : HashMap V) :
  (let* r := remove_loop_trace n k h c i m in Ret (fst r)) = remove_loop n k h c i m.
Proof.
  revert c i. induction n as [|n IH]; intros c i; [reflexivity|].
  cbn [remove_loop remove_loop_trace].
  destruct (c <=? _capacity m); [|reflexivity].
  destruct (da_get (_buckets m) i) as [b| |]; cbn [bind]; try reflexivity.
  assert ((let* r := (let* next_index := pymod (h + (c + 1) ^ 2) (_capacity m) in
                      let* r := remove_loop_trace n k h (c + 1) next_index m in
                      Ret (fst r, i :: snd r)) in Ret (fst r))
          = (let* start_index := pymod (h + (c + 1) ^ 2) (_capacity m) in
             remove_loop n k h (c + 1) start_index m)) as Hnext.
  { destruct (pymod (h + (c + 1) ^ 2) (_capacity m)) as [j| |]; cbn [bind];
      try reflexivity.
    rewrite <- IH.
    destruct (remove_loop_trace n k h (c + 1) j m); reflexivity. }
  destruct b as [e|]; [|exact Hnext].
  destruct (String.eqb (key e) k && negb (is_tombstone e)); [|exact Hnext].
  destruct (da_set _ _ _); reflexivity.
Qed.

Lemma remove_trace_remove {V} (k : string) (m : HashMap V) :
  (let* r := remove_trace k m in Ret (fst r)) = remove k m.
Proof.
  unfold remove_trace, remove. cbn zeta.
  destruct (pymod _ _); cbn [bind]; try reflexivity.
  apply remove_loop_trace_remove.
Qed.

Section TraceAbsent.
Context {V : Type}.
Variables (m : HashMap V) (k : string).
Hypothesis Hcap : 0 < _capacity m.
Hypothesis Hlen : _capacity m <= da_length (_buckets m).
Hypothesis Habs : absent m k.

Lemma absent_slot (j : Z) :
  exists b, _buckets m !! slot m k j = Some b /\ holds k b = false.
Proof.
  destruct (slot_lookup m k Hcap Hlen j) as [b Hb].
  exists b. split; [assumption|]. now apply (Habs _ _ Hb).
Qed.

(** From the probe [a] on, the loops examine every probe up to the probe
    [capacity], this one included. *)
Lemma get_loop_trace_absent (d a : nat) :
  Z.of_nat a + Z.of_nat d = _capacity m + 1 ->
  forall n, (d < n)%nat ->
    get_loop_trace n k (_hash_function m k) (Z.of_nat a)
      (probe (_hash_function m k) (Z.of_nat a) (_capacity m)) m
    = Ret (PyNone,
           map (fun i => probe (_hash_function m k) (Z.of_nat i) (_capacity m))
               (seq a d)).
Proof.
  revert a. induction d as [|d IH]; intros a Ha [|n] Hn; try lia.
  - cbn [get_loop_trace]. destruct (Z.leb_spec (Z.of_nat a) (_capacity m)); [lia|].
    reflexivity.
  - cbn [get_loop_trace]. destruct (Z.leb_spec (Z.of_nat a) (_capacity m)); [|lia].
    destruct (absent_slot (Z.of_nat a)) as (b & Hb & Hh).
    rewrite (da_get_slot m k Hcap _ _ Hb). cbn [bind].
    assert (Z.of_nat a + 1 = Z.of_nat (S a)) as Hs by lia.
    destruct b as [e|]; cbn in Hh; [rewrite Hh|];
      cbn zeta; rewrite (pymod_probe m k Hcap); cbn [bind];
      rewrite Hs, (IH (S a)) by lia; reflexivity.
Qed.

Lemma remove_loop_trace_absent (d a : nat) :
  Z.of_nat a + Z.of_nat d = _capacity m + 1 ->
  forall n, (d < n)%nat ->
    remove_loop_trace n k (_hash_function m k) (Z.of_nat a)
      (probe (_hash_function m k) (Z.of_nat a) (_capacity m)) m
    = Ret (m,
           map (fun i => probe (_hash_function m k) (Z.of_nat i) (_capacity m))
               (seq a d)).
Proof.
  revert a. induction d as [|d IH]; intros a Ha [|n] Hn; try lia.
  - cbn [remove_loop_trace]. destruct (Z.leb_spec (Z.of_nat a) (_capacity m)); [lia|].
    reflexivity.
  - cbn [remove_loop_trace]. destruct (Z.leb_spec (Z.of_nat a) (_capacity m)); [|lia].
    destruct (absent_slot (Z.of_nat a)) as (b & Hb & Hh).
    rewrite (da_get_slot m k Hcap _ _ Hb). cbn [bind].
    assert (Z.of_nat a + 1 = Z.of_nat (S a)) as Hs by lia.
    destruct b as [e|]; cbn in Hh; [rewrite Hh|];
      cbn zeta; rewrite (pymod_probe m k Hcap); cbn [bind];
      rewrite Hs, (IH (S a)) by lia; reflexivity.
Qed.

End TraceAbsent.

(** C6 as stated fails: in the empty table of capacity 3 the key "a" is
    absent, and [get] and [remove] each examine four probes, one more than
    the capacity: the slots 1, 2, 2 and 1 again. *)
Lemma C6_counterexample :
  absent ex_new "a" /\ get_capacity ex_new = 3 /\
  get_trace "a" ex_new = Ret (PyNone, [1; 2; 2; 1]) /\
  remove_trace "a" ex_new = Ret (ex_new, [1; 2; 2; 1]) /\
  ~ (da_length [1; 2; 2; 1] <= get_capacity ex_new).
Proof.
  split.
  { intros [|[|[|i]]] b Hb; cbn in Hb; try discriminate; now injection Hb as <-. }
  split; [reflexivity|]. split; [reflexivity|]. split; [reflexivity|].
  intros H. vm_compute in H. now apply H.
Qed.

(** C6, amended: for every table of a positive capacity [C] with at least
    [C] slots and every key absent from it, [get] and [remove] examine
    exactly [C + 1] probes, the slots [(hash(key) + i ** 2) % C] for
    [i = 0 .. C] (the last one is the slot of the first again); then [get]
    returns [None] and [remove] leaves the table as it was. *)
Theorem C6_probes_of_absent_key {V} (m : HashMap V) (k : string) :
  0 < get_capacity m -> get_capacity m <= da_length (_buckets m) ->
  absent m k ->
  let C := Z.to_nat (get_capacity m) in
  get_trace k m = Ret (PyNone, probes m k (C + 1)) /\
  remove_trace k m = Ret (m, probes m k (C + 1)) /\
  length (probes m k (C + 1)) = (C + 1)%nat /\
  probes m k (C + 1) !! C = probes m k (C + 1) !! 0%nat /\
  get k m = Ret PyNone /\ remove k m = Ret m.
Proof.
  intros Hcap Hlen Habs C. unfold get_capacity in Hcap, Hlen, C.
  assert (get_trace k m = Ret (PyNone, probes m k (C + 1))) as Hg.
  { unfold get_trace. cbn zeta. rewrite (pymod_probe m k Hcap). cbn [bind].
    apply (get_loop_trace_absent m k Hcap Hlen Habs (C + 1) 0); subst C; lia. }
  assert (remove_trace k m = Ret (m, probes m k (C + 1))) as Hrm.
  { unfold remove_trace. cbn zeta. rewrite (pymod_probe m k Hcap). cbn [bind].
    apply (remove_loop_trace_absent m k Hcap Hlen Habs (C + 1) 0); subst C; lia. }
  split; [assumption|]. split; [assumption|].
  split; [unfold probes; now rewrite length_map, length_seq|]. split.
  - unfold probes. rewrite !list_lookup_fmap.
    rewrite !lookup_seq_lt by lia. cbn [fmap option_fmap option_map Nat.add].
    f_equal. subst C. rewrite Z2Nat.id by lia.
    apply (probe_period _ 0). lia.
  - split.
    + rewrite <- get_trace_get, Hg. reflexivity.
    + rewrite <- remove_trace_remove, Hrm. reflexivity.
Qed.

Lemma C6_probes_of_absent_key_witness :
  let C := Z.to_nat (get_capacity ex_new) in
  get_trace "a" ex_new = Ret (PyNone, probes ex_new "a" (C + 1)) /\
  remove_trace "a" ex_new = Ret (ex_new, probes ex_new "a" (C + 1)) /\
  length (probes ex_new "a" (C + 1)) = (C + 1)%nat /\
  probes ex_new "a" (C + 1) !! C = probes ex_new "a" (C + 1) !! 0%nat /\
  get "a" ex_new = Ret PyNone /\ remove "a" ex_new = Ret ex_new.
Proof.
  apply (C6_probes_of_absent_key ex_new "a"); [reflexivity|now vm_compute|].
  intros [|[|[|i]]] b Hb; cbn in Hb; try discriminate; now injection Hb as <-.
Defined.

(** ** [resize_table] on a table without the defect of C3 *)

(** While no key is live in two slots, [get] reads the live content. *)
Lemma get_live {V} (m : HashMap V) (k : string) (v : object V) :
  wf m -> unique_keys m -> live_in m k v -> get k m = Ret v.
Proof.
  intros Hwf Hu (i & e & Hl & Ht & Hk & Hv).
  pose proof (wf_capacity_ge_2 m Hwf) as H2.
  destruct (wf_probe m Hwf i e Hl Ht) as (j & Hj & Hij).
  assert (slot m k j = i) as Hs by (unfold slot; rewrite <- Hk, <- Hij; lia).
  destruct (get_found m k ltac:(lia) (wf_length m Hwf) j e Hj)
    as (j' & e' & _ & Hl' & Hh' & Hget).
  - now rewrite Hs.
  - cbn. rewrite Hk, String.eqb_refl, Ht. reflexivity.
  - rewrite Hget, <- Hv. do 2 f_equal.
    cbn in Hh'. apply andb_true_iff in Hh'. destruct Hh' as [Hk' Ht'].
    apply String.eqb_eq in Hk'. apply negb_true_iff in Ht'.
    assert (slot m k j' = i) as Hs'
        by (apply (Hu _ _ e' e); [assumption..|congruence]).
    rewrite Hs' in Hl'. congruence.
Qed.

Lemma get_not_live {V} (m : HashMap V) (k : string) :
  wf m -> (forall v, ~ live_in m k v) -> get k m = Ret PyNone.
Proof.
  intros Hwf Hn. pose proof (wf_capacity_ge_2 m Hwf) as H2.
  apply get_of_absent; [lia|apply (wf_length m Hwf)|].
  intros i b Hb. destruct (holds k b) eqn:Hh; [exfalso|reflexivity].
  destruct b as [e|]; [|discriminate].
  apply (Hn (value e)). now apply (holds_live_in m k i e).
Qed.

Lemma live_or_not {V} (m : HashMap V) (k : string) :
  (exists v, live_in m k v) \/ (forall v, ~ live_in m k v).
Proof.
  destruct (bounded_search
              (fun i => match _buckets m !! Z.to_nat i with
                        | Some b => holds k b | None => false end)
              (length (_buckets m))) as [Hnone | (J & HJ & HP)].
  - right. intros v (i & e & Hl & Ht & Hk & Hv).
    pose proof (lookup_lt_Some _ _ _ Hl) as Hlt.
    specialize (Hnone (Z.of_nat i) ltac:(lia)).
    rewrite Nat2Z.id, Hl in Hnone. cbn in Hnone.
    rewrite Hk, String.eqb_refl, Ht in Hnone. discriminate.
  - left. destruct (_buckets m !! Z.to_nat J) as [[e|]|] eqn:Hl; try discriminate.
    exists (value e). now apply (holds_live_in m k (Z.to_nat J) e).
Qed.

(** In a reachable table where no key is live in two slots, [resize_table]
    with a capacity not below the size returns and leaves the answer of
    [get] unchanged for every key. *)
Lemma resize_table_preserves_get {V} (m : HashMap V) (c : Z) :
  reachable m -> unique_keys m -> get_size m <= c ->
  exists m', ev (fun n => resize_table n c m) m' /\
             forall k, get k m' = get k m.
Proof.
  intros Hr Hu Hc. apply reachable_wf in Hr.
  destruct (resize_table_ok m c Hr Hc) as (m' & Hev & Hwf' & _ & _ & Hsame).
  destruct (Hsame Hu) as [Hu' Hcont].
  exists m'. split; [assumption|]. intros k.
  destruct (live_or_not m k) as [[v Hl] | Hn].
  - rewrite (get_live m k v Hr Hu Hl). apply get_live; [assumption..|].
    now apply Hcont.
  - rewrite (get_not_live m k Hr Hn). apply get_not_live; [assumption|].
    intros v Hl. apply (Hn v). now apply Hcont.
Qed.

(** * Further properties of the code *)

(** ** [_is_prime] and [_next_prime] *)

Lemma odd_mod_2 (c : Z) : Z.odd c = (c mod 2 =? 1).
Proof. now rewrite <- Z.bit0_odd, Z.bit0_eqb. Qed.

(** X1: [_is_prime] returns for every integer, and for a non-negative one
    it answers [True] exactly when the number is a prime. *)
Theorem X1_is_prime_decides (capacity : Z) :
  0 <= capacity ->
  exists b, _is_prime capacity = Ret b /\ (b = true <-> Z.prime capacity).
Proof.
  intros Hc. destruct (_is_prime_total capacity) as [b Hb].
  exists b. split; [assumption|]. split.
  - intros ->. now apply _is_prime_sound.
  - intros Hp. apply _is_prime_complete in Hp. congruence.
Qed.

Lemma X1_is_prime_decides_witness :
  exists b, _is_prime 91 = Ret b /\ (b = true <-> Z.prime 91).
Proof. apply (X1_is_prime_decides 91). lia. Defined.

(** X2: below zero [_is_prime] answers [True] for every odd number and
    [False] for every even one, although no negative number is a prime. *)
Theorem X2_is_prime_below_zero (capacity : Z) :
  capacity < 0 ->
  _is_prime capacity = Ret (Z.odd capacity) /\ ~ Z.prime capacity.
Proof.
  intros Hc. split.
  - rewrite (_is_prime_negative capacity Hc). f_equal.
    rewrite odd_mod_2. destruct (Z.eqb_spec (capacity mod 2) 0) as [-> | Hne];
      [reflexivity|].
    pose proof (Z.mod_pos_bound capacity 2 ltac:(lia)).
    replace (capacity mod 2) with 1 by lia. reflexivity.
  - intros [H _]. lia.
Qed.

Lemma X2_is_prime_below_zero_witness :
  _is_prime (-9) = Ret (Z.odd (-9)) /\ ~ Z.prime (-9).
Proof. apply (X2_is_prime_below_zero (-9)). lia. Defined.

(** What the loop of [_next_prime] has passed when it returns. *)
Lemma _next_prime_loop_first (n : nat) (c r : Z) :
  _next_prime_loop n c = Ret r ->
  _is_prime r = Ret true /\
  exists d, 0 <= d /\ r = c + 2 * d /\
            forall j, 0 <= j < d -> _is_prime (c + 2 * j) = Ret false.
Proof.
  revert c. induction n as [|n IH]; intros c H; [discriminate|].
  cbn [_next_prime_loop] in H.
  destruct (_is_prime c) as [[|]| |] eqn:Hp; cbn in H; try discriminate.
  - injection H as <-. split; [assumption|]. exists 0. split; [lia|].
    split; [lia|]. intros; lia.
  - destruct (IH _ H) as (Hr & d & Hd & -> & Hpre).
    split; [assumption|]. exists (d + 1). split; [lia|]. split; [lia|].
    intros j Hj. destruct (Z.eq_dec j 0) as [-> | Hne].
    + now rewrite Z.add_0_r.
    + replace (c + 2 * j) with (c + 2 + 2 * (j - 1)) by lia. apply Hpre. lia.
Qed.

(** [_next_prime] finds the least odd prime that is not below the request. *)
Lemma _next_prime_least (capacity : Z) :
  0 <= capacity ->
  exists r, ev (fun n => _next_prime n capacity) r /\
            capacity <= r /\ Z.prime r /\ Z.odd r = true /\
            forall p, Z.prime p -> Z.odd p = true -> capacity <= p -> r <= p.
Proof.
  intros Hc.
  destruct (_next_prime_prime capacity Hc) as (r & Hev & Hle & Hodd & Hp & _).
  exists r. split; [assumption|]. split; [assumption|]. split; [assumption|].
  split; [rewrite odd_mod_2, Hodd; reflexivity|].
  intros p Hpp Hpo Hcp.
  destruct (Z.le_gt_cases r p) as [|Hlt]; [assumption|exfalso].
  destruct Hev as [N HN]. specialize (HN N (Nat.le_refl N)).
  unfold _next_prime in HN.
  apply _next_prime_loop_first in HN. destruct HN as (_ & d & Hd & Hr & Hpre).
  rewrite odd_mod_2 in Hpo. apply Z.eqb_eq in Hpo.
  pose proof (Z.div_mod p 2 ltac:(lia)) as Hdp.
  pose proof (Z.div_mod capacity 2 ltac:(lia)) as Hdc.
  pose proof (Z.mod_pos_bound capacity 2 ltac:(lia)) as Hbc.
  assert (_is_prime p = Ret false) as Hf.
  { destruct (Z.eqb_spec (capacity mod 2) 0) as [He | Hne].
    - replace p with (capacity + 1 + 2 * (p / 2 - capacity / 2)) by lia.
      apply Hpre. lia.
    - replace p with (capacity + 2 * (p / 2 - capacity / 2)) by lia.
      apply Hpre. lia. }
  rewrite (_is_prime_complete p Hpp) in Hf. discriminate.
Qed.

(** X3: for a non-negative request [_next_prime] returns, and what it
    returns is the least odd prime that is not below the request; it is
    never 2. *)
Theorem X3_next_prime_least_odd_prime (capacity : Z) :
  0 <= capacity ->
  exists r, ev (fun n => _next_prime n capacity) r /\
            capacity <= r /\ Z.prime r /\ Z.odd r = true /\
            forall p, Z.prime p -> Z.odd p = true -> capacity <= p -> r <= p.
Proof. apply _next_prime_least. Qed.

Lemma X3_next_prime_least_odd_prime_witness :
  exists r, ev (fun n => _next_prime n 2) r /\
            2 <= r /\ Z.prime r /\ Z.odd r = true /\
            forall p, Z.prime p -> Z.odd p = true -> 2 <= p -> r <= p.
Proof. apply (X3_next_prime_least_odd_prime 2). lia. Defined.

(** ** [empty_buckets] and [get_keys_and_values] *)

Lemma for_loop_ext {S} (idxs : list Z) (body body' : Z -> S -> outcome S) :
  (forall i s, body i s = body' i s) ->
  forall s, for_loop idxs body s = for_loop idxs body' s.
Proof.
  intros Hb. induction idxs as [|i r IH]; intros s; cbn; [reflexivity|].
  rewrite Hb. destruct (body' i s); cbn; auto.
Qed.

(** A [for] loop that reads the slots below a bound and updates an
    accumulator is a left fold over these slots. *)
Lemma for_loop_fold {S A} (g : A -> S -> S) (bs : list A) (n a : nat) (s : S) :
  (a + n <= length bs)%nat ->
  for_loop (map Z.of_nat (seq a n))
    (fun idx s => let* b := da_get bs idx in Ret (g b s)) s
  = Ret (fold_left (fun s b => g b s) (take n (drop a bs)) s).
Proof.
  revert a s. induction n as [|n IH]; intros a s Hlen; [reflexivity|].
  destruct (lookup_lt_is_Some_2 bs a ltac:(lia)) as [b Hb].
  rewrite (drop_S _ _ _ Hb). cbn [seq map for_loop take fold_left].
  rewrite (da_get_Ret bs (Z.of_nat a) b); [|lia|now rewrite Nat2Z.id].
  cbn [bind]. apply IH. lia.
Qed.

Lemma count_free_fold {V} (l : list (option (HashEntry V))) (s : Z) :
  fold_left (fun s b => if is_free b then s + 1 else s) l s
  = s + (Z.of_nat (length l) - count_live l).
Proof.
  revert s. induction l as [|b l IH]; intros s; cbn [fold_left length count_live];
    [lia|].
  rewrite IH. unfold is_live. destruct (is_free b); cbn [negb]; lia.
Qed.

Lemma pairs_fold {V} (l : list (option (HashEntry V))) (acc : list (string * object V)) :
  fold_left (fun acc b => match b with
                          | Some bucket =>
                              if is_tombstone bucket then acc
                              else da_append acc (key bucket, value bucket)
                          | None => acc
                          end) l acc
  = (acc ++ map (fun e => (key e, value e)) (live_entries l))%list.
Proof.
  revert acc. induction l as [|[e|] l IH]; intros acc; cbn [fold_left live_entries].
  - now rewrite app_nil_r.
  - rewrite IH. destruct (is_tombstone e); [reflexivity|].
    unfold da_append. cbn [map]. now rewrite <- app_assoc.
  - apply IH.
Qed.

Lemma empty_buckets_wf {V} (m : HashMap V) :
  wf m -> empty_buckets m = Ret (_capacity m - _size m).
Proof.
  intros Hwf. pose proof (wf_capacity_ge_2 m Hwf) as H2.
  pose proof (wf_length m Hwf) as Hlen. unfold da_length in Hlen.
  unfold empty_buckets, range. cbn zeta.
  rewrite (for_loop_ext _ _
             (fun idx count => let* b := da_get (_buckets m) idx in
                               Ret (if is_free b then count + 1 else count))).
  2:{ intros i s. destruct (da_get (_buckets m) i) as [b| |]; cbn; [|reflexivity..].
      now destruct (is_free b). }
  rewrite (for_loop_fold (fun b s => if is_free b then s + 1 else s)) by lia.
  rewrite drop_0, count_free_fold. f_equal.
  rewrite <- length_live_entries, live_entries_take, length_live_entries by assumption.
  rewrite <- (wf_size m Hwf), length_take. lia.
Qed.

Lemma get_keys_and_values_wf {V} (m : HashMap V) :
  wf m ->
  get_keys_and_values m
  = Ret (map (fun e => (key e, value e)) (live_entries (_buckets m))).
Proof.
  intros Hwf. pose proof (wf_capacity_ge_2 m Hwf) as H2.
  pose proof (wf_length m Hwf) as Hlen. unfold da_length in Hlen.
  unfold get_keys_and_values, range. cbn zeta.
  rewrite (for_loop_ext _ _
             (fun idx acc => let* b := da_get (_buckets m) idx in
                Ret (match b with
                     | Some bucket =>
                         if is_tombstone bucket then acc
                         else da_append acc (key bucket, value bucket)
                     | None => acc
                     end))).
  2:{ intros i s. destruct (da_get (_buckets m) i) as [[e|]| |]; cbn;
        [|reflexivity..]. now destruct (is_tombstone e). }
  rewrite (for_loop_fold (fun b acc => match b with
                          | Some bucket =>
                              if is_tombstone bucket then acc
                              else da_append acc (key bucket, value bucket)
                          | None => acc
                          end)) by lia.
  rewrite drop_0, pairs_fold, live_entries_take by assumption. reflexivity.
Qed.

(** X4: on every reachable table [empty_buckets] returns
    [capacity - size]: the slots that are Empty or Tombstoned and the
    entries counted by [get_size()] add up to [get_capacity()]. *)
Theorem X4_empty_buckets {V} (m : HashMap V) :
  reachable m ->
  empty_buckets m = Ret (get_capacity m - get_size m) /\
  0 < get_capacity m - get_size m.
Proof.
  intros Hr. apply reachable_wf in Hr. split; [now apply empty_buckets_wf|].
  pose proof (wf_load m Hr). pose proof (wf_capacity_ge_2 m Hr).
  unfold get_capacity, get_size. lia.
Qed.

Lemma X4_empty_buckets_witness :
  empty_buckets ex_d = Ret (get_capacity ex_d - get_size ex_d) /\
  0 < get_capacity ex_d - get_size ex_d.
Proof. apply (X4_empty_buckets ex_d). apply reachable_ex_d. Defined.

(** X5: on every reachable table [get_keys_and_values] returns the pairs of
    the Occupied slots in slot order, tombstones left out; there are
    [get_size()] of them, and each pair is live in the table. *)
Theorem X5_get_keys_and_values {V} (m : HashMap V) :
  reachable m ->
  exists kvs,
    get_keys_and_values m = Ret kvs /\
    kvs = map (fun e => (key e, value e)) (live_entries (_buckets m)) /\
    da_length kvs = get_size m /\
    forall k v, (k, v) ∈ kvs <-> live_in m k v.
Proof.
  intros Hr. apply reachable_wf in Hr.
  exists (map (fun e => (key e, value e)) (live_entries (_buckets m))).
  split; [now apply get_keys_and_values_wf|]. split; [reflexivity|]. split.
  - unfold da_length, get_size. rewrite length_map, length_live_entries.
    symmetry. apply (wf_size m Hr).
  - intros k v. rewrite live_in_entries. split.
    + intros Hin. apply list_elem_of_fmap in Hin. destruct Hin as (e & Heq & He).
      injection Heq as -> ->. now exists e.
    + intros (e & He & <- & <-).
      apply (list_elem_of_fmap_2 (fun e => (key e, value e))), He.
Qed.

Lemma X5_get_keys_and_values_witness :
  exists kvs,
    get_keys_and_values ex_d = Ret kvs /\
    kvs = map (fun e => (key e, value e)) (live_entries (_buckets ex_d)) /\
    da_length kvs = get_size ex_d /\
    forall k v, (k, v) ∈ kvs <-> live_in ex_d k v.
Proof. apply (X5_get_keys_and_values ex_d). apply reachable_ex_d. Defined.

(** ** No operation fails on a reachable table *)

Lemma get_cases {V} (m : HashMap V) (k : string) :
  0 < _capacity m -> _capacity m <= da_length (_buckets m) ->
  get k m = Ret PyNone \/
  exists j e, 0 <= j <= _capacity m /\
    _buckets m !! slot m k j = Some (Some e) /\ holds k (Some e) = true /\
    get k m = Ret (value e).
Proof.
  intros Hcap Hlen.
  destruct (bounded_search
              (fun i => match _buckets m !! slot m k i with
                        | Some b => holds k b | None => false end)
              (Z.to_nat (_capacity m + 1))) as [Hnone | (J & HJ & HP)].
  - left. apply get_absent; [assumption..|]. intros i Hi.
    destruct (slot_lookup m k Hcap Hlen i) as [b Hb].
    exists b. split; [assumption|]. specialize (Hnone i ltac:(lia)).
    now rewrite Hb in Hnone.
  - right. destruct (_buckets m !! slot m k J) as [[e|]|] eqn:Hb; try discriminate.
    destruct (get_found m k Hcap Hlen J e ltac:(lia) Hb HP)
      as (j & e' & Hj & Hb' & Hh' & Hget).
    exists j, e'. split; [lia|]. split; [assumption|]. split; assumption.
Qed.

Lemma get_returns {V} (m : HashMap V) (k : string) :
  wf m -> exists o, get k m = Ret o.
Proof.
  intros Hwf. pose proof (wf_capacity_ge_2 m Hwf) as H2.
  destruct (get_cases m k ltac:(lia) (wf_length m Hwf)) as [H | (j & e & _ & _ & _ & H)];
    eauto.
Qed.

(** X6: on every reachable table each of the nine operations [get],
    [contains_key], [table_load], [empty_buckets], [get_keys_and_values],
    [put], [remove], [clear] and [resize_table] returns: in them no probe
    index leaves the slot array, the capacity is never zero and every loop
    ends.  The first five return a value, the other four a table.  The
    iteration protocol is not among them: [__next__] can raise. *)
Theorem X6_operations_return {V} (m : HashMap V) :
  reachable m ->
  (forall k, exists o, get k m = Ret o) /\
  (forall k, exists b, contains_key k m = Ret b) /\
  (exists q, table_load m = Ret q) /\
  (exists n, empty_buckets m = Ret n) /\
  (exists kvs, get_keys_and_values m = Ret kvs) /\
  (forall k v, exists m', ev (fun n => put n k v m) m') /\
  (forall k, exists m', remove k m = Ret m') /\
  (exists m', ev (fun n => clear n m) m') /\
  (forall c, exists m', ev (fun n => resize_table n c m) m').
Proof.
  intros Hr. apply reachable_wf in Hr. pose proof (wf_capacity_ge_2 m Hr) as H2.
  split; [intros k; now apply get_returns|].
  split.
  { intros k. destruct (get_returns m k Hr) as [o Ho]. unfold contains_key.
    rewrite Ho. destruct o; cbn; eauto. }
  split; [eexists; apply table_load_Ret; lia|].
  split; [eexists; now apply empty_buckets_wf|].
  split; [eexists; now apply get_keys_and_values_wf|].
  split; [intros k v; destruct (put_ok m k v Hr) as (m' & Hev & _); eauto|].
  split; [intros k; destruct (remove_ok m k Hr) as (m' & Hrm & _); eauto|].
  split; [destruct (clear_ev m Hr) as (r & Hev & _); eauto|].
  intros c. destruct (Z.lt_ge_cases c (_size m)) as [Hlt | Hge].
  - exists m. exists 0%nat. intros n _.
    unfold resize_table, resize_table_with.
    destruct (Z.ltb_spec c (_size m)); [reflexivity|lia].
  - destruct (resize_table_ok m c Hr Hge) as (m' & Hev & _). eauto.
Qed.

Lemma X6_operations_return_witness :
  (forall k, exists o, get k ex_dd = Ret o) /\
  (forall k, exists b, contains_key k ex_dd = Ret b) /\
  (exists q, table_load ex_dd = Ret q) /\
  (exists n, empty_buckets ex_dd = Ret n) /\
  (exists kvs, get_keys_and_values ex_dd = Ret kvs) /\
  (forall k v, exists m', ev (fun n => put n k v ex_dd) m') /\
  (forall k, exists m', remove k ex_dd = Ret m') /\
  (exists m', ev (fun n => clear n ex_dd) m') /\
  (forall c, exists m', ev (fun n => resize_table n c ex_dd) m').
Proof. apply (X6_operations_return ex_dd). apply reachable_ex_dd. Defined.

(** ** The load factor of a reachable table *)

Lemma load_bound (s c : Z) :
  0 <= s -> 2 <= c -> 2 * (s - 1) < c ->
  (0 <= inject_Z s / inject_Z c <= 2 # 3)%Q.
Proof.
  intros Hs Hc Hl. destruct c as [|p|p]; try lia.
  unfold Qle, Qdiv, Qmult, Qinv, inject_Z. cbn.
  rewrite ?Pos.mul_1_l. split; nia.
Qed.

(** X7: the load factor of a reachable table never exceeds 2/3, whatever
    the operations that led to it: [table_load] returns a number between 0
    and 2/3. *)
Theorem X7_table_load_bound {V} (m : HashMap V) :
  reachable m -> exists q, table_load m = Ret q /\ (0 <= q <= 2 # 3)%Q.
Proof.
  intros Hr. apply reachable_wf in Hr. pose proof (wf_capacity_ge_2 m Hr) as H2.
  exists (inject_Z (_size m) / inject_Z (_capacity m))%Q.
  split; [apply table_load_Ret; lia|].
  apply load_bound; [apply (wf_size_le_capacity m Hr)|assumption|apply (wf_load m Hr)].
Qed.

Lemma X7_table_load_bound_witness :
  exists q, table_load ex_ab = Ret q /\ (0 <= q <= 2 # 3)%Q.
Proof. apply (X7_table_load_bound ex_ab). apply reachable_ex_ab. Defined.

(** ** Keys do not disturb one another *)

Lemma get_loop_step {V} (n : nat) (k : string) (h c i : Z) (m : HashMap V) :
  get_loop (S n) k h c i m =
  if c <=? _capacity m then
    let* b := da_get (_buckets m) i in
    match lookup_val k b with
    | Some v => Ret v
    | None => let* j := pymod (h + (c + 1) ^ 2) (_capacity m) in
              get_loop n k h (c + 1) j m
    end
  else Ret PyNone.
Proof.
  cbn [get_loop]. destruct (c <=? _capacity m); [|reflexivity].
  destruct (da_get (_buckets m) i) as [[e|]| |]; cbn; try reflexivity.
  now destruct (String.eqb (key e) k && negb (is_tombstone e)).
Qed.

(** [get] depends on the slot array only through what it reads for its
    key. *)
Lemma get_ext {V} (m m' : HashMap V) (k : string) :
  _capacity m' = _capacity m -> _hash_function m' k = _hash_function m k ->
  length (_buckets m') = length (_buckets m) ->
  (forall i b, _buckets m !! i = Some b ->
     exists b', _buckets m' !! i = Some b' /\ lookup_val k b' = lookup_val k b) ->
  get k m' = get k m.
Proof.
  intros Hc Hh Hlen Hlk.
  assert (forall i, (let* b := da_get (_buckets m') i in Ret (lookup_val k b))
                    = (let* b := da_get (_buckets m) i in Ret (lookup_val k b))) as Hget.
  { intros i. unfold da_get, da_length. rewrite Hlen.
    destruct ((i <? 0) || (Z.of_nat (length (_buckets m)) <=? i)); [reflexivity|].
    destruct (_buckets m !! Z.to_nat i) as [b|] eqn:Hb.
    - destruct (Hlk _ _ Hb) as (b' & Hb' & Hv). rewrite Hb'. cbn. now rewrite Hv.
    - apply lookup_ge_None in Hb. rewrite <- Hlen in Hb.
      apply lookup_ge_None in Hb. now rewrite Hb. }
  assert (forall n c i, get_loop n k (_hash_function m k) c i m'
                        = get_loop n k (_hash_function m k) c i m) as Hloop.
  { induction n as [|n IH]; intros c i; [reflexivity|].
    rewrite !get_loop_step, Hc. destruct (c <=? _capacity m); [|reflexivity].
    specialize (Hget i).
    destruct (da_get (_buckets m') i) as [b'| |], (da_get (_buckets m) i) as [b| |];
      cbn in Hget |- *; try congruence.
    injection Hget as ->.
    destruct (lookup_val k b); [reflexivity|].
    destruct (pymod _ _); cbn; auto. }
  unfold get. cbn zeta. rewrite Hh, Hc.
  destruct (pymod _ _); cbn; auto.
Qed.

Lemma lookup_val_holds {V} (k : string) (b : option (HashEntry V)) :
  holds k b = false -> lookup_val k b = None.
Proof. destruct b as [e|]; cbn; [|reflexivity]. now intros ->. Qed.

Lemma lookup_val_other {V} (k k' : string) (b : option (HashEntry V)) :
  k' <> k -> put_stops k b = true -> lookup_val k' b = None.
Proof.
  intros Hne Hs. apply lookup_val_holds.
  destruct b as [e|]; [|reflexivity]. cbn.
  rewrite put_stops_Some in Hs.
  destruct (is_tombstone e); [now rewrite andb_false_r|].
  cbn in Hs. apply String.eqb_eq in Hs.
  destruct (String.eqb_spec (key e) k'); [congruence|reflexivity].
Qed.

(** Writing a slot that [get] does not read for [k'], before or after. *)
Lemma get_insert_other {V} (m m' : HashMap V) (k' : string) (idx : nat)
  (b new : option (HashEntry V)) :
  _capacity m' = _capacity m -> _hash_function m' = _hash_function m ->
  _buckets m' = <[idx := new]> (_buckets m) ->
  _buckets m !! idx = Some b ->
  lookup_val k' b = None -> lookup_val k' new = None ->
  get k' m' = get k' m.
Proof.
  intros Hc Hh Hbs Hb Hold Hnew.
  apply get_ext; [assumption|now rewrite Hh|now rewrite Hbs, length_insert|].
  intros i b0 Hb0. rewrite Hbs.
  destruct (Nat.eq_dec idx i) as [<- | Hne].
  - exists new. rewrite list_lookup_insert_eq by (now apply lookup_lt_Some in Hb).
    split; [reflexivity|]. congruence.
  - exists b0. now rewrite list_lookup_insert_ne.
Qed.

Lemma same_content_get {V} (m m' : HashMap V) :
  wf m -> wf m' -> unique_keys m -> same_content m m' ->
  forall k, get k m' = get k m.
Proof.
  intros Hwf Hwf' Hu Hsame k. destruct (Hsame Hu) as [Hu' Hcont].
  destruct (live_or_not m k) as [[v Hl] | Hn].
  - rewrite (get_live m k v Hwf Hu Hl). apply get_live; [assumption..|].
    now apply Hcont.
  - rewrite (get_not_live m k Hwf Hn). apply get_not_live; [assumption|].
    intros v Hl. apply (Hn v). now apply Hcont.
Qed.

(** [put] below half load leaves the answer of [get] for every other key. *)
Lemma put_probe_frame {V} (m : HashMap V) (k : string) (v : object V) :
  wf m -> 2 * _size m < _capacity m ->
  exists m',
    (forall n, (Z.to_nat (_capacity m) < n)%nat -> put_probe n k v m = Ret m') /\
    forall k', k' <> k -> get k' m' = get k' m.
Proof.
  intros Hwf Hload.
  destruct (put_probe_spec m k v Hwf Hload) as (j & b & _ & _ & Hb & Hs & _ & Hrun).
  exists (put_at m k v (slot m k j) b). split; [assumption|].
  intros k' Hne.
  apply (get_insert_other m _ k' (slot m k j) b (Some (new_HashEntry k v)));
    try reflexivity; try assumption.
  - now apply (lookup_val_other k).
  - cbn. destruct (String.eqb_spec k k'); [congruence|reflexivity].
Qed.

(** X8: on a reachable table in which no key is live twice, [put(k, v)]
    acts as the update of a map: afterwards [get(k)] returns [v] and
    [get] of every other key returns what it returned before, also when
    [put] resized the table. *)
Theorem X8_put_updates_one_key {V} (m : HashMap V) (k : string) (v : object V) :
  reachable m -> unique_keys m ->
  exists m', ev (fun n => put n k v m) m' /\
             forall k', get k' m' = if String.eqb k' k then Ret v else get k' m.
Proof.
  intros Hr Hu. apply reachable_wf in Hr.
  pose proof (wf_capacity_ge_2 m Hr) as H2.
  destruct (put_ok m k v Hr) as (m' & Hev & _ & _ & _ & Hget & _).
  exists m'. split; [assumption|]. intros k'.
  destruct (String.eqb_spec k' k) as [-> | Hne]; [assumption|].
  destruct (Z.lt_ge_cases (2 * _size m) (_capacity m)) as [Hlow | Hhigh].
  - destruct (put_probe_frame m k v Hr Hlow) as (m1 & Hrun & Hfr).
    assert (m1 = m') as <-; [|now apply Hfr].
    apply (ev_unique _ _ _ (S (S (Z.to_nat (_capacity m))))
             (fun a b => put_mono a b k v m) Hev).
    rewrite put_low_load by lia. apply Hrun. lia.
  - destruct (resize_double_ok m Hr) as (m1 & [N1 HN1] & Hwf1 & _ & Hl1 & _ & Hsame).
    destruct (put_probe_frame m1 k v Hwf1 Hl1) as (m2 & Hrun & Hfr).
    assert (m2 = m') as <-.
    { apply (ev_unique _ _ _ (S (Nat.max N1 (S (Z.to_nat (_capacity m1)))))
               (fun a b => put_mono a b k v m) Hev).
      rewrite put_high_load by lia. cbn zeta. rewrite HN1 by lia. cbn [bind].
      apply Hrun. lia. }
    rewrite (Hfr k' Hne). now apply same_content_get.
Qed.

Lemma X8_put_updates_one_key_witness :
  exists m', ev (fun n => put n "b" (PyObj 7) ex_ad) m' /\
             forall k', get k' m' = if String.eqb k' "b" then Ret (PyObj 7)
                                    else get k' ex_ad.
Proof.
  apply (X8_put_updates_one_key ex_ad "b" (PyObj 7)); [apply reachable_ex_ad|].
  intros [|[|[|i]]] [|[|[|j]]] e1 e2 H1 H2 _ _ Hk; cbn in H1, H2;
    try discriminate; try reflexivity;
    injection H1 as <-; injection H2 as <-; discriminate.
Defined.

(** ** [remove] *)

Lemma holds_inv {V} (k : string) (e : HashEntry V) :
  holds k (Some e) = true -> key e = k /\ is_tombstone e = false.
Proof.
  cbn. intros H. apply andb_true_iff in H. destruct H as [Hk Ht].
  apply String.eqb_eq in Hk. apply negb_true_iff in Ht. now split.
Qed.

(** X9: on every reachable table [remove(k)] returns; it leaves the
    capacity and the answer of [get] for every other key; when [k] is not
    live the table is unchanged, and when it is live [get_size()] drops by
    one. If no key is live twice, [k] is gone afterwards: [get(k)] returns
    [None] and [contains_key(k)] returns [False]. *)
Theorem X9_remove {V} (m : HashMap V) (k : string) :
  reachable m ->
  exists m',
    remove k m = Ret m' /\ get_capacity m' = get_capacity m /\
    (forall k', k' <> k -> get k' m' = get k' m) /\
    ((forall v, ~ live_in m k v) -> m' = m) /\
    ((exists v, live_in m k v) -> get_size m' = get_size m - 1) /\
    (unique_keys m ->
     get k m' = Ret PyNone /\ contains_key k m' = Ret false /\ unique_keys m').
Proof.
  intros Hr. apply reachable_wf in Hr. pose proof (wf_capacity_ge_2 m Hr) as H2.
  destruct (remove_cases m k ltac:(lia) (wf_length m Hr))
    as [[Hall Hrm] | (j & e & Hj & Hb & Hh & Hrm)].
  - assert (forall v, ~ live_in m k v) as Hnot.
    { intros v (i & e & Hl & Ht & Hk & _).
      destruct (wf_probe m Hr i e Hl Ht) as (j & Hj & Hij).
      destruct (Hall j Hj) as (b & Hb & Hh).
      assert (slot m k j = i) as Hs by (unfold slot; rewrite <- Hk, <- Hij; lia).
      rewrite Hs, Hl in Hb. injection Hb as <-.
      cbn in Hh. now rewrite Hk, String.eqb_refl, Ht in Hh. }
    exists m. split; [assumption|]. split; [reflexivity|]. split; [reflexivity|].
    split; [reflexivity|]. split; [intros [v Hv]; now destruct (Hnot v)|].
    intros Hu. assert (get k m = Ret PyNone) as Hg by now apply get_not_live.
    split; [assumption|]. split; [unfold contains_key; now rewrite Hg|assumption].
  - destruct (holds_inv k e Hh) as [Hk Ht].
    pose proof (lookup_lt_Some _ _ _ Hb) as Hlt.
    set (m' := remove_at m (slot m k j) e).
    exists m'. split; [assumption|]. split; [reflexivity|]. split.
    { intros k' Hne.
      apply (get_insert_other m m' k' (slot m k j) (Some e)
               (Some (mkHashEntry (key e) (value e) true)));
        try reflexivity; try assumption.
      - cbn. rewrite Ht, Hk. destruct (String.eqb_spec k k'); [congruence|reflexivity].
      - cbn. now rewrite andb_false_r. }
    split; [intros Hnot; destruct (Hnot (value e));
             now apply (holds_live_in m k (slot m k j) e)|].
    split; [reflexivity|]. intros Hu.
    assert (forall i e', _buckets m' !! i = Some (Some e') -> is_tombstone e' = false ->
              i <> slot m k j /\ _buckets m !! i = Some (Some e')) as Hold.
    { intros i e' Hl Ht'. cbn in Hl.
      destruct (Nat.eq_dec (slot m k j) i) as [<- | Hne].
      - rewrite list_lookup_insert_eq in Hl by assumption.
        injection Hl as <-. discriminate.
      - rewrite list_lookup_insert_ne in Hl by assumption. split; congruence. }
    assert (get k m' = Ret PyNone) as Hg.
    { apply get_of_absent; [cbn; lia| |].
      - unfold da_length. cbn. rewrite length_insert. apply (wf_length m Hr).
      - intros i b Hl. destruct (holds k b) eqn:Hhb; [exfalso|reflexivity].
        destruct b as [e'|]; [|discriminate].
        destruct (holds_inv k e' Hhb) as [Hk' Ht'].
        destruct (Hold i e' Hl Ht') as [Hne Hl'].
        apply Hne. apply (Hu i (slot m k j) e' e); congruence. }
    split; [assumption|]. split; [unfold contains_key; now rewrite Hg|].
    intros i i' e1 e2 Hl1 Hl2 Ht1 Ht2 Hkk.
    destruct (Hold i e1 Hl1 Ht1) as [_ Ho1]. destruct (Hold i' e2 Hl2 Ht2) as [_ Ho2].
    now apply (Hu i i' e1 e2).
Qed.

Lemma X9_remove_witness :
  exists m',
    remove "a" ex_ad = Ret m' /\ get_capacity m' = get_capacity ex_ad /\
    (forall k', k' <> "a" -> get k' m' = get k' ex_ad) /\
    ((forall v, ~ live_in ex_ad "a" v) -> m' = ex_ad) /\
    ((exists v, live_in ex_ad "a" v) -> get_size m' = get_size ex_ad - 1) /\
    (unique_keys ex_ad ->
     get "a" m' = Ret PyNone /\ contains_key "a" m' = Ret false /\ unique_keys m').
Proof. apply (X9_remove ex_ad "a"). apply reachable_ex_ad. Defined.

(** ** Invariants of [put] and [resize_table] *)

Lemma ev_same {A} (f : nat -> outcome A) (r r' : A) : ev f r -> ev f r' -> r = r'.
Proof.
  intros [N HN] [N' HN'].
  specialize (HN (Nat.max N N') ltac:(lia)). specialize (HN' (Nat.max N N') ltac:(lia)).
  congruence.
Qed.

(** The resize that [put] starts settles on [_next_prime] of twice the
    capacity. *)
Lemma resize_table_with_start_double {V} (m : HashMap V) :
  wf m ->
  exists r N, ev (fun n => _next_prime n (_capacity m * 2)) r /\
    Z.prime r /\ 2 * _capacity m < r /\
    forall n P, (N <= n)%nat ->
      resize_table_with P n (_capacity m * 2) m =
      reinsert P (take (Z.to_nat (_capacity m)) (_buckets m)) (blank m r).
Proof.
  intros Hwf. pose proof (wf_capacity_ge_2 m Hwf) as H2.
  pose proof (wf_size_le_capacity m Hwf) as Hs.
  destruct (_next_prime_prime (_capacity m * 2) ltac:(lia))
    as (r & Hev & Hle & Hodd & Hp & _).
  assert (2 * _capacity m < r) as Hlt.
  { assert (r <> _capacity m * 2); [|lia].
    intros ->. rewrite Z.mod_mul in Hodd by lia. discriminate. }
  destruct Hev as [N1 HN1]. destruct (clear_ev m Hwf) as (r0 & [N2 HN2] & Hr0).
  exists r, (Nat.max N1 N2). split; [now exists N1|]. split; [assumption|].
  split; [assumption|]. intros n P Hn. unfold resize_table_with.
  destruct (Z.ltb_spec (_capacity m * 2) (_size m)); [lia|].
  assert (_is_prime (_capacity m * 2) = Ret false) as ->.
  { unfold _is_prime.
    destruct (Z.eqb_spec (_capacity m * 2) 2); [lia|].
    destruct (Z.eqb_spec (_capacity m * 2) 3); [lia|].
    rewrite Z.mod_mul by lia. cbn. now rewrite orb_true_r. }
  cbn [bind negb]. rewrite HN1 by lia. cbn [bind]. rewrite HN2 by lia. cbn [bind].
  rewrite append_loop_range. unfold range.
  rewrite for_loop_reinsert.
  - rewrite drop_0. reflexivity.
  - pose proof (wf_length m Hwf). unfold da_length in *. lia.
Qed.

Section Invariant.
Context {V : Type}.
Variable K : HashMap V -> Prop.
Hypothesis K_blank : forall (m : HashMap V) (r : Z), K (blank m r).
Hypothesis K_put_at :
  forall (t : HashMap V) (k : string) (v : object V) (j : Z) b,
    wf t -> K t -> 0 <= j <= _capacity t ->
    _buckets t !! slot t k j = Some b -> put_stops k b = true ->
    (forall i, 0 <= i < j ->
       exists b', _buckets t !! slot t k i = Some b' /\ put_stops k b' = false) ->
    K (put_at t k v (slot t k j) b).

Lemma put_probe_inv (t : HashMap V) (k : string) (v : object V) :
  wf t -> 2 * _size t < _capacity t -> K t ->
  exists t',
    (forall n, (Z.to_nat (_capacity t) < n)%nat -> put_probe n k v t = Ret t') /\
    wf t' /\ K t' /\ frame t t' /\ _capacity t' = _capacity t /\
    _size t <= _size t' <= _size t + 1.
Proof.
  intros Hwf Hload HK. pose proof (wf_capacity_ge_2 t Hwf) as H2.
  destruct (put_probe_spec t k v Hwf Hload) as (j & b & Hj0 & Hj & Hb & Hs & Hpre & Hrun).
  exists (put_at t k v (slot t k j) b). split; [assumption|].
  split; [apply put_at_wf; [assumption|assumption|lia|assumption]|].
  split; [apply K_put_at; [assumption|assumption|lia|assumption..]|].
  split; [now split|]. split; [reflexivity|]. cbn. destruct (is_free b); lia.
Qed.

Lemma resize_double_inv (m : HashMap V) :
  wf m ->
  exists m' r,
    ev (fun n => _next_prime n (_capacity m * 2)) r /\
    ev (fun n => resize_table_with (put n) n (_capacity m * 2) m) m' /\
    wf m' /\ K m' /\ frame m m' /\ _capacity m' = r /\
    2 * _capacity m < r /\ _size m' <= _size m.
Proof.
  intros Hwf. pose proof (wf_capacity_ge_2 m Hwf) as H2.
  pose proof (wf_size_le_capacity m Hwf) as Hs.
  destruct (resize_table_with_start_double m Hwf) as (r & N & Hev & Hp & Hlt & Hstart).
  set (old := take (Z.to_nat (_capacity m)) (_buckets m)) in *.
  assert (Z.of_nat (length (live_entries old)) = _size m) as Hlive.
  { subst old. rewrite live_entries_take by assumption.
    rewrite length_live_entries. symmetry. apply (wf_size m Hwf). }
  destruct (reinsert_ev put
    (fun pre t => wf t /\ K t /\ frame m t /\ _capacity t = r /\
                  _size t <= Z.of_nat (length pre)) old) with (t := blank m r)
    as (m' & Hev' & HJ).
  - intros pre e rest t Hsplit (Hwt & HKt & [Hfh Hfi] & Hct & Hst).
    assert (Z.of_nat (length pre) < _size m) as Hpre.
    { rewrite <- Hlive, Hsplit, length_app. cbn [length]. lia. }
    destruct (put_probe_inv t (key e) (value e) Hwt ltac:(lia) HKt)
      as (t' & Hrun & Hwt' & HKt' & [Hh Hi] & Hct' & Hst').
    exists t'. split.
    + exists (S (S (Z.to_nat (_capacity t)))). intros [|n] Hn; [lia|].
      rewrite put_low_load by lia. apply Hrun. lia.
    + split; [assumption|]. split; [assumption|]. split; [split; congruence|].
      split; [congruence|]. rewrite length_app. cbn [length]. lia.
  - split; [now apply blank_wf|]. split; [apply K_blank|]. split; [now split|].
    split; [reflexivity|]. cbn. lia.
  - destruct HJ as (Hwm' & HKm' & Hfr & Hcm' & Hsm').
    exists m', r. split; [assumption|]. split.
    + destruct Hev' as [N' HN']. exists (Nat.max N N'). intros n Hn.
      rewrite Hstart by lia. apply HN'. lia.
    + split; [assumption|]. split; [assumption|]. split; [assumption|].
      split; [assumption|]. split; [assumption|]. lia.
Qed.

Lemma put_inv (m : HashMap V) (k : string) (v : object V) :
  wf m -> K m ->
  exists m', ev (fun n => put n k v m) m' /\ wf m' /\ K m' /\ frame m m' /\
             _size m' <= _size m + 1.
Proof.
  intros Hwf HK. pose proof (wf_capacity_ge_2 m Hwf) as H2.
  pose proof (wf_size_le_capacity m Hwf) as Hsc.
  destruct (Z.lt_ge_cases (2 * _size m) (_capacity m)) as [Hlow | Hhigh].
  - destruct (put_probe_inv m k v Hwf Hlow HK)
      as (m' & Hrun & Hwf' & HK' & Hfr & _ & Hs).
    exists m'. split; [|split; [assumption|split; [assumption|split; [assumption|lia]]]].
    exists (S (S (Z.to_nat (_capacity m)))). intros [|n] Hn; [lia|].
    rewrite put_low_load by lia. apply Hrun. lia.
  - destruct (resize_double_inv m Hwf)
      as (m1 & r & _ & [N1 HN1] & Hwf1 & HK1 & [Hh1 Hi1] & Hc1 & Hlt & Hs1).
    destruct (put_probe_inv m1 k v Hwf1 ltac:(lia) HK1)
      as (m' & Hrun & Hwf' & HK' & [Hh' Hi'] & _ & Hs).
    exists m'. split; [|split; [assumption|split; [assumption|split;
                          [split; congruence|lia]]]].
    exists (S (Nat.max N1 (S (Z.to_nat (_capacity m1))))).
    intros [|n] Hn; [lia|].
    rewrite put_high_load by lia. cbn zeta. rewrite HN1 by lia. cbn [bind].
    apply Hrun. lia.
Qed.

Lemma resize_table_inv (m : HashMap V) (c : Z) :
  wf m -> _size m <= c ->
  exists m', ev (fun n => resize_table n c m) m' /\ wf m' /\ K m' /\
             _size m' <= _size m.
Proof.
  intros Hwf Hc.
  destruct (resize_table_with_start m c Hwf Hc) as (r & N & Hle & Hp & _ & Hstart).
  set (old := take (Z.to_nat (_capacity m)) (_buckets m)) in *.
  assert (Z.of_nat (length (live_entries old)) = _size m) as Hlive.
  { subst old. rewrite live_entries_take by assumption.
    rewrite length_live_entries. symmetry. apply (wf_size m Hwf). }
  destruct (reinsert_ev put
    (fun pre t => wf t /\ K t /\ _size t <= Z.of_nat (length pre)) old)
    with (t := blank m r) as (m' & Hev' & HJ).
  - intros pre e rest t Hsplit (Hwt & HKt & Hst).
    destruct (put_inv t (key e) (value e) Hwt HKt) as (t' & Hev & Hwt' & HKt' & _ & Hst').
    exists t'. split; [assumption|]. split; [assumption|]. split; [assumption|].
    rewrite length_app. cbn [length]. lia.
  - split; [now apply blank_wf|]. split; [apply K_blank|]. cbn. lia.
  - destruct HJ as (Hwm' & HKm' & Hsm').
    exists m'. split; [|split; [assumption|split; [assumption|lia]]].
    destruct Hev' as [N' HN']. exists (Nat.max N N'). intros n Hn.
    unfold resize_table. rewrite Hstart by lia. apply HN'. lia.
Qed.

End Invariant.

(** *** Tables without tombstones *)

Lemma blank_lookup {V} (m : HashMap V) (r : Z) (i : nat) (e : HashEntry V) :
  _buckets (blank m r) !! i = Some (Some e) -> False.
Proof. cbn. intros H. apply lookup_replicate in H. destruct H; discriminate. Qed.

Lemma put_at_lookup {V} (t : HashMap V) (k : string) (v : object V) (idx i : nat)
  (b : option (HashEntry V)) (e : HashEntry V) :
  _buckets (put_at t k v idx b) !! i = Some (Some e) ->
  (i = idx /\ e = new_HashEntry k v) \/ (i <> idx /\ _buckets t !! i = Some (Some e)).
Proof.
  cbn. intros Hl. apply list_lookup_insert_Some in Hl.
  destruct Hl as [(-> & Heq & _) | (Hne & Hl)].
  - left. split; congruence.
  - right. split; congruence.
Qed.

Lemma put_at_lookup_Some {V} (t : HashMap V) (k : string) (v : object V) (idx i : nat)
  (b : option (HashEntry V)) (e : HashEntry V) :
  _buckets t !! i = Some (Some e) ->
  exists e', _buckets (put_at t k v idx b) !! i = Some (Some e').
Proof.
  intros Hl. cbn. destruct (Nat.eq_dec idx i) as [<- | Hne].
  - exists (new_HashEntry k v). apply list_lookup_insert_eq.
    now apply lookup_lt_Some in Hl.
  - exists e. now rewrite list_lookup_insert_ne.
Qed.

Lemma put_stops_false {V} (k : string) (b : option (HashEntry V)) :
  put_stops k b = false ->
  exists e, b = Some e /\ is_tombstone e = false /\ key e <> k.
Proof.
  destruct b as [e|]; [|discriminate]. rewrite put_stops_Some.
  intros H. apply orb_false_iff in H. destruct H as [Ht Hk].
  exists e. split; [reflexivity|]. split; [assumption|].
  intros Heq. rewrite Heq, String.eqb_refl in Hk. discriminate.
Qed.

(** [put] keeps a table free of tombstones and keeps the probe chains. *)
Lemma tidy_put_at {V} (t : HashMap V) (k : string) (v : object V) (j : Z) b :
  wf t -> no_tombstones t /\ chain t -> 0 <= j <= _capacity t ->
  _buckets t !! slot t k j = Some b -> put_stops k b = true ->
  (forall i, 0 <= i < j ->
     exists b', _buckets t !! slot t k i = Some b' /\ put_stops k b' = false) ->
  no_tombstones (put_at t k v (slot t k j) b) /\ chain (put_at t k v (slot t k j) b).
Proof.
  intros Hwf [Hnt Hch] Hj Hb Hs Hpre. pose proof (wf_capacity_ge_2 t Hwf) as H2.
  split.
  - intros i e Hl. apply put_at_lookup in Hl.
    destruct Hl as [[_ ->] | [_ Hl]]; [reflexivity|now apply (Hnt i)].
  - intros i e Hl Ht. apply put_at_lookup in Hl.
    destruct Hl as [[-> ->] | [Hne Hl]].
    + exists j. split; [assumption|]. split; [apply (slot_probe t k ltac:(lia))|].
      intros j' Hj'. destruct (Hpre j' Hj') as (b' & Hb' & Hs').
      destruct (put_stops_false k b' Hs') as (e' & -> & _).
      apply (put_at_lookup_Some t k v _ _ b e' Hb').
    + destruct (Hch i e Hl Ht) as (je & Hje & Hi & Hearlier).
      exists je. split; [assumption|]. split; [assumption|].
      intros j' Hj'. destruct (Hearlier j' Hj') as (e' & He').
      apply (put_at_lookup_Some t k v _ _ b e' He').
Qed.

Lemma tidy_blank {V} (m : HashMap V) (r : Z) :
  no_tombstones (blank m r) /\ chain (blank m r).
Proof.
  split; intros i e Hl; now destruct (blank_lookup m r i e).
Qed.

(** In a clean table [put] finds a free slot exactly when the key is not
    live. *)
Lemma clean_first_stop {V} (t : HashMap V) (k : string) (j : Z) b :
  wf t -> clean t -> 0 <= j <= _capacity t ->
  _buckets t !! slot t k j = Some b -> put_stops k b = true ->
  (forall i, 0 <= i < j ->
     exists b', _buckets t !! slot t k i = Some b' /\ put_stops k b' = false) ->
  (is_free b = true <-> forall v0, ~ live_in t k v0).
Proof.
  intros Hwf (Hnt & Hch & Hu) Hj Hb Hs Hpre.
  pose proof (wf_capacity_ge_2 t Hwf) as H2. split.
  - intros Hf v0 (i & e & Hl & Ht & Hk & _).
    assert (b = None) as ->.
    { destruct b as [e0|]; [|reflexivity]. cbn in Hf.
      rewrite (Hnt _ _ Hb) in Hf. discriminate. }
    destruct (Hch i e Hl Ht) as (je & Hje & Hi & Hearlier). rewrite Hk in *.
    assert (slot t k je = i) as Hsl by (unfold slot; rewrite <- Hi; lia).
    destruct (Z.lt_trichotomy je j) as [Hlt | [-> | Hgt]].
    + destruct (Hpre je ltac:(lia)) as (b' & Hb' & Hs').
      rewrite Hsl, Hl in Hb'. injection Hb' as <-.
      rewrite put_stops_Some, Ht, Hk, String.eqb_refl in Hs'. discriminate.
    + rewrite Hsl, Hl in Hb. discriminate.
    + destruct (Hearlier j ltac:(lia)) as (e' & He'). rewrite Hb in He'. discriminate.
  - intros Hfresh. destruct (is_free b) eqn:Hf; [reflexivity|exfalso].
    unfold put_stops in Hs. rewrite Hf in Hs. cbn in Hs.
    destruct b as [e|]; [|discriminate].
    apply (Hfresh (value e)). now apply (holds_live_in t k _ e Hb).
Qed.

Lemma clean_put_at {V} (t : HashMap V) (k : string) (v : object V) (j : Z) b :
  wf t -> clean t -> 0 <= j <= _capacity t ->
  _buckets t !! slot t k j = Some b -> put_stops k b = true ->
  (forall i, 0 <= i < j ->
     exists b', _buckets t !! slot t k i = Some b' /\ put_stops k b' = false) ->
  clean (put_at t k v (slot t k j) b).
Proof.
  intros Hwf Hcl Hj Hb Hs Hpre.
  pose proof (clean_first_stop t k j b Hwf Hcl Hj Hb Hs Hpre) as Hfree.
  destruct Hcl as (Hnt & Hch & Hu).
  destruct (tidy_put_at t k v j b Hwf (conj Hnt Hch) Hj Hb Hs Hpre) as [Hnt' Hch'].
  split; [assumption|]. split; [assumption|].
  assert (forall i e, i <> slot t k j -> _buckets t !! i = Some (Some e) ->
            key e = k -> False) as Hother.
  { intros i e Hne Hl Hk.
    pose proof (Hnt _ _ Hl) as Ht.
    destruct (is_free b) eqn:Hf.
    - apply (proj1 Hfree eq_refl (value e)). now exists i, e.
    - unfold put_stops in Hs. rewrite Hf in Hs. cbn in Hs.
      destruct b as [e0|]; [|discriminate].
      destruct (holds_inv k e0 Hs) as [Hk0 Ht0].
      apply Hne. apply (Hu i (slot t k j) e e0); congruence. }
  intros i1 i2 e1 e2 Hl1 Hl2 Ht1 Ht2 Hk.
  apply put_at_lookup in Hl1, Hl2.
  destruct Hl1 as [[-> ->] | [Hn1 Hl1]], Hl2 as [[-> ->] | [Hn2 Hl2]].
  - reflexivity.
  - exfalso. apply (Hother i2 e2 Hn2 Hl2). now rewrite <- Hk.
  - exfalso. apply (Hother i1 e1 Hn1 Hl1). now rewrite Hk.
  - now apply (Hu i1 i2 e1 e2).
Qed.

Lemma clean_blank {V} (m : HashMap V) (r : Z) : clean (blank m r).
Proof.
  destruct (tidy_blank m r) as [Hnt Hch]. split; [assumption|]. split; [assumption|].
  intros i j e1 e2 Hl. now destruct (blank_lookup m r i e1).
Qed.

(** Tables of the same live content and without double keys have the same
    size. *)
Lemma same_content_size {V} (m m' : HashMap V) :
  wf m -> wf m' -> unique_keys m -> unique_keys m' ->
  (forall k v, live_in m' k v <-> live_in m k v) -> _size m' = _size m.
Proof.
  intros Hwf Hwf' Hu Hu' Hc.
  rewrite (wf_size m Hwf), (wf_size m' Hwf'), <- !length_live_entries.
  f_equal. rewrite <- (length_fmap key (live_entries (_buckets m'))),
             <- (length_fmap key (live_entries (_buckets m))).
  apply Permutation_length, NoDup_Permutation;
    [now apply unique_keys_NoDup|now apply unique_keys_NoDup|].
  assert (forall (t : HashMap V) x,
            x ∈ key <$> live_entries (_buckets t) <-> exists v, live_in t x v) as Hin.
  { intros t x. rewrite list_elem_of_fmap. split.
    - intros (e & -> & He). exists (value e). apply live_in_entries. now exists e.
    - intros (v & Hl). apply live_in_entries in Hl. destruct Hl as (e & He & Hk & _).
      now exists e. }
  intros x. rewrite !Hin. split; intros [v Hv]; exists v; now apply Hc.
Qed.

(** ** The growth of the table *)

(** X10: on a reachable table [put] adds at most one to the size; it keeps
    the capacity when the load factor is below 0.5, and otherwise the new
    capacity is the least prime above twice the old one. *)
Theorem X10_put_growth {V} (m m' : HashMap V) (n : nat) (k : string) (v : object V) :
  reachable m -> put n k v m = Ret m' ->
  get_size m' <= get_size m + 1 /\
  (2 * get_size m < get_capacity m -> get_capacity m' = get_capacity m) /\
  (get_capacity m <= 2 * get_size m ->
   Z.prime (get_capacity m') /\ 2 * get_capacity m < get_capacity m' /\
   forall p, Z.prime p -> 2 * get_capacity m < p -> get_capacity m' <= p).
Proof.
  unfold get_size, get_capacity. intros Hr Hp. apply reachable_wf in Hr.
  pose proof (wf_capacity_ge_2 m Hr) as H2.
  pose proof (wf_size_le_capacity m Hr) as Hsc.
  destruct (put_Ret n m m' k v Hr Hp) as (Hev & Hwf' & _).
  set (K := fun _ : HashMap V => True).
  assert (forall (t : HashMap V) r, K (blank t r)) as HKb by (intros; exact I).
  assert (forall (t : HashMap V) (k : string) (v : object V) (j : Z) b,
            wf t -> K t -> 0 <= j <= _capacity t ->
            _buckets t !! slot t k j = Some b -> put_stops k b = true ->
            (forall i, 0 <= i < j -> exists b',
                _buckets t !! slot t k i = Some b' /\ put_stops k b' = false) ->
            K (put_at t k v (slot t k j) b)) as HKp by (intros; exact I).
  destruct (Z.lt_ge_cases (2 * _size m) (_capacity m)) as [Hlow | Hhigh].
  - destruct (put_probe_inv K HKp m k v Hr Hlow I) as (t & Hrun & _ & _ & _ & Hc & Hs).
    assert (t = m') as ->.
    { apply (ev_unique _ _ _ (S (S (Z.to_nat (_capacity m))))
               (fun a b => put_mono a b k v m) Hev).
      rewrite put_low_load by lia. apply Hrun. lia. }
    split; [lia|]. split; [intros; assumption|lia].
  - destruct (resize_double_inv K HKb HKp m Hr)
      as (m1 & r & Hevr & [N1 HN1] & Hwf1 & _ & _ & Hc1 & Hlt & Hs1).
    destruct (put_probe_inv K HKp m1 k v Hwf1 ltac:(lia) I)
      as (t & Hrun & _ & _ & _ & Hc & Hs).
    assert (t = m') as ->.
    { apply (ev_unique _ _ _ (S (Nat.max N1 (S (Z.to_nat (_capacity m1)))))
               (fun a b => put_mono a b k v m) Hev).
      rewrite put_high_load by lia. cbn zeta. rewrite HN1 by lia. cbn [bind].
      apply Hrun. lia. }
    split; [lia|]. split; [lia|]. intros _.
    split; [apply (wf_prime m' Hwf')|]. split; [lia|].
    intros p Hpp Hgt.
    destruct (_next_prime_least (_capacity m * 2) ltac:(lia))
      as (r' & Hevr' & _ & _ & _ & Hleast).
    rewrite (ev_same _ _ _ Hevr Hevr') in *. rewrite Hc, Hc1.
    apply Hleast; [assumption| |lia].
    rewrite odd_mod_2, (prime_odd p Hpp ltac:(lia)). reflexivity.
Qed.

Lemma X10_put_growth_witness :
  get_size ex_abc <= get_size ex_ab + 1 /\
  (2 * get_size ex_ab < get_capacity ex_ab ->
   get_capacity ex_abc = get_capacity ex_ab) /\
  (get_capacity ex_ab <= 2 * get_size ex_ab ->
   Z.prime (get_capacity ex_abc) /\
   2 * get_capacity ex_ab < get_capacity ex_abc /\
   forall p, Z.prime p -> 2 * get_capacity ex_ab < p -> get_capacity ex_abc <= p).
Proof.
  apply (X10_put_growth ex_ab ex_abc 10 "c" (PyObj 3));
    [apply reachable_ex_ab|reflexivity].
Defined.

(** ** [resize_table] rebuilds the table *)

(** X11: on a reachable table [resize_table] with a capacity not below the
    size returns a table of a prime capacity not below the request, without
    any tombstone, and of a size that is not larger. If no key was live
    twice, the size and the answer of [get] for every key are unchanged and
    no key is live twice afterwards. *)
Theorem X11_resize_table_rebuilds {V} (m : HashMap V) (c : Z) :
  reachable m -> get_size m <= c ->
  exists m',
    ev (fun n => resize_table n c m) m' /\
    Z.prime (get_capacity m') /\ c <= get_capacity m' /\
    no_tombstones m' /\ get_size m' <= get_size m /\
    (unique_keys m ->
     unique_keys m' /\ get_size m' = get_size m /\
     forall k, get k m' = get k m).
Proof.
  unfold get_size, get_capacity. intros Hr Hc. apply reachable_wf in Hr.
  destruct (resize_table_ok m c Hr Hc) as (m' & Hev & Hwf' & _ & Hle & Hsame).
  destruct (resize_table_inv (fun t => no_tombstones t /\ chain t)
              tidy_blank tidy_put_at m c Hr Hc) as (m2 & Hev2 & _ & [Hnt _] & Hs).
  rewrite <- (ev_same _ _ _ Hev Hev2) in *.
  exists m'. split; [assumption|]. split; [apply (wf_prime m' Hwf')|].
  split; [assumption|]. split; [assumption|]. split; [assumption|].
  intros Hu. destruct (Hsame Hu) as [Hu' Hcont].
  split; [assumption|]. split; [now apply same_content_size|].
  now apply same_content_get.
Qed.

Lemma X11_resize_table_rebuilds_witness :
  exists m',
    ev (fun n => resize_table n 5 ex_d) m' /\
    Z.prime (get_capacity m') /\ 5 <= get_capacity m' /\
    no_tombstones m' /\ get_size m' <= get_size ex_d /\
    (unique_keys ex_d ->
     unique_keys m' /\ get_size m' = get_size ex_d /\
     forall k, get k m' = get k ex_d).
Proof.
  apply (X11_resize_table_rebuilds ex_d 5); [apply reachable_ex_d|].
  unfold get_size. cbn. lia.
Defined.

(** ** [put] on a table without tombstones *)

(** X12: on a reachable table without tombstones in which no key is live
    twice, [put(k, v)] updates in place: when [k] is live the size is
    unchanged, when it is not the size grows by one; in both cases the
    table stays without tombstones and without double keys. *)
Theorem X12_put_on_clean_table {V} (m : HashMap V) (k : string) (v : object V) :
  reachable m -> clean m ->
  exists m',
    ev (fun n => put n k v m) m' /\ clean m' /\
    ((exists v0, live_in m k v0) -> get_size m' = get_size m) /\
    ((forall v0, ~ live_in m k v0) -> get_size m' = get_size m + 1).
Proof.
  unfold get_size. intros Hr Hcl. apply reachable_wf in Hr.
  pose proof (wf_capacity_ge_2 m Hr) as H2.
  pose proof (wf_size_le_capacity m Hr) as Hsc.
  assert (forall (t : HashMap V), wf t -> clean t -> 2 * _size t < _capacity t ->
            exists t', (forall n, (Z.to_nat (_capacity t) < n)%nat ->
                          put_probe n k v t = Ret t') /\ clean t' /\
                       ((exists v0, live_in t k v0) -> _size t' = _size t) /\
                       ((forall v0, ~ live_in t k v0) -> _size t' = _size t + 1))
    as Hprobe.
  { intros t Hwt Hct Hlt. pose proof (wf_capacity_ge_2 t Hwt).
    destruct (put_probe_spec t k v Hwt Hlt) as (j & b & Hj0 & Hj & Hb & Hs & Hpre & Hrun).
    pose proof (clean_first_stop t k j b Hwt Hct ltac:(lia) Hb Hs Hpre) as Hfree.
    exists (put_at t k v (slot t k j) b). split; [assumption|].
    split; [apply clean_put_at; [assumption|assumption|lia|assumption..]|].
    cbn. split.
    - intros [v0 Hv0]. destruct (is_free b); [|lia].
      now destruct (proj1 Hfree eq_refl v0).
    - intros Hfresh. now rewrite (proj2 Hfree Hfresh). }
  destruct (Z.lt_ge_cases (2 * _size m) (_capacity m)) as [Hlow | Hhigh].
  - destruct (Hprobe m Hr Hcl Hlow) as (m' & Hrun & Hcl' & Hsz).
    exists m'. split; [|split; assumption].
    exists (S (S (Z.to_nat (_capacity m)))). intros [|n] Hn; [lia|].
    rewrite put_low_load by lia. apply Hrun. lia.
  - destruct (resize_double_ok m Hr) as (m1 & Hev1 & Hwf1 & _ & Hl1 & _ & Hsame).
    destruct (resize_double_inv clean clean_blank clean_put_at m Hr)
      as (m2 & r & _ & Hev2 & _ & Hcl1 & _).
    rewrite <- (ev_same _ _ _ Hev1 Hev2) in *.
    destruct Hcl as (Hnt & Hch & Hu). destruct (Hsame Hu) as [Hu1 Hcont].
    pose proof (same_content_size m m1 Hr Hwf1 Hu Hu1 Hcont) as Hsz1.
    destruct (Hprobe m1 Hwf1 Hcl1 Hl1) as (m' & Hrun & Hcl' & Hlive & Hfresh).
    exists m'. split; [|split; [assumption|]].
    + destruct Hev1 as [N1 HN1].
      exists (S (Nat.max N1 (S (Z.to_nat (_capacity m1))))).
      intros [|n] Hn; [lia|].
      rewrite put_high_load by lia. cbn zeta. rewrite HN1 by lia. cbn [bind].
      apply Hrun. lia.
    + rewrite <- Hsz1. split.
      * intros [v0 Hv0]. apply Hlive. exists v0. now apply Hcont.
      * intros Hf. apply Hfresh. intros v0 Hv0. apply (Hf v0). now apply Hcont.
Qed.

(** ** Tables reached without [remove] *)

Lemma built_reachable {V} (m : HashMap V) : built m -> reachable m.
Proof.
  induction 1; [eapply reach_init|eapply reach_put|eapply reach_clear
               |eapply reach_resize|eapply reach_iter|eapply reach_next]; eauto.
Qed.

Lemma clean_set_index {V} (m : HashMap V) (i : option Z) :
  clean m -> clean (set_index m i).
Proof. intros H. exact H. Qed.

Lemma clean_all_None {V} (m : HashMap V) :
  (forall i b, _buckets m !! i = Some b -> b = None) -> clean m.
Proof.
  intros Hall.
  assert (forall i e, _buckets m !! i = Some (Some e) -> False) as Hno
      by (intros i e Hl; now pose proof (Hall _ _ Hl)).
  split; [|split].
  - intros i e Hl. now destruct (Hno i e).
  - intros i e Hl. now destruct (Hno i e).
  - intros i j e1 e2 Hl. now destruct (Hno i e1).
Qed.

Lemma built_clean {V} (m : HashMap V) : built m -> clean m.
Proof.
  induction 1 as [n c h m Hc Hi | n k v m m' Hb IH Hp | n m m' Hb IH Hc
                 | n c m m' Hb IH Hr | m Hb IH | m e m' Hb IH Hn].
  - destruct (__init___ev (V:=V) c h Hc) as (r & Hev & _).
    rewrite (ev_unique _ _ _ n (fun a b => __init___mono a b c h) Hev Hi).
    apply (clean_blank (mkHashMap [] 0 h 0 None) r).
  - pose proof (reachable_wf m (built_reachable m Hb)) as Hwf.
    destruct (put_inv clean clean_blank clean_put_at m k v Hwf IH) as (m1 & Hev & _ & Hcl & _).
    now rewrite (ev_unique _ _ _ n (fun a b => put_mono a b k v m) Hev Hp).
  - pose proof (reachable_wf m (built_reachable m Hb)) as Hwf.
    destruct (clear_ev m Hwf) as (r & Hev & _).
    rewrite (ev_unique _ _ _ n (fun a b => clear_mono a b m) Hev Hc).
    apply clean_all_None. cbn. intros i b Hl. apply lookup_replicate in Hl. tauto.
  - pose proof (reachable_wf m (built_reachable m Hb)) as Hwf.
    destruct (resize_table_Ret n m m' c Hwf Hr) as [[_ ->] | (Hge & Hev & _)];
      [assumption|].
    destruct (resize_table_inv clean clean_blank clean_put_at m c Hwf Hge)
      as (m1 & Hev1 & _ & Hcl & _).
    now rewrite (ev_same _ _ _ Hev Hev1).
  - now apply clean_set_index.
  - apply __next___Ret in Hn. destruct Hn as (i & _ & -> & _).
    now apply clean_set_index.
Qed.

(** X13: a table built by the constructor (with a non-negative capacity),
    [put], [resize_table] and [clear], without any [remove], has no
    tombstone and no key live twice, and [get_size()] is the number of its
    distinct keys. *)
Theorem X13_tables_without_remove {V} (m : HashMap V) :
  built m ->
  no_tombstones m /\ unique_keys m /\
  exists keys, NoDup keys /\ da_length keys = get_size m /\
               forall k, k ∈ keys <-> exists v, live_in m k v.
Proof.
  intros Hb. destruct (built_clean m Hb) as (Hnt & _ & Hu).
  pose proof (reachable_wf m (built_reachable m Hb)) as Hwf.
  split; [assumption|]. split; [assumption|].
  exists (key <$> live_entries (_buckets m)).
  split; [now apply unique_keys_NoDup|]. split.
  - unfold da_length, get_size.
    rewrite length_fmap, length_live_entries. symmetry. apply (wf_size m Hwf).
  - intros k. rewrite list_elem_of_fmap. split.
    + intros (e & -> & He). exists (value e). apply live_in_entries. now exists e.
    + intros (v & Hl). apply live_in_entries in Hl. destruct Hl as (e & He & Hk & _).
      now exists e.
Qed.

Lemma built_ex_ab : built ex_ab.
Proof.
  apply (built_put 3 "b" (PyObj 2) ex_a); [|reflexivity].
  apply (built_put 3 "a" (PyObj 1) ex_new); [|reflexivity].
  apply (built_init 1 3 hash_function_1); [lia|reflexivity].
Defined.

Lemma X13_tables_without_remove_witness :
  no_tombstones ex_ab /\ unique_keys ex_ab /\
  exists keys, NoDup keys /\ da_length keys = get_size ex_ab /\
               forall k, k ∈ keys <-> exists v, live_in ex_ab k v.
Proof. apply (X13_tables_without_remove ex_ab). apply built_ex_ab. Defined.

Lemma X12_put_on_clean_table_witness :
  exists m',
    ev (fun n => put n "a" (PyObj 9) ex_ab) m' /\ clean m' /\
    ((exists v0, live_in ex_ab "a" v0) -> get_size m' = get_size ex_ab) /\
    ((forall v0, ~ live_in ex_ab "a" v0) -> get_size m' = get_size ex_ab + 1).
Proof.
  apply (X12_put_on_clean_table ex_ab "a" (PyObj 9));
    [apply reachable_ex_ab|apply built_clean, built_ex_ab].
Defined.

(** ** Empty tables: the constructor and [clear] *)

Lemma all_None_queries {V} (m : HashMap V) :
  wf m -> (forall i b, _buckets m !! i = Some b -> b = None) ->
  (forall k, get k m = Ret PyNone /\ contains_key k m = Ret false) /\
  get_keys_and_values m = Ret [].
Proof.
  intros Hwf Hall. pose proof (wf_capacity_ge_2 m Hwf) as H2. split.
  - intros k. assert (get k m = Ret PyNone) as Hg.
    { apply get_of_absent; [lia|apply (wf_length m Hwf)|].
      intros i b Hb. now rewrite (Hall _ _ Hb). }
    split; [assumption|]. unfold contains_key. now rewrite Hg.
  - rewrite (get_keys_and_values_wf m Hwf), (live_entries_all_None _ Hall).
    reflexivity.
Qed.

(** X14: on a reachable table [clear] returns a table of the same capacity
    and hash function with the size 0 and only Empty slots: [get] returns
    [None] and [contains_key] returns [False] for every key,
    [empty_buckets] returns the capacity and [get_keys_and_values] returns
    no pair. *)
Theorem X14_clear {V} (m : HashMap V) :
  reachable m ->
  exists m',
    ev (fun n => clear n m) m' /\
    get_size m' = 0 /\ get_capacity m' = get_capacity m /\
    _hash_function m' = _hash_function m /\
    (forall i b, _buckets m' !! i = Some b -> b = None) /\
    (forall k, get k m' = Ret PyNone /\ contains_key k m' = Ret false) /\
    empty_buckets m' = Ret (get_capacity m) /\
    get_keys_and_values m' = Ret [].
Proof.
  intros Hr. apply reachable_wf in Hr.
  destruct (clear_ev m Hr) as (r & Hev & Hle).
  pose proof (cleared_wf m r Hr Hle) as Hwf'.
  set (m' := set_size (set_buckets m (replicate (Z.to_nat r) None)) 0) in *.
  assert (forall i b, _buckets m' !! i = Some b -> b = None) as Hall.
  { cbn. intros i b Hl. apply lookup_replicate in Hl. tauto. }
  destruct (all_None_queries m' Hwf' Hall) as [Hget Hkv].
  exists m'. split; [assumption|]. split; [reflexivity|]. split; [reflexivity|].
  split; [reflexivity|]. split; [assumption|]. split; [assumption|].
  split; [|assumption].
  rewrite (empty_buckets_wf m' Hwf'). cbn. unfold get_capacity. f_equal. lia.
Qed.

Lemma X14_clear_witness :
  exists m',
    ev (fun n => clear n ex_dd) m' /\
    get_size m' = 0 /\ get_capacity m' = get_capacity ex_dd /\
    _hash_function m' = _hash_function ex_dd /\
    (forall i b, _buckets m' !! i = Some b -> b = None) /\
    (forall k, get k m' = Ret PyNone /\ contains_key k m' = Ret false) /\
    empty_buckets m' = Ret (get_capacity ex_dd) /\
    get_keys_and_values m' = Ret [].
Proof. apply (X14_clear ex_dd). apply reachable_ex_dd. Defined.



(** ** A negative requested capacity *)

(** X16: for a negative requested capacity the constructor returns a table
    without any slot and of a negative capacity (the request, or the
    request plus one when it is even); on this table every [put] raises the
    out-of-range error of the array, [get] returns [None] and [remove]
    leaves the table as it is. *)
Theorem X16_negative_capacity_table {V} (capacity : Z) (function : string -> Z) :
  capacity < 0 ->
  exists m : HashMap V,
    (forall n, (1 <= n)%nat -> __init__ n capacity function = Ret m) /\
    _buckets m = [] /\ get_capacity m < 0 /\
    get_capacity m = (if capacity mod 2 =? 0 then capacity + 1 else capacity) /\
    forall k,
      (forall v n, (2 <= n)%nat -> put n k v m = Raise DynamicArrayException) /\
      get k m = Ret PyNone /\ remove k m = Ret m.
Proof.
  intros Hc.
  set (c := if capacity mod 2 =? 0 then capacity + 1 else capacity).
  assert (c < 0 /\ c mod 2 = 1) as [Hc0 Hodd].
  { subst c. pose proof (Z.mod_pos_bound capacity 2 ltac:(lia)) as Hb.
    pose proof (Z.div_mod capacity 2 ltac:(lia)) as Hd.
    destruct (Z.eqb_spec (capacity mod 2) 0) as [He | Hne]; [|lia].
    split; [lia|]. replace (capacity + 1) with (1 + capacity) by lia.
    rewrite Z.add_mod, He by lia. reflexivity. }
  assert (c = if capacity mod 2 =? 0 then capacity + 1 else capacity) as Hceq
    by reflexivity.
  assert ((c =? 0) = false) as Hcz by lia.
  clearbody c.
  set (m := mkHashMap (V:=V) [] c function 0 None).
  exists m. split.
  { intros [|n] Hn; [lia|]. unfold __init__, _next_prime. rewrite <- Hceq.
    cbn [_next_prime_loop]. rewrite (_is_prime_negative c Hc0), Hodd. cbn.
    unfold range. replace (Z.to_nat c) with 0%nat by lia. reflexivity. }
  split; [reflexivity|]. split; [assumption|]. split; [reflexivity|].
  intros k. split; [|split].
  - intros v [|[|n]] Hn; try lia. subst m. cbn [put].
    unfold table_load. cbn [_capacity _size].
    rewrite Hcz. cbn [bind].
    assert (Qle_bool (1 # 2) (inject_Z 0 / inject_Z c) = false) as ->.
    { destruct c as [|p|p]; try lia. reflexivity. }
    cbn [bind]. unfold put_probe, pymod. cbv beta iota zeta delta [_capacity _hash_function].
    rewrite Hcz. cbn [bind put_loop].
    cbv beta iota zeta delta [_buckets].
    unfold da_get, da_length. cbn [length].
    pose proof (Z.mod_neg_bound (function k + 0 ^ 2) c Hc0) as Hb.
    destruct (Z.ltb_spec ((function k + 0 ^ 2) mod c) 0) as [|Hge]; [reflexivity|].
    destruct (Z.leb_spec (Z.of_nat 0) ((function k + 0 ^ 2) mod c)); [reflexivity|lia].
  - subst m. unfold get, pymod. cbn [_capacity _hash_function].
    rewrite Hcz. cbn [bind].
    replace (Z.to_nat c + 3)%nat with 3%nat by lia. cbn [get_loop _capacity].
    destruct (Z.leb_spec 0 c); [lia|reflexivity].
  - subst m. unfold remove, pymod. cbn [_capacity _hash_function].
    rewrite Hcz. cbn [bind].
    replace (Z.to_nat c + 3)%nat with 3%nat by lia. cbn [remove_loop _capacity].
    destruct (Z.leb_spec 0 c); [lia|reflexivity].
Qed.

Lemma X16_negative_capacity_table_witness :
  exists m : HashMap Z,
    (forall n, (1 <= n)%nat -> __init__ n (-4) hash_function_1 = Ret m) /\
    _buckets m = [] /\ get_capacity m < 0 /\
    get_capacity m = (if (-4) mod 2 =? 0 then -4 + 1 else -4) /\
    forall k,
      (forall v n, (2 <= n)%nat -> put n k v m = Raise DynamicArrayException) /\
      get k m = Ret PyNone /\ remove k m = Ret m.
Proof. apply (X16_negative_capacity_table (-4) hash_function_1). lia. Defined.

(** ** The iteration and the listing of the pairs *)

Lemma live_entries_Some {V} (l : list (HashEntry V)) :
  (forall e, e ∈ l -> is_tombstone e = false) ->
  live_entries (Some <$> l) = l.
Proof.
  induction l as [|e l IH]; intros H; [reflexivity|]. cbn.
  rewrite (H e) by apply list_elem_of_here. f_equal. apply IH.
  intros e' He'. apply H. now apply list_elem_of_further.
Qed.

(** X17: on every reachable table the iteration started by [__iter__]
    ends, and the entries it yields are an initial part of the pairs that
    [get_keys_and_values] returns, in the same order: every entry it yields is
    live, and the yielded entries and the ones it leaves out, at the end of
    the listing, are [get_size()] together. *)
Theorem X17_iteration_prefix_of_pairs {V} (m : HashMap V) :
  reachable m ->
  exists l rest,
    (forall n, (length l < n)%nat -> iterate n m = Ret l) /\
    get_keys_and_values m
    = Ret (map (fun e => (key e, value e)) (l ++ rest)%list) /\
    da_length l + da_length rest = get_size m /\
    forall e, e ∈ l -> live_in m (key e) (value e).
Proof.
  intros Hr. apply reachable_wf in Hr.
  assert (count_live (_buckets m) < da_length (_buckets m)) as Hlt.
  { rewrite <- (wf_size m Hr). pose proof (wf_load m Hr).
    pose proof (wf_length m Hr). pose proof (wf_capacity_ge_2 m Hr). lia. }
  destruct (first_free (_buckets m) Hlt) as (j & b & Hb & Hf & Hpre).
  destruct (iterate_prefix m j b Hpre Hb Hf) as (l & Hl & Hlen & Hrun).
  assert (forall e, e ∈ l ->
            exists i, _buckets m !! i = Some (Some e) /\ is_tombstone e = false)
    as Hin.
  { intros e He. apply (list_elem_of_fmap_2 Some) in He. rewrite Hl in He.
    apply list_elem_of_lookup in He. destruct He as [i Hi].
    apply lookup_take_Some in Hi. destruct Hi as [Hi Hij].
    destruct (Hpre i Hij) as (e' & He' & Ht). exists i.
    rewrite He' in Hi. injection Hi as ->. now split. }
  assert (live_entries (_buckets m)
          = (l ++ live_entries (drop j (_buckets m)))%list) as Hsplit.
  { rewrite <- (take_drop j (_buckets m)) at 1.
    rewrite live_entries_app, <- Hl, live_entries_Some; [reflexivity|].
    intros e He. destruct (Hin e He) as (_ & _ & Ht). exact Ht. }
  exists l, (live_entries (drop j (_buckets m))).
  split; [rewrite Hlen; exact Hrun|]. split; [|split].
  - rewrite <- Hsplit. now apply get_keys_and_values_wf.
  - unfold get_size. rewrite (wf_size m Hr), <- length_live_entries, Hsplit.
    unfold da_length. rewrite length_app. lia.
  - intros e He. apply live_in_entries. exists e. split; [|now split].
    rewrite Hsplit. apply elem_of_app. now left.
Qed.

Lemma X17_iteration_prefix_of_pairs_witness :
  exists l rest,
    (forall n, (length l < n)%nat -> iterate n ex_abc = Ret l) /\
    get_keys_and_values ex_abc
    = Ret (map (fun e => (key e, value e)) (l ++ rest)%list) /\
    da_length l + da_length rest = get_size ex_abc /\
    forall e, e ∈ l -> live_in ex_abc (key e) (value e).
Proof. apply (X17_iteration_prefix_of_pairs ex_abc). apply reachable_ex_abc. Defined.

(** ** What [get] reads *)

(** X18: on every reachable table [get] returns a value for every key: a
    value that is live under the key when the key is live, [None] when it
    is not, and the one live value when no key is live twice; never the
    value of a tombstone or of another key.  [contains_key] returns whether
    this value is not [None]. *)
Theorem X18_get_reads_live_value {V} (m : HashMap V) (k : string) :
  reachable m ->
  exists v,
    get k m = Ret v /\
    ((exists w, live_in m k w) -> live_in m k v) /\
    ((forall w, ~ live_in m k w) -> v = PyNone) /\
    (unique_keys m -> forall w, live_in m k w -> v = w) /\
    contains_key k m = Ret (match v with PyNone => false | PyObj _ => true end).
Proof.
  intros Hr. apply reachable_wf in Hr.
  pose proof (wf_capacity_ge_2 m Hr) as H2.
  assert (forall v, get k m = Ret v ->
            contains_key k m
            = Ret (match v with PyNone => false | PyObj _ => true end)) as Hck.
  { intros v Hg. unfold contains_key. rewrite Hg. now destruct v. }
  destruct (live_or_not m k) as [(w & i & e & Hl & Ht & Hk & Hv) | Hn].
  - destruct (wf_probe m Hr i e Hl Ht) as (j & Hj & Hij).
    assert (slot m k j = i) as Hs by (unfold slot; rewrite <- Hk, <- Hij; lia).
    destruct (get_found m k ltac:(lia) (wf_length m Hr) j e Hj)
      as (j' & e' & _ & Hl' & Hh' & Hget).
    { now rewrite Hs. }
    { cbn. rewrite Hk, String.eqb_refl, Ht. reflexivity. }
    exists (value e'). split; [assumption|]. split; [|split; [|split]].
    + intros _. now apply (holds_live_in m k (slot m k j') e').
    + intros Hn. exfalso. apply (Hn w). now exists i, e.
    + intros Hu w' Hw'. pose proof (get_live m k w' Hr Hu Hw') as Hg.
      rewrite Hget in Hg. now injection Hg.
    + now apply Hck.
  - pose proof (get_not_live m k Hr Hn) as Hg.
    exists PyNone. split; [assumption|]. split; [|split; [|split]].
    + intros [w Hw]. exfalso. apply (Hn w Hw).
    + reflexivity.
    + intros _ w Hw. exfalso. apply (Hn w Hw).
    + now apply (Hck PyNone).
Qed.

Lemma X18_get_reads_live_value_witness :
  exists v,
    get "d" ex_dd = Ret v /\
    ((exists w, live_in ex_dd "d" w) -> live_in ex_dd "d" v) /\
    ((forall w, ~ live_in ex_dd "d" w) -> v = PyNone) /\
    (unique_keys ex_dd -> forall w, live_in ex_dd "d" w -> v = w) /\
    contains_key "d" ex_dd = Ret (match v with PyNone => false | PyObj _ => true end).
Proof. apply (X18_get_reads_live_value ex_dd "d"). apply reachable_ex_dd. Defined.
